(** * Monaco Error Lens: the marker-to-decoration pipeline

    A shallow embedding of [src/utils.ts], [src/decorations.ts],
    [src/event-emitter.ts] and [src/monaco-error-lens.ts], and the
    properties of the filtering / sorting / grouping / formatting core and
    of the orchestrator's lifecycle.

    Conventions.
    - A JavaScript number that holds a line number, a severity, a length
      or a delay is an integer and is modelled by [Z].
    - A JavaScript string is a [string]; only its length, its prefixes and
      the position of a substring matter here, none of which depends on the
      width of a code unit.
    - An optional property ([source?], [code?], an absent option of
      [ErrorLensOptions]) is an [option]; [None] is [undefined].  A
      property that is present and holds [undefined] is not told apart
      from an absent one.
    - A [Map] is an association list in insertion order, because the code
      iterates over it.
    - An exception is the [Throw] of a result; the state reached before
      the exception is kept, as in JavaScript. *)

From Stdlib Require Import ZArith List String Ascii Bool Lia Arith.
From Stdlib Require Import Permutation Sorted DecimalString.
Import ListNotations.

Local Open Scope Z_scope.

(* ================================================================== *)
(** * JavaScript primitives used by the code *)
(* ================================================================== *)

Module Js.

(** Truthiness of a number: [if (n)] holds unless [n] is zero. *)
Definition truthy (n : Z) : bool := negb (n =? 0).

(** [Array.prototype.includes] on numbers. *)
Definition includes (l : list Z) (x : Z) : bool := existsb (Z.eqb x) l.

(** [Array.prototype.sort(cmp)]: the sort is stable, [a] comes before
    [b] when [cmp a b < 0], and elements that compare equal keep their
    order.  For a consistent comparator that order is unique; it is
    computed here by insertion from the right. *)
Section Sort.
Context {A : Type} (cmp : A -> A -> Z).

Fixpoint insert (x : A) (l : list A) : list A :=
  match l with
  | [] => [x]
  | y :: l' => if cmp x y <=? 0 then x :: y :: l' else y :: insert x l'
  end.

Definition sort (l : list A) : list A := fold_right insert [] l.
End Sort.

(** [Array.prototype.slice(start, end)], with the clamping of relative
    indices of the language definition. *)
Definition rel_index (i len : Z) : Z :=
  if i <? 0 then Z.max (len + i) 0 else Z.min i len.

Definition slice {A : Type} (l : list A) (start end_ : Z) : list A :=
  let len := Z.of_nat (List.length l) in
  let k := rel_index start len in
  let final := rel_index end_ len in
  firstn (Z.to_nat (Z.max (final - k) 0)) (skipn (Z.to_nat k) l).

(** ** Strings *)

Fixpoint take (n : nat) (s : string) : string :=
  match n, s with
  | O, _ => EmptyString
  | S _, EmptyString => EmptyString
  | S n', String c s' => String c (take n' s')
  end.

Fixpoint drop (n : nat) (s : string) : string :=
  match n, s with
  | O, _ => s
  | S _, EmptyString => EmptyString
  | S n', String _ s' => drop n' s'
  end.

(** [String.prototype.substring(start, end)]: both indices are clamped
    to [0, length] and swapped when [start > end]. *)
Definition clamp (i len : Z) : Z := Z.min (Z.max i 0) len.

Definition substring (s : string) (start end_ : Z) : string :=
  let len := Z.of_nat (String.length s) in
  let a := clamp start len in
  let b := clamp end_ len in
  let from := Z.min a b in
  let to := Z.max a b in
  take (Z.to_nat (to - from)) (drop (Z.to_nat from) s).

(** [String.prototype.endsWith]. *)
Definition endsWith (s suffix : string) : bool :=
  let n := String.length s in
  let k := String.length suffix in
  if (k <=? n)%nat then String.eqb (drop (n - k) s) suffix else false.

(** *** [String(n)] for a number that holds an integer

    A number is a double.  An integer below 2^53 in magnitude is one as
    it stands; a larger one stands for the nearest integer with a
    significand of 53 bits, ties to the even significand. *)
Definition toDouble (n : Z) : Z :=
  let e := Z.log2 n - 52 in
  if e <=? 0 then n
  else
    let q := Z.shiftr n e in
    let r := n - Z.shiftl q e in
    let half := Z.shiftl 1 (e - 1) in
    Z.shiftl (if (half <? r) || ((r =? half) && Z.odd q) then q + 1 else q) e.

(** Whether the decimal [v] denotes the double [x], that is, whether
    [x] is the double nearest to [v]: [v] lies within half the distance
    to the next double on either side, the bounds included when the
    significand of [x] is even.  Below 2^53 the neighbours are the
    next integers. *)
Definition denotes (x v : Z) : bool :=
  let e := Z.log2 x - 52 in
  if e <=? 0 then v =? x
  else
    let m := Z.shiftr x e in
    let up := Z.shiftl 1 e in
    let down := if m =? Z.shiftl 1 52 then Z.shiftl 1 (e - 1) else up in
    if Z.even m then (2 * x - down <=? 2 * v) && (2 * v <=? 2 * x + up)
    else (2 * x - down <? 2 * v) && (2 * v <? 2 * x + up).

(** The decimal with the fewest significant digits that denotes [x];
    among several of that length the one nearest to [x], and of two
    equally near the one whose last digit is even.  It is looked for
    among the multiples of [10^p], from the largest [p] down. *)
Fixpoint shortest (p : nat) (x : Z) : Z :=
  let unit := 10 ^ Z.of_nat p in
  let below := x / unit * unit in
  let above := below + unit in
  let fromBelow := (0 <? below) && denotes x below in
  let fromAbove := denotes x above in
  if fromBelow && fromAbove then
    if x - below <? above - x then below
    else if above - x <? x - below then above
    else if Z.even (x / unit) then below else above
  else if fromBelow then below
  else if fromAbove then above
  else match p with
       | O => x
       | S p' => shortest p' x
       end.

Fixpoint stripZeros (digits : string) : string :=
  match digits with
  | EmptyString => EmptyString
  | String c rest =>
      match stripZeros rest with
      | EmptyString => if Ascii.eqb c "0"%char then EmptyString else String c EmptyString
      | rest' => String c rest'
      end
  end.

Definition decimal (n : Z) : string := NilZero.string_of_int (Z.to_int n).

(** Number::toString for a positive double that holds an integer: up
    to 21 digits the significant digits and then zeros, from there on the
    exponent notation. *)
Definition string_of_positive (x : Z) : string :=
  if Z.shiftl 1 1024 <=? x then "Infinity"%string
  else
    let v := shortest (Z.to_nat (Z.log2 x)) x in
    let digits := decimal v in
    if v <? 10 ^ 21 then digits
    else
      match stripZeros digits with
      | EmptyString => digits
      | String first EmptyString =>
          (String first "e+" ++ decimal (Z.of_nat (String.length digits) - 1))%string
      | String first more =>
          (String first "." ++ more ++ "e+"
             ++ decimal (Z.of_nat (String.length digits) - 1))%string
      end.

(** [String(n)] *)
Definition string_of_number (n : Z) : string :=
  if n =? 0 then "0"%string
  else if n <? 0 then ("-" ++ string_of_positive (toDouble (- n)))%string
  else string_of_positive (toDouble n).

(** [s.indexOf(pat)] as a split: the text before the first occurrence
    of [pat] and the text after it. *)
Fixpoint split_first (pat s : string) : option (string * string) :=
  if String.prefix pat s then
    Some (EmptyString, drop (String.length pat) s)
  else
    match s with
    | EmptyString => None
    | String c s' =>
        match split_first pat s' with
        | Some (before, after) => Some (String c before, after)
        | None => None
        end
    end.

(** The replacement text of [replace] (GetSubstitution) for a string
    pattern, which has no capture groups: [$$] is a dollar, [$&] the
    matched text, [$`] the text before the match, [$'] the text after
    it; any other [$] stands for itself. *)
Fixpoint get_substitution (matched before after rep : string) : string :=
  match rep with
  | EmptyString => EmptyString
  | String c rest =>
      if Ascii.eqb c "$"%char then
        match rest with
        | String d rest' =>
            if Ascii.eqb d "$"%char then
              String "$"%char (get_substitution matched before after rest')
            else if Ascii.eqb d "&"%char then
              matched ++ get_substitution matched before after rest'
            else if Ascii.eqb d "`"%char then
              before ++ get_substitution matched before after rest'
            else if Ascii.eqb d "'"%char then
              after ++ get_substitution matched before after rest'
            else String c (get_substitution matched before after rest)
        | EmptyString => String c EmptyString
        end
      else String c (get_substitution matched before after rest)
  end%string.

(** [s.replace(pat, rep)] with a string pattern: only the first
    occurrence is replaced. *)
Definition replace (s pat rep : string) : string :=
  match split_first pat s with
  | Some (before, after) =>
      (before ++ get_substitution pat before after rep ++ after)%string
  | None => s
  end.

End Js.

(* ================================================================== *)
(** * types.ts *)
(* ================================================================== *)

(** [code?: string | number] *)
Inductive MarkerCode : Type :=
| CodeString (s : string)
| CodeNumber (n : Z).

Record MonacoMarkerData : Type := mkMarker {
  startLineNumber : Z;
  startColumn : Z;
  endLineNumber : Z;
  endColumn : Z;
  message : string;
  severity : Z;
  source : option string;
  code : option MarkerCode
}.

Record MonacoRange : Type := mkRange {
  range_startLineNumber : Z;
  range_startColumn : Z;
  range_endLineNumber : Z;
  range_endColumn : Z
}.

(** [after?: { content; inlineClassName }] *)
Record AfterContent : Type := mkAfter {
  content : string;
  inlineClassName : string
}.

Record MonacoDecorationOptions : Type := mkOptions {
  isWholeLine : option bool;
  className : option string;
  glyphMarginClassName : option string;
  after : option AfterContent;
  hoverMessage : option string;
  stickiness : option Z
}.

Record MonacoDecoration : Type := mkDecoration {
  range : MonacoRange;
  options : MonacoDecorationOptions
}.

Inductive FollowCursor : Type := AllLines | ActiveLine.

Record ColorPair (A : Type) : Type := mkPair {
  background : A;
  foreground : A
}.
Arguments mkPair {A}.
Arguments background {A}.
Arguments foreground {A}.

Record Colors (A : Type) : Type := mkColors {
  c_error : A;
  c_warning : A;
  c_info : A;
  c_hint : A
}.
Arguments mkColors {A}.
Arguments c_error {A}.
Arguments c_warning {A}.
Arguments c_info {A}.
Arguments c_hint {A}.

(** [Partial<ErrorLensColors>] as the code reads it, through
    [colors?.error?.background]: a severity may be absent, and so may
    a channel of it. *)
Definition PartialColors : Type := Colors (option (ColorPair (option string))).

(** [ErrorLensOptions]: every option may be absent. *)
Record ErrorLensOptions : Type := mkErrorLensOptions {
  o_enableInlineMessages : option bool;
  o_enableLineHighlights : option bool;
  o_enableGutterIcons : option bool;
  o_messageTemplate : option string;
  o_followCursor : option FollowCursor;
  o_maxMessageLength : option Z;
  o_maxMarkersPerLine : option Z;
  o_severityFilter : option (list Z);
  o_colors : option PartialColors;
  o_updateDelay : option Z;
  o_enabled : option bool
}.

(** [ErrorLensConfig = Required<ErrorLensOptions>]: every option is
    there; [colors] keeps its type, [Partial<ErrorLensColors>]. *)
Record ErrorLensConfig : Type := mkConfig {
  enableInlineMessages : bool;
  enableLineHighlights : bool;
  enableGutterIcons : bool;
  messageTemplate : string;
  followCursor : FollowCursor;
  maxMessageLength : Z;
  maxMarkersPerLine : Z;
  severityFilter : list Z;
  colors : PartialColors;
  updateDelay : Z;
  enabled : bool
}.

Module SEVERITY_LEVELS.
Definition ERROR : Z := 8.
Definition WARNING : Z := 4.
Definition INFO : Z := 2.
Definition HINT : Z := 1.
End SEVERITY_LEVELS.

Module CSS_CLASSES.
Definition MESSAGE : string := "monaco-error-lens-message".
Definition LINE : string := "monaco-error-lens-line".
Definition GUTTER : string := "monaco-error-lens-gutter".
End CSS_CLASSES.

Definition DEFAULT_OPTIONS : ErrorLensConfig := {|
  enableInlineMessages := true;
  enableLineHighlights := true;
  enableGutterIcons := true;
  messageTemplate := "{message}";
  followCursor := AllLines;
  maxMessageLength := 200;
  maxMarkersPerLine := 3;
  severityFilter := [8; 4; 2; 1];
  colors := {|
    c_error := Some (mkPair (Some "rgba(228, 85, 84, 0.15)") (Some "#ff6464"))%string;
    c_warning := Some (mkPair (Some "rgba(255, 148, 47, 0.15)") (Some "#fa973a"))%string;
    c_info := Some (mkPair (Some "rgba(0, 183, 228, 0.15)") (Some "#00b7e4"))%string;
    c_hint := Some (mkPair (Some "rgba(119, 136, 153, 0.15)") (Some "#778899"))%string
  |};
  updateDelay := 100;
  enabled := true
|}.

(* ================================================================== *)
(** * utils.ts *)
(* ================================================================== *)

Definition getSeverityClass (sev : Z) : string :=
  if sev =? SEVERITY_LEVELS.ERROR then "error"
  else if sev =? SEVERITY_LEVELS.WARNING then "warning"
  else if sev =? SEVERITY_LEVELS.INFO then "info"
  else if sev =? SEVERITY_LEVELS.HINT then "hint"
  else "unknown".

(** [marker.code ? String(marker.code) : ''] : an empty string and the
    number zero are falsy. *)
Definition code_text (c : option MarkerCode) : string :=
  match c with
  | Some (CodeString s) => s
  | Some (CodeNumber n) => if Js.truthy n then Js.string_of_number n else EmptyString
  | None => EmptyString
  end.

Definition source_text (s : option string) : string :=
  match s with Some s => s | None => EmptyString end.

(** The three chained [replace] calls of [formatMessage]. *)
Definition substituteTokens (marker : MonacoMarkerData) (template : string) : string :=
  Js.replace
    (Js.replace
       (Js.replace template "{message}" (message marker))
       "{source}" (source_text (source marker)))
    "{code}" (code_text (code marker)).

(** [formatMessage(marker, template, maxLength?)]; the default value of
    [template] is supplied by [formatMessageDefault]. *)
Definition formatMessage (marker : MonacoMarkerData) (template : string)
    (maxLength : option Z) : string :=
  let formatted := substituteTokens marker template in
  match maxLength with
  | Some n =>
      if Js.truthy n && (Z.of_nat (String.length formatted) >? n) then
        (Js.substring formatted 0 (n - 3) ++ "...")%string
      else formatted
  | None => formatted
  end.

Definition formatMessageDefault (marker : MonacoMarkerData) : string :=
  formatMessage marker "{message}" None.

(** The comparator of [sortMarkers]. *)
Definition compareMarkers (a b : MonacoMarkerData) : Z :=
  if negb (startLineNumber a =? startLineNumber b) then
    startLineNumber a - startLineNumber b
  else severity b - severity a.

(** [sortMarkers]: the value it returns (the array is sorted in place;
    see [Heap.sortMarkers] for the effect). *)
Definition sortMarkers (markers : list MonacoMarkerData) : list MonacoMarkerData :=
  Js.sort compareMarkers markers.

(** [Map<number, MonacoMarkerData[]>] in insertion order. *)
Definition LineGroups : Type := list (Z * list MonacoMarkerData).

(** One turn of the loop of [groupMarkersByLine]: create the entry for
    [line] when the map has none, then push the marker onto it. *)
Fixpoint pushOnLine (line : Z) (marker : MonacoMarkerData) (grouped : LineGroups)
  : LineGroups :=
  match grouped with
  | [] => [(line, [marker])]
  | (k, lineMarkers) :: rest =>
      if k =? line then (k, lineMarkers ++ [marker]) :: rest
      else (k, lineMarkers) :: pushOnLine line marker rest
  end.

Definition groupMarkersByLine (markers : list MonacoMarkerData) : LineGroups :=
  fold_left (fun grouped marker => pushOnLine (startLineNumber marker) marker grouped)
    markers [].

Record SeverityCounts : Type := mkCounts {
  errors : nat; warnings : nat; infos : nat; hints : nat
}.

Definition countMarkersBySeverity (markers : list MonacoMarkerData) : SeverityCounts :=
  fold_left
    (fun acc marker =>
       let s := severity marker in
       if s =? SEVERITY_LEVELS.ERROR then
         mkCounts (S (errors acc)) (warnings acc) (infos acc) (hints acc)
       else if s =? SEVERITY_LEVELS.WARNING then
         mkCounts (errors acc) (S (warnings acc)) (infos acc) (hints acc)
       else if s =? SEVERITY_LEVELS.INFO then
         mkCounts (errors acc) (warnings acc) (S (infos acc)) (hints acc)
       else if s =? SEVERITY_LEVELS.HINT then
         mkCounts (errors acc) (warnings acc) (infos acc) (S (hints acc))
       else acc)
    markers (mkCounts 0 0 0 0).

Definition orElse {A : Type} (o : option A) (d : A) : A :=
  match o with Some v => v | None => d end.

(** [colors.sev?.channel] *)
Definition channelOf (colors : PartialColors) (sev : forall A, Colors A -> A)
    (channel : forall A, ColorPair A -> A) : option string :=
  match sev _ colors with
  | Some channels => channel _ channels
  | None => None
  end.

(** [userOptions.colors?.sev?.channel ?? defaultOptions.colors.sev?.channel
    ?? literal] *)
Definition mergeChannel (user : option PartialColors)
    (sev : forall A, Colors A -> A)
    (channel : forall A, ColorPair A -> A)
    (default : PartialColors) (literal : string) : string :=
  orElse
    match user with
    | Some uc => channelOf uc sev channel
    | None => None
    end
    (orElse (channelOf default sev channel) literal).

(** One severity of the merged [colors]: an object with both channels. *)
Definition mergePair (user : option PartialColors)
    (sev : forall A, Colors A -> A) (default : PartialColors)
    (literalBackground literalForeground : string)
  : option (ColorPair (option string)) :=
  Some {| background := Some (mergeChannel user sev (@background) default literalBackground);
          foreground := Some (mergeChannel user sev (@foreground) default literalForeground) |}.

Definition mergeOptions (defaultOptions : ErrorLensConfig)
    (userOptions : ErrorLensOptions) : ErrorLensConfig := {|
  enableInlineMessages :=
    orElse (o_enableInlineMessages userOptions) (enableInlineMessages defaultOptions);
  enableLineHighlights :=
    orElse (o_enableLineHighlights userOptions) (enableLineHighlights defaultOptions);
  enableGutterIcons :=
    orElse (o_enableGutterIcons userOptions) (enableGutterIcons defaultOptions);
  messageTemplate := orElse (o_messageTemplate userOptions) (messageTemplate defaultOptions);
  followCursor := orElse (o_followCursor userOptions) (followCursor defaultOptions);
  maxMessageLength := orElse (o_maxMessageLength userOptions) (maxMessageLength defaultOptions);
  maxMarkersPerLine :=
    orElse (o_maxMarkersPerLine userOptions) (maxMarkersPerLine defaultOptions);
  severityFilter := orElse (o_severityFilter userOptions) (severityFilter defaultOptions);
  colors := {|
    c_error :=
      mergePair (o_colors userOptions) (@c_error) (colors defaultOptions)
        "rgba(228, 85, 84, 0.15)" "#ff6464";
    c_warning :=
      mergePair (o_colors userOptions) (@c_warning) (colors defaultOptions)
        "rgba(255, 148, 47, 0.15)" "#fa973a";
    c_info :=
      mergePair (o_colors userOptions) (@c_info) (colors defaultOptions)
        "rgba(0, 183, 228, 0.15)" "#00b7e4";
    c_hint :=
      mergePair (o_colors userOptions) (@c_hint) (colors defaultOptions)
        "rgba(119, 136, 153, 0.15)" "#778899"
  |};
  updateDelay := orElse (o_updateDelay userOptions) (updateDelay defaultOptions);
  enabled := orElse (o_enabled userOptions) (enabled defaultOptions)
|}.

(* ================================================================== *)
(** * decorations.ts: the pure part of [DecorationManager] *)
(* ================================================================== *)

Module DecorationManager.

Definition getSeverityLabel (sev : Z) : string :=
  if sev =? 8 then "Error"
  else if sev =? 4 then "Warning"
  else if sev =? 2 then "Info"
  else if sev =? 1 then "Hint"
  else "Unknown".

(** [marker.source ? ` [${marker.source}]` : ''] *)
Definition sourceTag (s : option string) : string :=
  match s with
  | Some EmptyString | None => EmptyString
  | Some src => (" [" ++ src ++ "]")%string
  end.

Definition hoverLine (marker : MonacoMarkerData) : string :=
  ("**" ++ getSeverityLabel (severity marker) ++ "**" ++ sourceTag (source marker)
     ++ ": " ++ message marker)%string.

Definition newline : string := String (ascii_of_nat 10) EmptyString.

Definition createHoverMessage (markers : list MonacoMarkerData) : string :=
  match markers with
  | [marker] => hoverLine marker
  | _ => String.concat (newline ++ newline) (map hoverLine markers)
  end.

(** The private [groupMarkersByLine] of the class: the grouping of
    [utils.ts], then every group sorted by descending severity. *)
Definition bySeverityDesc (a b : MonacoMarkerData) : Z := severity b - severity a.

Definition groupMarkersByLine (markers : list MonacoMarkerData) : LineGroups :=
  map (fun entry => (fst entry, Js.sort bySeverityDesc (snd entry)))
    (groupMarkersByLine markers).

Definition classPair (base severityClass : string) : string :=
  (base ++ " " ++ base ++ "-" ++ severityClass)%string.

Section WithEnvironment.
(** Whether the page has a global [window.monaco.Range]; the
    constructor itself stores its four arguments. *)
Variable window_monaco_Range : bool.
Variable config : ErrorLensConfig.

Definition createLineDecoration (lineNumber : Z) (markers : list MonacoMarkerData)
  : option MonacoDecoration :=
  match markers with
  | [] => None
  | primaryMarker :: _ =>
      let severityClass := getSeverityClass (severity primaryMarker) in
      let highlights := enableLineHighlights config in
      let opts := {|
        stickiness := Some 1;
        isWholeLine := if highlights then Some true else None;
        className :=
          if highlights then Some (classPair CSS_CLASSES.LINE severityClass) else None;
        after :=
          if enableInlineMessages config then
            Some {| content :=
                      formatMessage primaryMarker (messageTemplate config)
                        (Some (maxMessageLength config));
                    inlineClassName := classPair CSS_CLASSES.MESSAGE severityClass |}
          else None;
        glyphMarginClassName :=
          if enableGutterIcons config then
            Some (classPair CSS_CLASSES.GUTTER severityClass)
          else None;
        hoverMessage := Some (createHoverMessage markers)
      |} in
      if window_monaco_Range then
        Some {| range := mkRange lineNumber 1 lineNumber 1; options := opts |}
      else None
  end.

Definition createDecorations (markers : list MonacoMarkerData)
  : list MonacoDecoration :=
  flat_map
    (fun entry =>
       match snd entry with
       | [] => []
       | _ :: _ =>
           match createLineDecoration (fst entry) (snd entry) with
           | Some decoration => [decoration]
           | None => []
           end
       end)
    (groupMarkersByLine markers).
End WithEnvironment.

End DecorationManager.

(* ================================================================== *)
(** * monaco-error-lens.ts: the filtering pass *)
(* ================================================================== *)

Record Position : Type := mkPosition { lineNumber : Z; column : Z }.

(** [this.editor.getPosition()?.lineNumber] *)
Definition currentLineOf (position : option Position) : option Z :=
  option_map lineNumber position.

Definition filterBySeverity (config : ErrorLensConfig)
    (markers : list MonacoMarkerData) : list MonacoMarkerData :=
  filter (fun marker => Js.includes (severityFilter config) (severity marker)) markers.

Definition onLine (line : Z) (marker : MonacoMarkerData) : bool :=
  startLineNumber marker =? line.

(** "Apply cursor-based filtering": the filter runs only when the line
    number is there and truthy. *)
Definition applyCursorFilter (config : ErrorLensConfig) (position : option Position)
    (filtered : list MonacoMarkerData) : list MonacoMarkerData :=
  match followCursor config with
  | ActiveLine =>
      match currentLineOf position with
      | Some currentLine =>
          if Js.truthy currentLine then filter (onLine currentLine) filtered
          else filtered
      | None => filtered
      end
  | AllLines => filtered
  end.

(** "Limit markers per line" *)
Definition limitMarkersPerLine (config : ErrorLensConfig)
    (filtered : list MonacoMarkerData) : list MonacoMarkerData :=
  if maxMarkersPerLine config >? 0 then
    flat_map (fun entry => Js.slice (snd entry) 0 (maxMarkersPerLine config))
      (groupMarkersByLine filtered)
  else filtered.

(** [filterMarkers], given the answer of [this.editor.getPosition()]. *)
Definition filterMarkers (config : ErrorLensConfig) (position : option Position)
    (markers : list MonacoMarkerData) : list MonacoMarkerData :=
  limitMarkersPerLine config
    (applyCursorFilter config position
       (sortMarkers (filterBySeverity config markers))).

(* ================================================================== *)
(** * Arrays as mutable objects *)
(* ================================================================== *)

(** The functions above give the value an array expression evaluates
    to.  To say which arrays a call changes, this module runs the same
    code on a store of array cells: an array value is the address of its
    cell, [sort] and [push] write to a cell, and the spread, [filter] and
    [slice] allocate a new one.  Markers are never written to by the code
    and stay values. *)
Module Heap.

Definition Addr : Type := nat.

Record Store : Type := mkStore {
  cells : Addr -> list MonacoMarkerData;
  next : Addr
}.

Definition read (st : Store) (a : Addr) : list MonacoMarkerData := cells st a.

Definition write (st : Store) (a : Addr) (elems : list MonacoMarkerData) : Store :=
  {| cells := fun b => if Nat.eqb b a then elems else cells st b;
     next := next st |}.

Definition alloc (st : Store) (elems : list MonacoMarkerData) : Store * Addr :=
  ({| cells := fun b => if Nat.eqb b (next st) then elems else cells st b;
      next := S (next st) |},
   next st).

(** [[...markers]] *)
Definition spread (st : Store) (markers : Addr) : Store * Addr :=
  alloc st (read st markers).

(** [array.filter(p)] *)
Definition filterArray (p : MonacoMarkerData -> bool) (st : Store) (array : Addr)
  : Store * Addr :=
  alloc st (filter p (read st array)).

(** [array.slice(start, end)] *)
Definition sliceArray (st : Store) (array : Addr) (start end_ : Z) : Store * Addr :=
  alloc st (Js.slice (read st array) start end_).

(** [array.push(...items)] *)
Definition pushAll (st : Store) (array : Addr) (items : list MonacoMarkerData) : Store :=
  write st array (read st array ++ items).

(** [sortMarkers]: [markers.sort(...)] sorts the array it is given and
    returns that same array. *)
Definition sortMarkers (st : Store) (markers : Addr) : Store * Addr :=
  (write st markers (Js.sort compareMarkers (read st markers)), markers).

(** [Map<number, MonacoMarkerData[]>]: the values are arrays. *)
Definition Groups : Type := list (Z * Addr).

Fixpoint getLine (line : Z) (grouped : Groups) : option Addr :=
  match grouped with
  | [] => None
  | (k, a) :: rest => if k =? line then Some a else getLine line rest
  end.

(** One turn of the loop of [groupMarkersByLine]. *)
Definition pushOnLine (state : Store * Groups) (marker : MonacoMarkerData)
  : Store * Groups :=
  let (st, grouped) := state in
  let line := startLineNumber marker in
  match getLine line grouped with
  | Some lineMarkers => (pushAll st lineMarkers [marker], grouped)
  | None =>
      let (st', lineMarkers) := alloc st [] in
      (pushAll st' lineMarkers [marker], grouped ++ [(line, lineMarkers)])
  end.

Definition groupMarkersByLine (st : Store) (markers : Addr) : Store * Groups :=
  fold_left pushOnLine (read st markers) (st, []).

(** One turn of the loop over [lineGroups.values()] in [filterMarkers]. *)
Definition pushLimited (limit : Z) (filtered : Addr) (st : Store) (entry : Z * Addr)
  : Store :=
  let (st', limited) := sliceArray st (snd entry) 0 limit in
  pushAll st' filtered (read st' limited).

(** "Apply cursor-based filtering" *)
Definition applyCursorFilter (config : ErrorLensConfig) (position : option Position)
    (st : Store) (filtered : Addr) : Store * Addr :=
  match followCursor config with
  | ActiveLine =>
      match currentLineOf position with
      | Some currentLine =>
          if Js.truthy currentLine then filterArray (onLine currentLine) st filtered
          else (st, filtered)
      | None => (st, filtered)
      end
  | AllLines => (st, filtered)
  end.

(** "Limit markers per line" *)
Definition limitMarkersPerLine (config : ErrorLensConfig) (st : Store) (filtered : Addr)
  : Store * Addr :=
  if maxMarkersPerLine config >? 0 then
    let (st, lineGroups) := groupMarkersByLine st filtered in
    let (st, filtered) := alloc st [] in
    (fold_left (pushLimited (maxMarkersPerLine config) filtered) lineGroups st, filtered)
  else (st, filtered).

Definition filterMarkers (config : ErrorLensConfig) (position : option Position)
    (st : Store) (markers : Addr) : Store * Addr :=
  let (st, filtered) := spread st markers in
  let (st, filtered) :=
    filterArray (fun marker => Js.includes (severityFilter config) (severity marker))
      st filtered in
  let (st, filtered) := sortMarkers st filtered in
  let (st, filtered) := applyCursorFilter config position st filtered in
  limitMarkersPerLine config st filtered.

(** The private [groupMarkersByLine] of [DecorationManager]: the groups
    are built, then every group is sorted where it is. *)
Definition sortGroup (st : Store) (entry : Z * Addr) : Store :=
  write st (snd entry) (Js.sort DecorationManager.bySeverityDesc (read st (snd entry))).

Definition managerGroups (st : Store) (markers : Addr) : Store * Groups :=
  let (st, grouped) := groupMarkersByLine st markers in
  (fold_left sortGroup grouped st, grouped).

(** What one recomputation does to arrays: the filtering pass on the
    array obtained from the host, then the grouping of the decoration
    manager on the result; the rest of the recomputation only reads. *)
Definition recompute (config : ErrorLensConfig) (position : option Position)
    (st : Store) (markers : Addr) : Store * (Addr * Groups) :=
  let (st, filtered) := filterMarkers config position st markers in
  let (st, grouped) := managerGroups st filtered in
  (st, (filtered, grouped)).

End Heap.

(* ================================================================== *)
(** * The host editor and the page *)
(* ================================================================== *)

Inductive JsError : Type :=
| TypeError (what : string)
| HostError (what : string).

(** What a call gives back: a value, or an exception. *)
Inductive Result (A : Type) : Type :=
| Ok (value : A)
| Throw (error : JsError).
Arguments Ok {A} value.
Arguments Throw {A} error.

(** The three subscriptions of [setupEventListeners]. *)
Inductive ListenerKind : Type := MarkerListener | CursorListener | ModelListener.

(** The collaborators handed to the constructor ([editor], [monaco]) and
    the globals the code looks at, as they answer at one moment.  A marker
    array may be [null] and may hold [null] entries (the integration tests
    pass such arrays); any call into the host may throw. *)
Record Host : Type := mkHost {
  has_getModelMarkers : bool;
  has_onDidChangeMarkers : bool;
  getModel : Result (option string);
  getPosition : Result (option Position);
  getModelMarkers : string -> Result (option (list (option MonacoMarkerData)));
  deltaDecorations : list string -> list MonacoDecoration -> Result (list string);
  subscribe : ListenerKind -> Result unit;
  disposeListener : ListenerKind -> Result unit;
  has_document : bool;
  has_window_monaco_Range : bool
}.

(* ================================================================== *)
(** * monaco-error-lens.ts: the orchestrator *)
(* ================================================================== *)

Module MonacoErrorLens.

(** The payloads of the four events; [timestamp] is the clock. *)
Inductive LensEvent : Type :=
| DecorationsUpdated (decorationCount markerCount : nat) (timestamp : Z)
| ErrorReported (error : JsError) (context : string) (timestamp : Z)
| StatusChanged (nowEnabled : bool) (timestamp : Z)
| ConfigUpdated (newConfig : ErrorLensConfig) (timestamp : Z).

(** A pending [setTimeout]; its callback is always the recomputation. *)
Record Timer : Type := mkTimer { timer_id : nat; timer_due : Z }.

(** The closure made by one call of [debounce]: the captured [wait] and
    the [timeout] variable. *)
Record Debouncer : Type := mkDebouncer { wait : Z; timeout : option nat }.

Record Timers : Type := mkTimers {
  debouncers : list Debouncer;
  pending : list Timer;
  nextTimer : nat;
  clock : Z
}.

(** What a field that the code calls as a function may hold:
    [undefined], or the function made by a call of [debounce] (the number
    of its closure). *)
Inductive Callable : Type :=
| Undefined
| DebouncedFunction (d : nat).

(** The fields of the instance, of its [DecorationManager]
    ([decorations], [lastDecorationCount]) and of its event emitter
    ([listeners]).  The manager's [config] is the very object of the
    instance (the constructor and [updateConfig] pass it by reference),
    so one field stands for both. *)
Record Lens : Type := mkLens {
  config : ErrorLensConfig;
  disposables : list ListenerKind;
  isDisposed : bool;
  updateDecorations : Callable;
  cancelUpdateDecorations : Callable;
  decorations : list string;
  lastDecorationCount : nat;
  listeners : list (string * nat)
}.

(** Everything a call can change or leave a trace in: the instance, the
    timers, the style element of the page, and two logs: the events
    emitted and the calls of [deltaDecorations]. *)
Record World : Type := mkWorld {
  lens : Lens;
  timers : Timers;
  stylesInjected : bool;
  emitted : list LensEvent;
  submitted : list (list string * list MonacoDecoration)
}.

Definition withLens (f : Lens -> Lens) (w : World) : World :=
  mkWorld (f (lens w)) (timers w) (stylesInjected w) (emitted w) (submitted w).
Definition withTimers (f : Timers -> Timers) (w : World) : World :=
  mkWorld (lens w) (f (timers w)) (stylesInjected w) (emitted w) (submitted w).

Definition setConfig (c : ErrorLensConfig) (l : Lens) : Lens :=
  mkLens c (disposables l) (isDisposed l) (updateDecorations l)
    (cancelUpdateDecorations l) (decorations l) (lastDecorationCount l) (listeners l).
Definition setDisposables (d : list ListenerKind) (l : Lens) : Lens :=
  mkLens (config l) d (isDisposed l) (updateDecorations l)
    (cancelUpdateDecorations l) (decorations l) (lastDecorationCount l) (listeners l).
Definition setIsDisposed (b : bool) (l : Lens) : Lens :=
  mkLens (config l) (disposables l) b (updateDecorations l)
    (cancelUpdateDecorations l) (decorations l) (lastDecorationCount l) (listeners l).
Definition setDebounced (debouncedFn cancel : Callable) (l : Lens) : Lens :=
  mkLens (config l) (disposables l) (isDisposed l) debouncedFn cancel
    (decorations l) (lastDecorationCount l) (listeners l).
Definition setDecorations (ids : list string) (count : nat) (l : Lens) : Lens :=
  mkLens (config l) (disposables l) (isDisposed l) (updateDecorations l)
    (cancelUpdateDecorations l) ids count (listeners l).
Definition setListeners (ls : list (string * nat)) (l : Lens) : Lens :=
  mkLens (config l) (disposables l) (isDisposed l) (updateDecorations l)
    (cancelUpdateDecorations l) (decorations l) (lastDecorationCount l) ls.

Definition setEnabled (b : bool) (c : ErrorLensConfig) : ErrorLensConfig :=
  mkConfig (enableInlineMessages c) (enableLineHighlights c) (enableGutterIcons c)
    (messageTemplate c) (followCursor c) (maxMessageLength c) (maxMarkersPerLine c)
    (severityFilter c) (colors c) (updateDelay c) b.

(** ** Computations: state and exceptions *)

(** A computation runs on a world and ends with a value or an
    exception; what it did before an exception stays done. *)
Definition M (A : Type) : Type := World -> World * Result A.

Definition ret {A : Type} (a : A) : M A := fun w => (w, Ok a).

Definition bind {A B : Type} (m : M A) (f : A -> M B) : M B :=
  fun w =>
    match m w with
    | (w', Ok a) => f a w'
    | (w', Throw e) => (w', Throw e)
    end.

Definition throw {A : Type} (e : JsError) : M A := fun w => (w, Throw e).

(** The outcome of a call into the host. *)
Definition call {A : Type} (r : Result A) : M A := fun w => (w, r).

Definition gets {A : Type} (f : World -> A) : M A := fun w => (w, Ok (f w)).

Definition modify (f : World -> World) : M unit := fun w => (f w, Ok tt).

(** [try { body } catch (error) { handler }] *)
Definition tryCatch (body : M unit) (handler : JsError -> M unit) : M unit :=
  fun w =>
    match body w with
    | (w', Ok a) => (w', Ok a)
    | (w', Throw e) => handler e w'
    end.

Declare Scope lens_scope.
Delimit Scope lens_scope with lens.
Notation "x <- m ;; k" := (bind m (fun x => k))
  (at level 61, m at next level, right associativity) : lens_scope.
Notation "m ;; k" := (bind m (fun _ => k))
  (at level 61, right associativity) : lens_scope.
Local Open Scope lens_scope.

(** ** Timers *)

(** [setTimeout(callback, delay)]: a new timer, due [delay] from now (a
    negative delay counts as zero). *)
Definition setTimeout (delay : Z) : M nat :=
  fun w =>
    let t := timers w in
    let id := nextTimer t in
    (withTimers (fun _ =>
       mkTimers (debouncers t)
         (pending t ++ [mkTimer id (clock t + Z.max 0 delay)]) (S id) (clock t)) w,
     Ok id).

(** [clearTimeout(id)] *)
Definition clearTimeout (id : nat) : M unit :=
  modify (withTimers (fun t =>
    mkTimers (debouncers t)
      (filter (fun tm => negb (Nat.eqb (timer_id tm) id)) (pending t))
      (nextTimer t) (clock t))).

Definition closureOf (d : nat) (w : World) : Debouncer :=
  nth d (debouncers (timers w)) (mkDebouncer 0 None).

Fixpoint setNth {A : Type} (n : nat) (x : A) (l : list A) : list A :=
  match l, n with
  | [], _ => []
  | _ :: rest, O => x :: rest
  | y :: rest, S n' => y :: setNth n' x rest
  end.

(** [timeout = v] inside the closure [d]. *)
Definition assignTimeout (d : nat) (v : option nat) : M unit :=
  modify (fun w =>
    withTimers (fun t =>
      mkTimers (setNth d (mkDebouncer (wait (closureOf d w)) v) (debouncers t))
        (pending t) (nextTimer t) (clock t)) w).

(** [debounce(func, wait)] of utils.ts: a new closure with
    [timeout = null]. *)
Definition debounce (delay : Z) : M nat :=
  fun w =>
    let t := timers w in
    (withTimers (fun _ =>
       mkTimers (debouncers t ++ [mkDebouncer delay None]) (pending t)
         (nextTimer t) (clock t)) w,
     Ok (List.length (debouncers t))).

(** The function [debounce] returns: clear the pending timer, if any,
    and start a new one. *)
Definition debouncedFn (d : nat) : M unit :=
  t <- gets (fun w => timeout (closureOf d w)) ;;
  match t with
  | Some id => clearTimeout id
  | None => ret tt
  end ;;
  delay <- gets (fun w => wait (closureOf d w)) ;;
  id <- setTimeout delay ;;
  assignTimeout d (Some id).

(** [f.name], where [f] is a function that [debounce] returned.  That
    function is the arrow function of utils.ts: it has the properties of
    every function and none called [debouncedFn] or [cancel], the two
    names the orchestrator reads off it; reading them gives
    [undefined]. *)
Definition property (f : nat) (name : string) : Callable := Undefined.

(** [value()]: calling [undefined] throws a [TypeError]. *)
Definition invoke (name : string) (value : Callable) : M unit :=
  match value with
  | Undefined => throw (TypeError (name ++ " is not a function"))
  | DebouncedFunction d => debouncedFn d
  end.

(** ** SimpleEventEmitter *)

(** [emit]: every listener is called inside its own [try], so nothing
    comes back to the emitter; the call is recorded with the time. *)
Definition emit (event : Z -> LensEvent) : M unit :=
  modify (fun w =>
    mkWorld (lens w) (timers w) (stylesInjected w)
      (emitted w ++ [event (clock (timers w))]) (submitted w)).

Definition sameListener (a b : string * nat) : bool :=
  String.eqb (fst a) (fst b) && Nat.eqb (snd a) (snd b).

(** [on(event, listener)]: the listeners of an event are a set. *)
Definition on (event : string) (listener : nat) : M unit :=
  modify (withLens (fun l =>
    if existsb (sameListener (event, listener)) (listeners l) then l
    else setListeners (listeners l ++ [(event, listener)]) l)).

(** [off(event, listener)] *)
Definition off (event : string) (listener : nat) : M unit :=
  modify (withLens (fun l =>
    setListeners
      (filter (fun entry => negb (sameListener (event, listener) entry)) (listeners l)) l)).

(** [removeAllListeners()], as [dispose] calls it. *)
Definition removeAllListeners : M unit :=
  modify (withLens (setListeners [])).

Section WithHost.
Variable host : Host.

(** ** DecorationManager: the calls into the editor *)

(** [this.editor.deltaDecorations(old, new)], recorded. *)
Definition editor_deltaDecorations (newDecorations : list MonacoDecoration)
  : M (list string) :=
  old <- gets (fun w => decorations (lens w)) ;;
  modify (fun w =>
    mkWorld (lens w) (timers w) (stylesInjected w) (emitted w)
      (submitted w ++ [(old, newDecorations)])) ;;
  call (deltaDecorations host old newDecorations).

Definition manager_updateDecorations (markers : list MonacoMarkerData) : M unit :=
  cfg <- gets (fun w => config (lens w)) ;;
  let batch :=
    DecorationManager.createDecorations (has_window_monaco_Range host) cfg markers in
  ids <- editor_deltaDecorations batch ;;
  modify (withLens (setDecorations ids (List.length batch))).

Definition manager_clearDecorations : M unit :=
  ids <- editor_deltaDecorations [] ;;
  modify (withLens (setDecorations ids 0)).

(** ** MonacoErrorLens *)

Definition isMonacoInitialized : M bool :=
  if has_getModelMarkers host && has_onDidChangeMarkers host then
    model <- call (getModel host) ;;
    ret (match model with Some _ => true | None => false end)
  else ret false.

Definition injectStyles : M unit :=
  if negb (has_document host) then ret tt
  else
    existing <- gets stylesInjected ;;
    if existing then ret tt
    else modify (fun w =>
           mkWorld (lens w) (timers w) true (emitted w) (submitted w)).

Definition pushDisposable (k : ListenerKind) : M unit :=
  modify (withLens (fun l => setDisposables (disposables l ++ [k]) l)).

Definition setupEventListeners : M unit :=
  ready <- isMonacoInitialized ;;
  if negb ready then ret tt
  else
    call (subscribe host MarkerListener) ;;
    pushDisposable MarkerListener ;;
    cfg <- gets (fun w => config (lens w)) ;;
    match followCursor cfg with
    | ActiveLine =>
        call (subscribe host CursorListener) ;;
        pushDisposable CursorListener
    | AllLines => ret tt
    end ;;
    call (subscribe host ModelListener) ;;
    pushDisposable ModelListener.

(** [this.updateDecorations()] *)
Definition scheduleUpdate : M unit :=
  f <- gets (fun w => updateDecorations (lens w)) ;;
  invoke "this.updateDecorations" f.

(** [this.cancelUpdateDecorations()] *)
Definition cancelUpdate : M unit :=
  f <- gets (fun w => cancelUpdateDecorations (lens w)) ;;
  invoke "this.cancelUpdateDecorations" f.

Definition initialize : M unit :=
  cfg <- gets (fun w => config (lens w)) ;;
  if negb (enabled cfg) then ret tt
  else
    injectStyles ;;
    setupEventListeners ;;
    ready <- isMonacoInitialized ;;
    if ready then scheduleUpdate else ret tt.

(** Reading [marker.severity] of a [null] entry throws. *)
Fixpoint markerObjects (markers : list (option MonacoMarkerData))
  : Result (list MonacoMarkerData) :=
  match markers with
  | [] => Ok []
  | None :: _ => Throw (TypeError "Cannot read properties of null")
  | Some m :: rest =>
      match markerObjects rest with
      | Ok ms => Ok (m :: ms)
      | Throw e => Throw e
      end
  end.

(** [filterMarkers] as a method: the severity filter reads every
    entry; the cursor position is asked for in [activeLine] mode
    only, after the sort. *)
Definition filterMarkersOf (markers : list (option MonacoMarkerData))
  : M (list MonacoMarkerData) :=
  objects <- call (markerObjects markers) ;;
  cfg <- gets (fun w => config (lens w)) ;;
  position <- match followCursor cfg with
              | ActiveLine => call (getPosition host)
              | AllLines => ret None
              end ;;
  ret (filterMarkers cfg position objects).

Definition updateDecorationsInternal : M unit :=
  l <- gets lens ;;
  if isDisposed l || negb (enabled (config l)) then ret tt
  else
    model <- call (getModel host) ;;
    match model with
    | None => ret tt
    | Some uri =>
        ready <- isMonacoInitialized ;;
        if negb ready then ret tt
        else
          tryCatch
            (markers <- call (getModelMarkers host uri) ;;
             let markersArray := match markers with Some ms => ms | None => [] end in
             filteredMarkers <- filterMarkersOf markersArray ;;
             manager_updateDecorations filteredMarkers ;;
             count <- gets (fun w => lastDecorationCount (lens w)) ;;
             emit (DecorationsUpdated count (List.length markersArray)))
            (fun error => emit (ErrorReported error "updateDecorationsInternal"))
    end.

Definition clearDecorations : M unit := manager_clearDecorations.

Definition updateOptions (newOptions : ErrorLensOptions) : M unit :=
  oldEnabled <- gets (fun w => enabled (config (lens w))) ;;
  modify (withLens (fun l => setConfig (mergeOptions (config l) newOptions) l)) ;;
  match o_updateDelay newOptions with
  | Some _ =>
      cancelUpdate ;;
      delay <- gets (fun w => updateDelay (config (lens w))) ;;
      f <- debounce delay ;;
      modify (withLens (setDebounced (property f "debouncedFn") (property f "cancel")))
  | None => ret tt
  end ;;
  match o_enabled newOptions with
  | Some nowEnabled =>
      if nowEnabled && negb oldEnabled then
        initialize ;; emit (StatusChanged true)
      else if negb nowEnabled && oldEnabled then
        clearDecorations ;; emit (StatusChanged false)
      else ret tt
  | None => scheduleUpdate
  end ;;
  cfg <- gets (fun w => config (lens w)) ;;
  emit (ConfigUpdated cfg).

Definition enable : M unit :=
  cfg <- gets (fun w => config (lens w)) ;;
  if negb (enabled cfg) then
    modify (withLens (fun l => setConfig (setEnabled true (config l)) l)) ;;
    initialize
  else ret tt.

Definition disable : M unit :=
  cfg <- gets (fun w => config (lens w)) ;;
  if enabled cfg then
    modify (withLens (fun l => setConfig (setEnabled false (config l)) l)) ;;
    clearDecorations
  else ret tt.

Definition toggle : M bool :=
  cfg <- gets (fun w => config (lens w)) ;;
  (if enabled cfg then disable else enable) ;;
  gets (fun w => enabled (config (lens w))).

Definition refresh : M unit := updateDecorationsInternal.

Definition isActive (w : World) : bool :=
  negb (isDisposed (lens w)) && enabled (config (lens w)).

Fixpoint disposeAll (ds : list ListenerKind) : M unit :=
  match ds with
  | [] => ret tt
  | d :: rest => call (disposeListener host d) ;; disposeAll rest
  end.

Definition dispose : M unit :=
  disposed <- gets (fun w => isDisposed (lens w)) ;;
  if disposed then ret tt
  else
    modify (withLens (setIsDisposed true)) ;;
    cancelUpdate ;;
    clearDecorations ;;
    ds <- gets (fun w => disposables (lens w)) ;;
    disposeAll ds ;;
    modify (withLens (setDisposables [])) ;;
    removeAllListeners.

(** The constructor, run on a page at time [now]; a field holds
    [undefined] until it is assigned. *)
Definition emptyWorld (now : Z) (styles : bool) : World :=
  mkWorld (mkLens DEFAULT_OPTIONS [] false Undefined Undefined [] 0 [])
    (mkTimers [] [] 1 now) styles [] [].

Definition construct (options : ErrorLensOptions) : M unit :=
  modify (withLens (setConfig (mergeOptions DEFAULT_OPTIONS options))) ;;
  delay <- gets (fun w => updateDelay (config (lens w))) ;;
  f <- debounce delay ;;
  modify (withLens (setDebounced (property f "debouncedFn") (property f "cancel"))) ;;
  initialize.

(** ** What the host and the clock do to the instance *)

(** The listeners registered by [setupEventListeners], and the
    callback of a timer. *)
Definition onMarkersChanged (forThisModel : bool) : M unit :=
  model <- call (getModel host) ;;
  match model with
  | Some _ => if forThisModel then scheduleUpdate else ret tt
  | None => ret tt
  end.

Definition onCursorPositionChanged : M unit := scheduleUpdate.

Definition onModelChanged : M unit := clearDecorations ;; scheduleUpdate.

Inductive Action : Type :=
| CallEnable
| CallDisable
| CallToggle
| CallRefresh
| CallUpdateOptions (newOptions : ErrorLensOptions)
| CallDispose
| MarkersChanged (forThisModel : bool)
| CursorPositionChanged
| ModelChanged
| TimerFires (id : nat)
| Elapse (dt : Z).

Definition registered (k : ListenerKind) (w : World) : bool :=
  existsb (fun d => match d, k with
                    | MarkerListener, MarkerListener
                    | CursorListener, CursorListener
                    | ModelListener, ModelListener => true
                    | _, _ => false
                    end) (disposables (lens w)).

Definition isDue (id : nat) (w : World) : bool :=
  existsb (fun tm => Nat.eqb (timer_id tm) id && (timer_due tm <=? clock (timers w)))
    (pending (timers w)).

(** One action: the world after it and the timers that fired.  An
    exception goes to whoever called; the world stays as the call left
    it.  A listener runs only while it is registered, a timer fires
    only while it is pending and due. *)
Definition step (a : Action) (w : World) : World * list nat :=
  match a with
  | CallEnable => (fst (enable w), [])
  | CallDisable => (fst (disable w), [])
  | CallToggle => (fst (toggle w), [])
  | CallRefresh => (fst (refresh w), [])
  | CallUpdateOptions newOptions => (fst (updateOptions newOptions w), [])
  | CallDispose => (fst (dispose w), [])
  | MarkersChanged forThisModel =>
      if registered MarkerListener w then (fst (onMarkersChanged forThisModel w), [])
      else (w, [])
  | CursorPositionChanged =>
      if registered CursorListener w then (fst (onCursorPositionChanged w), [])
      else (w, [])
  | ModelChanged =>
      if registered ModelListener w then (fst (onModelChanged w), [])
      else (w, [])
  | TimerFires id =>
      if isDue id w then
        (fst ((clearTimeout id ;; updateDecorationsInternal) w), [id])
      else (w, [])
  | Elapse dt =>
      (withTimers (fun t =>
         mkTimers (debouncers t) (pending t) (nextTimer t) (clock t + Z.max 0 dt)) w,
       [])
  end.
End WithHost.

(** A run: every action with the host as it answers at that moment. *)
Fixpoint run (trace : list (Host * Action)) (w : World) : World * list nat :=
  match trace with
  | [] => (w, [])
  | (host, a) :: rest =>
      let (w1, fired1) := step host a w in
      let (w2, fired2) := run rest w1 in
      (w2, fired1 ++ fired2)
  end.

End MonacoErrorLens.

(* ================================================================== *)
(** * utils.ts: [throttle] *)
(* ================================================================== *)

Module Throttle.
Section WithFunction.
Context {Args : Type}.
(** What a call of [func] gives back, and the [limit] of the closure. *)
Variable func : Args -> Result unit.
Variable limit : Z.

(** The closure made by one call of [throttle(func, limit)]: its
    [inThrottle] variable, the due times of the timers it has started and
    that have not fired, the clock, and a log of the calls of [func]:
    when, with which arguments, and whether the call returned. *)
Record State : Type := mkState {
  inThrottle : bool;
  resets : list Z;
  now : Z;
  invoked : list (Z * Args * bool)
}.

Definition initial (start : Z) : State := mkState false [] start [].

(** The function [throttle] returns.  When [func] throws, the two
    statements after the call are not reached. *)
Definition throttled (args : Args) (s : State) : State * Result unit :=
  if negb (inThrottle s) then
    match func args with
    | Ok _ =>
        (mkState true (resets s ++ [now s + Z.max 0 limit]) (now s)
           (invoked s ++ [(now s, args, true)]),
         Ok tt)
    | Throw e =>
        (mkState (inThrottle s) (resets s) (now s) (invoked s ++ [(now s, args, false)]),
         Throw e)
    end
  else (s, Ok tt).

(** The callback of the [k]-th pending timer: [inThrottle = false].  A
    timer fires only once it is due. *)
Definition timerFires (k : nat) (s : State) : State :=
  match nth_error (resets s) k with
  | Some due =>
      if due <=? now s then
        mkState false (firstn k (resets s) ++ skipn (S k) (resets s)) (now s) (invoked s)
      else s
  | None => s
  end.

Definition elapse (dt : Z) (s : State) : State :=
  mkState (inThrottle s) (resets s) (now s + Z.max 0 dt) (invoked s).

Inductive Event : Type :=
| Call (args : Args)
| TimerFires (k : nat)
| Elapse (dt : Z).

(** An exception of [func] goes to the caller of the throttled
    function; the closure stays as the call left it. *)
Definition step (s : State) (e : Event) : State :=
  match e with
  | Call args => fst (throttled args s)
  | TimerFires k => timerFires k s
  | Elapse dt => elapse dt s
  end.

Definition run (events : list Event) (s : State) : State := fold_left step events s.
End WithFunction.
End Throttle.

(* ================================================================== *)
(** * event-emitter.ts *)
(* ================================================================== *)

Module SimpleEventEmitter.

(** [Map<string, Set<EventListener>>]: the keys in insertion order, every
    set in insertion order.  A listener is a function object, known by
    its identity. *)
Definition Listeners : Type := list (string * list nat).

Fixpoint Map_get (event : string) (m : Listeners) : option (list nat) :=
  match m with
  | [] => None
  | (k, v) :: rest => if String.eqb k event then Some v else Map_get event rest
  end.

Definition Map_has (event : string) (m : Listeners) : bool :=
  match Map_get event m with Some _ => true | None => false end.

(** [Map.prototype.set]: a key that is there keeps its place. *)
Fixpoint Map_set (event : string) (v : list nat) (m : Listeners) : Listeners :=
  match m with
  | [] => [(event, v)]
  | (k, v') :: rest =>
      if String.eqb k event then (k, v) :: rest else (k, v') :: Map_set event v rest
  end.

Fixpoint Map_delete (event : string) (m : Listeners) : Listeners :=
  match m with
  | [] => []
  | (k, v) :: rest =>
      if String.eqb k event then rest else (k, v) :: Map_delete event rest
  end.

Definition Set_has (listener : nat) (s : list nat) : bool := existsb (Nat.eqb listener) s.

Definition Set_add (listener : nat) (s : list nat) : list nat :=
  if Set_has listener s then s else s ++ [listener].

Definition Set_delete (listener : nat) (s : list nat) : list nat :=
  filter (fun l => negb (Nat.eqb listener l)) s.

(** [off(event, listener)]: the set is changed where it is, and the key
    goes when its set is empty. *)
Definition off (event : string) (listener : nat) (m : Listeners) : Listeners :=
  match Map_get event m with
  | Some eventListeners =>
      let remaining := Set_delete listener eventListeners in
      let m' := Map_set event remaining m in
      if (List.length remaining =? 0)%nat then Map_delete event m' else m'
  | None => m
  end.

(** [on(event, listener)]: the new map and the unsubscribe function it
    returns. *)
Definition on (event : string) (listener : nat) (m : Listeners)
  : Listeners * (Listeners -> Listeners) :=
  let m1 := if Map_has event m then m else Map_set event [] m in
  let m2 :=
    match Map_get event m1 with
    | Some eventListeners => Map_set event (Set_add listener eventListeners) m1
    | None => m1
    end in
  (m2, off event listener).

(** [removeAllListeners(event?)]: [if (event)] fails for the empty
    name as it does for a missing argument. *)
Definition removeAllListeners (event : option string) (m : Listeners) : Listeners :=
  match event with
  | None | Some EmptyString => []
  | Some name => Map_delete name m
  end.

Section Emit.
Context {Data : Type}.
(** What the listener [l] does when it is called with [data]: it may
    subscribe and unsubscribe listeners, and it may throw. *)
Variable body : nat -> option Data -> Listeners -> Listeners * Result unit.

(** The emitter, and a log of the calls of listeners. *)
Record Emitter : Type := mkEmitter {
  listeners : Listeners;
  called : list (nat * option Data)
}.

Definition callListener (data : option Data) (l : nat) (e : Emitter)
  : Emitter * Result unit :=
  let (m, r) := body l data (listeners e) in
  (mkEmitter m (called e ++ [(l, data)]), r).

(** [try { listener(data); } catch { }] *)
Definition guarded (data : option Data) (l : nat) (e : Emitter)
  : Emitter * Result unit :=
  match callListener data l e with
  | (e', Ok _) => (e', Ok tt)
  | (e', Throw _) => (e', Ok tt)
  end.

(** [array.forEach(f)]: an exception of [f] ends the loop. *)
Fixpoint forEach (f : nat -> Emitter -> Emitter * Result unit) (array : list nat)
    (e : Emitter) : Emitter * Result unit :=
  match array with
  | [] => (e, Ok tt)
  | l :: rest =>
      match f l e with
      | (e', Ok _) => forEach f rest e'
      | (e', Throw err) => (e', Throw err)
      end
  end.

(** [emit(event, data)]: the loop runs over [Array.from(eventListeners)],
    a copy made before the first call. *)
Definition emit (event : string) (data : option Data) (e : Emitter)
  : Emitter * Result unit :=
  match Map_get event (listeners e) with
  | Some eventListeners => forEach (guarded data) eventListeners e
  | None => (e, Ok tt)
  end.
End Emit.

End SimpleEventEmitter.

(* ================================================================== *)
(** * monaco-error-lens.ts: the factory functions *)
(* ================================================================== *)

Definition orOption {A : Type} (a b : option A) : option A :=
  match a with Some _ => a | None => b end.

(** [{ ...presets, ...options }] *)
Definition spreadOptions (presets options : ErrorLensOptions) : ErrorLensOptions := {|
  o_enableInlineMessages :=
    orOption (o_enableInlineMessages options) (o_enableInlineMessages presets);
  o_enableLineHighlights :=
    orOption (o_enableLineHighlights options) (o_enableLineHighlights presets);
  o_enableGutterIcons := orOption (o_enableGutterIcons options) (o_enableGutterIcons presets);
  o_messageTemplate := orOption (o_messageTemplate options) (o_messageTemplate presets);
  o_followCursor := orOption (o_followCursor options) (o_followCursor presets);
  o_maxMessageLength := orOption (o_maxMessageLength options) (o_maxMessageLength presets);
  o_maxMarkersPerLine := orOption (o_maxMarkersPerLine options) (o_maxMarkersPerLine presets);
  o_severityFilter := orOption (o_severityFilter options) (o_severityFilter presets);
  o_colors := orOption (o_colors options) (o_colors presets);
  o_updateDelay := orOption (o_updateDelay options) (o_updateDelay presets);
  o_enabled := orOption (o_enabled options) (o_enabled presets)
|}.

Definition createErrorLens (host : Host) (options : ErrorLensOptions)
  : MonacoErrorLens.M unit :=
  MonacoErrorLens.construct host options.

Definition setupPresets : ErrorLensOptions :=
  mkErrorLensOptions (Some true) (Some true) (Some true) None (Some AllLines)
    None None None None None None.

Definition setupErrorLens (host : Host) (options : ErrorLensOptions)
  : MonacoErrorLens.M unit :=
  MonacoErrorLens.construct host (spreadOptions setupPresets options).

Definition minimalPresets : ErrorLensOptions :=
  mkErrorLensOptions (Some true) (Some false) (Some false) None (Some ActiveLine)
    None (Some 1) None None None None.

Definition createMinimalErrorLens (host : Host) (options : ErrorLensOptions)
  : MonacoErrorLens.M unit :=
  MonacoErrorLens.construct host (spreadOptions minimalPresets options).

(* ================================================================== *)
(** * Properties *)
(* ================================================================== *)

(** ** Sample data *)

Definition marker_at (line sev : Z) (msg : string) : MonacoMarkerData :=
  mkMarker line 1 line 10 msg sev None None.

Definition sample_markers : list MonacoMarkerData :=
  [ marker_at 2 4 "Warning on line 2";
    marker_at 1 2 "Info on line 1";
    marker_at 1 8 "Error on line 1";
    marker_at 3 1 "Hint on line 3";
    marker_at 1 8 "Second error on line 1" ].

(** The test of [tests/utils.test.ts] for [sortMarkers]. *)
Example sortMarkers_test :
  map (fun m => (startLineNumber m, severity m))
    (sortMarkers [marker_at 2 4 "w"; marker_at 1 8 "e"; marker_at 1 2 "i"])
  = [(1, 8); (1, 2); (2, 4)].
Proof. reflexivity. Qed.

Example sortMarkers_sample :
  map message (sortMarkers sample_markers)
  = ["Error on line 1"; "Second error on line 1"; "Info on line 1";
     "Warning on line 2"; "Hint on line 3"]%string.
Proof. reflexivity. Qed.

Example groupMarkersByLine_sample :
  map (fun e => (fst e, map message (snd e))) (groupMarkersByLine sample_markers)
  = [(2, ["Warning on line 2"]);
     (1, ["Info on line 1"; "Error on line 1"; "Second error on line 1"]);
     (3, ["Hint on line 3"])]%string.
Proof. reflexivity. Qed.

Example formatMessage_test_template :
  formatMessage (mkMarker 1 1 1 10 "Test error message" 8 (Some "typescript"%string)
                   (Some (CodeString "TS2304")))
    "[{source}] {message} ({code})" None
  = "[typescript] Test error message (TS2304)"%string.
Proof. reflexivity. Qed.

Example formatMessage_test_truncate :
  formatMessage (marker_at 1 8 "This is a very long error message that should be truncated")
    "{message}" (Some 20)
  = "This is a very lo..."%string.
Proof. reflexivity. Qed.

Example formatMessage_dollar :
  formatMessage (marker_at 1 8 "cost $$5 $& end") "<{message}>" None
  = "<cost $5 {message} end>"%string.
Proof. reflexivity. Qed.

(** ** [Array.prototype.sort] with a consistent comparator *)

Section SortFacts.
Context {A : Type} (cmp : A -> A -> Z).

Definition cmp_le (x y : A) : Prop := cmp x y <= 0.

Hypothesis cmp_total : forall x y, 0 < cmp x y -> cmp y x <= 0.
Hypothesis cmp_trans : forall x y z, cmp x y <= 0 -> cmp y z <= 0 -> cmp x z <= 0.

Lemma insert_perm (x : A) (l : list A) : Permutation (x :: l) (Js.insert cmp x l).
Proof.
  induction l as [|y l IH]; simpl.
  - apply Permutation_refl.
  - destruct (cmp x y <=? 0).
    + apply Permutation_refl.
    + eapply perm_trans; [apply perm_swap|]. now apply perm_skip.
Qed.

Lemma sort_perm (l : list A) : Permutation l (Js.sort cmp l).
Proof.
  induction l as [|x l IH]; simpl.
  - constructor.
  - eapply perm_trans; [apply perm_skip, IH|]. apply insert_perm.
Qed.

Lemma insert_sorted (x : A) (l : list A) :
  StronglySorted cmp_le l -> StronglySorted cmp_le (Js.insert cmp x l).
Proof.
  induction 1 as [|y l Hs IH Hall]; simpl.
  - repeat constructor.
  - destruct (Z.leb_spec (cmp x y) 0) as [Hle|Hgt].
    + constructor.
      * now constructor.
      * constructor; [exact Hle|].
        eapply Forall_impl; [|exact Hall].
        intros z Hz. exact (cmp_trans _ _ _ Hle Hz).
    + constructor; [exact IH|].
      eapply Permutation_Forall; [apply insert_perm|].
      constructor; [now apply cmp_total | exact Hall].
Qed.

Lemma sort_sorted (l : list A) : StronglySorted cmp_le (Js.sort cmp l).
Proof.
  induction l as [|x l IH]; simpl.
  - constructor.
  - now apply insert_sorted.
Qed.

(** Stability, for a class [p] of elements that compare equal. *)
Section Stable.
Variable p : A -> bool.
Hypothesis p_ties : forall a b, p a = true -> p b = true -> cmp a b <= 0.

Lemma insert_stable (x : A) (l : list A) :
  filter p (Js.insert cmp x l) = filter p (x :: l).
Proof.
  induction l as [|y l IH]; [reflexivity|].
  simpl. destruct (Z.leb_spec (cmp x y) 0) as [Hle|Hgt]; [reflexivity|].
  simpl. rewrite IH. simpl.
  destruct (p x) eqn:Hx, (p y) eqn:Hy; try reflexivity.
  specialize (p_ties x y Hx Hy). lia.
Qed.

Lemma sort_stable (l : list A) : filter p (Js.sort cmp l) = filter p l.
Proof.
  induction l as [|x l IH]; [reflexivity|].
  simpl Js.sort. rewrite insert_stable. simpl. now rewrite IH.
Qed.
End Stable.
End SortFacts.

(** ** [sortMarkers] *)

(** [a] may stand before [b]: its line is not greater and, on the same
    line, its severity is not smaller. *)
Definition marker_le (a b : MonacoMarkerData) : Prop :=
  startLineNumber a <= startLineNumber b /\
  (startLineNumber a = startLineNumber b -> severity b <= severity a).

(** The markers with a given (line, severity) pair. *)
Definition sameKey (line sev : Z) (m : MonacoMarkerData) : bool :=
  (startLineNumber m =? line) && (severity m =? sev).

Lemma compareMarkers_le (a b : MonacoMarkerData) :
  compareMarkers a b <= 0 <-> marker_le a b.
Proof.
  unfold compareMarkers, marker_le.
  destruct (Z.eqb_spec (startLineNumber a) (startLineNumber b)); simpl; lia.
Qed.

Lemma compareMarkers_total (a b : MonacoMarkerData) :
  0 < compareMarkers a b -> compareMarkers b a <= 0.
Proof.
  unfold compareMarkers.
  destruct (Z.eqb_spec (startLineNumber a) (startLineNumber b));
    destruct (Z.eqb_spec (startLineNumber b) (startLineNumber a)); simpl; lia.
Qed.

Lemma compareMarkers_trans (a b c : MonacoMarkerData) :
  compareMarkers a b <= 0 -> compareMarkers b c <= 0 -> compareMarkers a c <= 0.
Proof.
  rewrite !compareMarkers_le. unfold marker_le. lia.
Qed.

Lemma sortMarkers_sorted (markers : list MonacoMarkerData) :
  StronglySorted marker_le (sortMarkers markers).
Proof.
  pose proof (sort_sorted compareMarkers compareMarkers_total compareMarkers_trans markers)
    as Hs.
  unfold sortMarkers. induction Hs as [|x l Hs IH Hall]; constructor; auto.
  eapply Forall_impl; [|exact Hall]. intros y. apply compareMarkers_le.
Qed.

Lemma sortMarkers_perm (markers : list MonacoMarkerData) :
  Permutation markers (sortMarkers markers).
Proof. apply sort_perm. Qed.

Lemma sortMarkers_sameKey (line sev : Z) (markers : list MonacoMarkerData) :
  filter (sameKey line sev) (sortMarkers markers) = filter (sameKey line sev) markers.
Proof.
  apply sort_stable. intros a b Ha Hb. unfold sameKey in *.
  apply andb_true_iff in Ha, Hb. destruct Ha as [Ha1 Ha2], Hb as [Hb1 Hb2].
  apply Z.eqb_eq in Ha1, Ha2, Hb1, Hb2. apply compareMarkers_le. unfold marker_le. lia.
Qed.

(** C4. [sortMarkers] returns a permutation of its input in which line
    numbers never decrease and, among markers of one line, severities never
    increase; markers with the same line and severity keep the order they
    had in the input. *)
Theorem sortMarkers_sorted_stable_permutation (markers : list MonacoMarkerData) :
  Permutation markers (sortMarkers markers) /\
  StronglySorted marker_le (sortMarkers markers) /\
  (forall line sev,
      filter (sameKey line sev) (sortMarkers markers)
      = filter (sameKey line sev) markers).
Proof.
  split; [apply sortMarkers_perm|].
  split; [apply sortMarkers_sorted|].
  intros line sev. apply sortMarkers_sameKey.
Qed.

(** ** [groupMarkersByLine] *)

(** The keys of the map in insertion order: the distinct start lines, in
    the order in which they first occur. *)
Definition addLine (line : Z) (seen : list Z) : list Z :=
  if Js.includes seen line then seen else seen ++ [line].

Definition linesOf (markers : list MonacoMarkerData) : list Z :=
  fold_left (fun seen marker => addLine (startLineNumber marker) seen) markers [].

Definition groupOf (markers : list MonacoMarkerData) (line : Z)
  : Z * list MonacoMarkerData :=
  (line, filter (onLine line) markers).

Lemma includes_In (l : list Z) (x : Z) : Js.includes l x = true <-> In x l.
Proof.
  unfold Js.includes. rewrite existsb_exists. split.
  - intros [y [Hy Heq]]. apply Z.eqb_eq in Heq. now subst.
  - intros H. exists x. split; [exact H | apply Z.eqb_refl].
Qed.

Lemma includes_false (l : list Z) (x : Z) : Js.includes l x = false <-> ~ In x l.
Proof.
  rewrite <- includes_In. destruct (Js.includes l x); split; congruence.
Qed.

Lemma linesOf_snoc (markers : list MonacoMarkerData) (m : MonacoMarkerData) :
  linesOf (markers ++ [m]) = addLine (startLineNumber m) (linesOf markers).
Proof. unfold linesOf. now rewrite fold_left_app. Qed.

Lemma groupMarkersByLine_snoc (markers : list MonacoMarkerData) (m : MonacoMarkerData) :
  groupMarkersByLine (markers ++ [m])
  = pushOnLine (startLineNumber m) m (groupMarkersByLine markers).
Proof. unfold groupMarkersByLine. now rewrite fold_left_app. Qed.

Lemma linesOf_In (markers : list MonacoMarkerData) (line : Z) :
  In line (linesOf markers) <-> exists m, In m markers /\ startLineNumber m = line.
Proof.
  induction markers as [|m markers IH] using rev_ind.
  - simpl. split; [tauto | intros [m [[] _]]].
  - rewrite linesOf_snoc. unfold addLine.
    destruct (Js.includes (linesOf markers) (startLineNumber m)) eqn:Hin.
    + apply includes_In in Hin. split.
      * intros Hl. apply IH in Hl. destruct Hl as [x [Hx Hl]].
        exists x. split; [apply in_or_app; now left | exact Hl].
      * intros [x [Hx Hl]]. apply in_app_or in Hx. destruct Hx as [Hx|[Hx|[]]].
        -- apply IH. now exists x.
        -- subst x. now rewrite <- Hl.
    + rewrite in_app_iff, IH. simpl. split.
      * intros [[x [Hx Hl]]|[Hl|[]]].
        -- exists x. split; [apply in_or_app; now left | exact Hl].
        -- exists m. split; [apply in_or_app; right; now left | exact Hl].
      * intros [x [Hx Hl]]. apply in_app_or in Hx. destruct Hx as [Hx|[Hx|[]]].
        -- left. now exists x.
        -- subst x. right. now left.
Qed.

Lemma linesOf_NoDup (markers : list MonacoMarkerData) : NoDup (linesOf markers).
Proof.
  induction markers as [|m markers IH] using rev_ind.
  - constructor.
  - rewrite linesOf_snoc. unfold addLine.
    destruct (Js.includes (linesOf markers) (startLineNumber m)) eqn:Hin; [exact IH|].
    apply includes_false in Hin.
    apply NoDup_rev in IH. rewrite <- (rev_involutive (_ ++ _)).
    apply NoDup_rev. rewrite rev_app_distr. simpl. constructor; [|exact IH].
    now rewrite <- in_rev.
Qed.

Lemma filter_onLine_nil (markers : list MonacoMarkerData) (line : Z) :
  ~ In line (linesOf markers) -> filter (onLine line) markers = [].
Proof.
  intros Hnot. destruct (filter (onLine line) markers) as [|m rest] eqn:Hf; [reflexivity|].
  exfalso. apply Hnot. apply linesOf_In. exists m.
  assert (Hin : In m (filter (onLine line) markers)) by (rewrite Hf; now left).
  apply filter_In in Hin. destruct Hin as [Hin Hon]. split; [exact Hin|].
  now apply Z.eqb_eq in Hon.
Qed.

Lemma pushOnLine_fresh (line : Z) (m : MonacoMarkerData)
    (f : Z -> list MonacoMarkerData) (keys : list Z) :
  ~ In line keys ->
  pushOnLine line m (map (fun k => (k, f k)) keys)
  = map (fun k => (k, f k)) keys ++ [(line, [m])].
Proof.
  induction keys as [|k keys IH]; intros Hnot; [reflexivity|].
  simpl. destruct (Z.eqb_spec k line) as [->|Hne].
  - exfalso. apply Hnot. now left.
  - rewrite IH; [reflexivity|]. intros Hin. apply Hnot. now right.
Qed.

Lemma pushOnLine_present (line : Z) (m : MonacoMarkerData)
    (f : Z -> list MonacoMarkerData) (keys : list Z) :
  In line keys -> NoDup keys ->
  pushOnLine line m (map (fun k => (k, f k)) keys)
  = map (fun k => (k, f k ++ (if k =? line then [m] else []))) keys.
Proof.
  induction keys as [|k keys IH]; intros Hin Hnd; [destruct Hin|].
  inversion Hnd as [|? ? Hk Hnd']; subst.
  simpl. destruct (Z.eqb_spec k line) as [->|Hne].
  - f_equal. apply map_ext_in. intros k Hk'.
    destruct (Z.eqb_spec k line) as [->|_]; [contradiction|]. now rewrite app_nil_r.
  - rewrite app_nil_r. f_equal. apply IH; [|exact Hnd'].
    destruct Hin as [Heq|Hin]; [contradiction | exact Hin].
Qed.

(** The map built by the loop of [groupMarkersByLine]: one entry per
    distinct line, holding the markers of that line in their order. *)
Lemma groupMarkersByLine_groups (markers : list MonacoMarkerData) :
  groupMarkersByLine markers = map (groupOf markers) (linesOf markers).
Proof.
  induction markers as [|m markers IH] using rev_ind; [reflexivity|].
  rewrite groupMarkersByLine_snoc, linesOf_snoc, IH. unfold addLine, groupOf.
  destruct (Js.includes (linesOf markers) (startLineNumber m)) eqn:Hin.
  - apply includes_In in Hin.
    rewrite (pushOnLine_present _ _ (fun k => filter (onLine k) markers));
      [|exact Hin | apply linesOf_NoDup].
    apply map_ext. intros k. rewrite filter_app. simpl. unfold onLine at 3.
    now rewrite (Z.eqb_sym k).
  - apply includes_false in Hin.
    rewrite (pushOnLine_fresh _ _ (fun k => filter (onLine k) markers)); [|exact Hin].
    rewrite map_app. simpl. f_equal.
    + apply map_ext_in. intros k Hk. rewrite filter_app. simpl. unfold onLine at 3.
      destruct (Z.eqb_spec (startLineNumber m) k) as [Heq|_];
        [subst k; contradiction | now rewrite app_nil_r].
    + rewrite filter_app, (filter_onLine_nil _ _ Hin). simpl. unfold onLine.
      now rewrite Z.eqb_refl.
Qed.

(** ** The per-line cap *)

Lemma slice_prefix {A : Type} (l : list A) (n : Z) :
  0 <= n -> Js.slice l 0 n = firstn (Z.to_nat n) l.
Proof.
  intros Hn. unfold Js.slice, Js.rel_index.
  destruct (Z.ltb_spec 0 0) as [?|_]; [lia|].
  destruct (Z.ltb_spec n 0) as [?|_]; [lia|].
  replace (Z.to_nat (Z.min 0 (Z.of_nat (List.length l)))) with O by lia.
  simpl skipn.
  destruct (Z.le_ge_cases n (Z.of_nat (List.length l))) as [Hle|Hge].
  - f_equal. lia.
  - rewrite !firstn_all2; [reflexivity | lia | lia].
Qed.

Lemma In_firstn {A : Type} (n : nat) (l : list A) (x : A) :
  In x (firstn n l) -> In x l.
Proof.
  intros H. rewrite <- (firstn_skipn n l). apply in_or_app. now left.
Qed.

Lemma StronglySorted_filter {A : Type} (R : A -> A -> Prop) (p : A -> bool) (l : list A) :
  StronglySorted R l -> StronglySorted R (filter p l).
Proof.
  induction 1 as [|x l Hs IH Hall]; simpl; [constructor|].
  destruct (p x); [|exact IH].
  constructor; [exact IH|].
  apply Forall_forall. intros y Hy. apply filter_In in Hy.
  rewrite Forall_forall in Hall. now apply Hall.
Qed.

Lemma StronglySorted_app_cross {A : Type} (R : A -> A -> Prop) (l1 l2 : list A) :
  StronglySorted R (l1 ++ l2) -> forall a b, In a l1 -> In b l2 -> R a b.
Proof.
  induction l1 as [|x l1 IH]; intros Hs a b Ha Hb; [destruct Ha|].
  simpl in Hs. inversion Hs as [|? ? Hs' Hall]; subst.
  destruct Ha as [->|Ha].
  - rewrite Forall_forall in Hall. apply Hall. apply in_or_app. now right.
  - now apply IH.
Qed.

Lemma filter_onLine_flat_map (line : Z) (g : Z -> list MonacoMarkerData) (keys : list Z) :
  NoDup keys ->
  (forall k m, In m (g k) -> startLineNumber m = k) ->
  filter (onLine line) (flat_map g keys) = if Js.includes keys line then g line else [].
Proof.
  intros Hnd Hg. induction Hnd as [|k keys Hk Hnd IH]; [reflexivity|].
  simpl flat_map. rewrite filter_app, IH.
  unfold Js.includes. simpl. fold (Js.includes keys line).
  destruct (Z.eqb_spec line k) as [->|Hne]; simpl.
  - destruct (Js.includes keys k) eqn:Hin; [apply includes_In in Hin; contradiction|].
    rewrite app_nil_r. apply forallb_filter_id. apply forallb_forall.
    intros m Hm. unfold onLine. apply Z.eqb_eq. now apply Hg.
  - replace (filter (onLine line) (g k)) with (@nil MonacoMarkerData); [reflexivity|].
    symmetry. destruct (filter (onLine line) (g k)) as [|m rest] eqn:Hf; [reflexivity|].
    assert (Hin : In m (filter (onLine line) (g k))) by (rewrite Hf; now left).
    apply filter_In in Hin. destruct Hin as [Hin Hon]. apply Z.eqb_eq in Hon.
    apply Hg in Hin. congruence.
Qed.

(** What the cap keeps of each line: the first [n] markers of the line. *)
Lemma limitMarkersPerLine_line (config : ErrorLensConfig)
    (filtered : list MonacoMarkerData) (line : Z) :
  0 < maxMarkersPerLine config ->
  filter (onLine line) (limitMarkersPerLine config filtered)
  = firstn (Z.to_nat (maxMarkersPerLine config)) (filter (onLine line) filtered).
Proof.
  intros Hpos. unfold limitMarkersPerLine.
  destruct (Z.gtb_spec (maxMarkersPerLine config) 0) as [_|?]; [|lia].
  rewrite groupMarkersByLine_groups, flat_map_concat_map, map_map, <- flat_map_concat_map.
  simpl.
  rewrite (filter_onLine_flat_map line
             (fun k => Js.slice (filter (onLine k) filtered) 0 (maxMarkersPerLine config))).
  - rewrite slice_prefix by lia.
    destruct (Js.includes (linesOf filtered) line) eqn:Hin; [reflexivity|].
    apply includes_false in Hin. now rewrite (filter_onLine_nil _ _ Hin), firstn_nil.
  - apply linesOf_NoDup.
  - intros k m Hm. rewrite slice_prefix in Hm by lia.
    apply In_firstn, filter_In in Hm. destruct Hm as [_ Hon]. now apply Z.eqb_eq in Hon.
Qed.

Lemma applyCursorFilter_sorted (config : ErrorLensConfig) (position : option Position)
    (filtered : list MonacoMarkerData) :
  StronglySorted marker_le filtered ->
  StronglySorted marker_le (applyCursorFilter config position filtered).
Proof.
  intros Hs. unfold applyCursorFilter.
  destruct (followCursor config); [exact Hs|].
  destruct (currentLineOf position) as [currentLine|]; [|exact Hs].
  destruct (Js.truthy currentLine); [|exact Hs].
  now apply StronglySorted_filter.
Qed.

(** The markers that reach the per-line cap: steps 1 to 3 of the pass. *)
Definition capCandidates (config : ErrorLensConfig) (position : option Position)
    (markers : list MonacoMarkerData) : list MonacoMarkerData :=
  applyCursorFilter config position (sortMarkers (filterBySeverity config markers)).

(** C3. With a positive per-line cap [N], the markers that the filtering
    pass retains on a line are at most [N]; they are the first [N] markers
    of that line in the severity-sorted order of the sorting step, in that
    order, and no marker dropped from the line is more severe than a
    marker kept on it. *)
Theorem filterMarkers_per_line_cap (config : ErrorLensConfig)
    (position : option Position) (markers : list MonacoMarkerData) (line : Z) :
  0 < maxMarkersPerLine config ->
  let n := Z.to_nat (maxMarkersPerLine config) in
  let onThisLine := filter (onLine line) (capCandidates config position markers) in
  let kept := filter (onLine line) (filterMarkers config position markers) in
  (List.length kept <= n)%nat /\
  kept = firstn n onThisLine /\
  StronglySorted (fun a b => severity b <= severity a) onThisLine /\
  (forall k d, In k kept -> In d (skipn n onThisLine) -> severity d <= severity k).
Proof.
  intros Hpos n onThisLine kept.
  assert (Hkept : kept = firstn n onThisLine).
  { unfold kept, filterMarkers. now rewrite limitMarkersPerLine_line. }
  assert (Hsorted : StronglySorted marker_le onThisLine).
  { unfold onThisLine, capCandidates.
    apply StronglySorted_filter, applyCursorFilter_sorted, sortMarkers_sorted. }
  assert (Hsame : Forall (fun m => startLineNumber m = line) onThisLine).
  { apply Forall_forall. intros m Hm. apply filter_In in Hm.
    destruct Hm as [_ Hon]. now apply Z.eqb_eq in Hon. }
  assert (Hsev : StronglySorted (fun a b => severity b <= severity a) onThisLine).
  { clear Hkept. induction Hsorted as [|x l Hs IH Hall]; constructor.
    - apply IH. now inversion Hsame.
    - inversion Hsame as [|? ? Hx Hl]; subst.
      rewrite Forall_forall in *. intros y Hy.
      destruct (Hall y Hy) as [_ Hle]. apply Hle. symmetry. now apply Hl. }
  repeat split.
  - rewrite Hkept. apply firstn_le_length.
  - exact Hkept.
  - exact Hsev.
  - intros k d Hk Hd. rewrite Hkept in Hk.
    rewrite <- (firstn_skipn n onThisLine) in Hsev.
    exact (StronglySorted_app_cross _ _ _ Hsev k d Hk Hd).
Qed.

Definition capOneConfig : ErrorLensConfig :=
  mergeOptions DEFAULT_OPTIONS
    (mkErrorLensOptions None None None None None None (Some 1) None None None None).

Lemma filterMarkers_per_line_cap_witness :
  0 < maxMarkersPerLine capOneConfig /\
  filter (onLine 1) (filterMarkers capOneConfig None sample_markers)
  = firstn 1 (filter (onLine 1) (capCandidates capOneConfig None sample_markers)).
Proof.
  split; [reflexivity|].
  apply (filterMarkers_per_line_cap capOneConfig None sample_markers 1).
  reflexivity.
Defined.

Example filterMarkers_cap_one :
  map message (filterMarkers capOneConfig None sample_markers)
  = ["Error on line 1"; "Warning on line 2"; "Hint on line 3"]%string.
Proof. reflexivity. Qed.

(** ** The cursor filter *)

Lemma limitMarkersPerLine_incl (config : ErrorLensConfig)
    (filtered : list MonacoMarkerData) (m : MonacoMarkerData) :
  In m (limitMarkersPerLine config filtered) -> In m filtered.
Proof.
  unfold limitMarkersPerLine.
  destruct (Z.gtb_spec (maxMarkersPerLine config) 0) as [Hpos|_]; [|tauto].
  rewrite groupMarkersByLine_groups. intros Hin.
  apply in_flat_map in Hin. destruct Hin as [entry [Hentry Hm]].
  apply in_map_iff in Hentry. destruct Hentry as [k [<- _]].
  simpl in Hm. rewrite slice_prefix in Hm by lia.
  apply In_firstn, filter_In in Hm. tauto.
Qed.

(** On markers of a single line the cap is a prefix. *)
Lemma limitMarkersPerLine_single_line (config : ErrorLensConfig)
    (line : Z) (filtered : list MonacoMarkerData) :
  0 < maxMarkersPerLine config ->
  limitMarkersPerLine config (filter (onLine line) filtered)
  = firstn (Z.to_nat (maxMarkersPerLine config)) (filter (onLine line) filtered).
Proof.
  intros Hpos. set (onCursor := filter (onLine line) filtered).
  assert (Hsame : filter (onLine line) (limitMarkersPerLine config onCursor)
                  = limitMarkersPerLine config onCursor).
  { apply forallb_filter_id, forallb_forall. intros m Hm.
    apply limitMarkersPerLine_incl, filter_In in Hm. tauto. }
  rewrite <- Hsame, limitMarkersPerLine_line by exact Hpos.
  f_equal. apply forallb_filter_id, forallb_filter.
Qed.

Definition activeLineConfig : ErrorLensConfig :=
  mergeOptions DEFAULT_OPTIONS
    (mkErrorLensOptions None None None None (Some ActiveLine) None None None None None None).

(** C1, as stated, fails: in [activeLine] mode without a cursor position
    the pass keeps the markers instead of dropping them. *)
Lemma filterMarkers_activeLine_no_position_keeps_markers :
  followCursor activeLineConfig = ActiveLine /\
  filterMarkers activeLineConfig None [marker_at 1 8 "A"; marker_at 3 4 "B"]
  = [marker_at 1 8 "A"; marker_at 3 4 "B"] /\
  filterMarkers activeLineConfig None [marker_at 1 8 "A"; marker_at 3 4 "B"] <> [].
Proof. repeat split; discriminate. Qed.

(** What the pass keeps in [activeLine] mode.  Without a cursor
    position the cursor filter is skipped, so the pass keeps what the
    severity filter, the sort and the per-line cap leave.  With a cursor
    position whose line number is not zero, it keeps the markers of allowed
    severity that start on the cursor line, in sorted order, cut to the
    per-line cap when that is positive; in particular every marker it keeps
    starts on the cursor line. *)
Lemma filterMarkers_activeLine_kept (config : ErrorLensConfig)
    (position : option Position) (markers : list MonacoMarkerData) :
  followCursor config = ActiveLine ->
  let sorted := sortMarkers (filterBySeverity config markers) in
  match position with
  | None => filterMarkers config None markers = limitMarkersPerLine config sorted
  | Some p =>
      lineNumber p <> 0 ->
      let onCursor := filter (onLine (lineNumber p)) sorted in
      filterMarkers config (Some p) markers
      = (if maxMarkersPerLine config >? 0
         then firstn (Z.to_nat (maxMarkersPerLine config)) onCursor
         else onCursor) /\
      (forall m, In m (filterMarkers config (Some p) markers) ->
                 startLineNumber m = lineNumber p) /\
      (maxMarkersPerLine config <= 0 ->
       forall m, In m (filterMarkers config (Some p) markers) <->
                 In m markers /\
                 Js.includes (severityFilter config) (severity m) = true /\
                 startLineNumber m = lineNumber p)
  end.
Proof.
  intros Hmode sorted. destruct position as [p|].
  - intros Hline onCursor.
    assert (Hcursor : applyCursorFilter config (Some p) sorted = onCursor).
    { unfold applyCursorFilter. rewrite Hmode. simpl. unfold Js.truthy.
      destruct (Z.eqb_spec (lineNumber p) 0); [contradiction | reflexivity]. }
    assert (Hall : filterMarkers config (Some p) markers
                   = (if maxMarkersPerLine config >? 0
                      then firstn (Z.to_nat (maxMarkersPerLine config)) onCursor
                      else onCursor)).
    { unfold filterMarkers. fold sorted. rewrite Hcursor.
      destruct (Z.gtb_spec (maxMarkersPerLine config) 0) as [Hpos|Hle].
      - apply limitMarkersPerLine_single_line. lia.
      - unfold limitMarkersPerLine.
        destruct (Z.gtb_spec (maxMarkersPerLine config) 0); [lia | reflexivity]. }
    split; [exact Hall|]. split.
    + intros m Hm. rewrite Hall in Hm.
      assert (Hin : In m onCursor).
      { destruct (maxMarkersPerLine config >? 0); [now apply In_firstn in Hm | exact Hm]. }
      apply filter_In in Hin. destruct Hin as [_ Hon]. now apply Z.eqb_eq in Hon.
    + intros Hcap m. rewrite Hall.
      destruct (Z.gtb_spec (maxMarkersPerLine config) 0); [lia|].
      unfold onCursor, sorted, filterBySeverity. rewrite filter_In.
      unfold onLine. rewrite Z.eqb_eq. split.
      * intros [Hin Hon].
        apply (Permutation_in _ (Permutation_sym (sortMarkers_perm _))) in Hin.
        apply filter_In in Hin. tauto.
      * intros [Hin [Hsev Hon]]. split; [|exact Hon].
        apply (Permutation_in _ (sortMarkers_perm _)). apply filter_In. tauto.
  - unfold filterMarkers, applyCursorFilter. now rewrite Hmode.
Qed.

(** The scenario of the specification: cursor on line 3, markers on lines
    1 and 3. *)
Example filterMarkers_activeLine_scenario :
  filterMarkers activeLineConfig (Some (mkPosition 3 1))
    [marker_at 1 8 "A"; marker_at 3 4 "B"]
  = [marker_at 3 4 "B"].
Proof. reflexivity. Qed.

(** ** Decoration construction *)

(** [top] is a marker of highest severity among those starting on [line]. *)
Definition topOfLine (markers : list MonacoMarkerData) (line : Z)
    (top : MonacoMarkerData) : Prop :=
  In top markers /\ startLineNumber top = line /\
  (forall m, In m markers -> startLineNumber m = line -> severity m <= severity top).

(** [d] is the decoration of [line]: it spans that line, and every class
    name it carries is the one of the line's highest severity. *)
Definition decoratesLine (config : ErrorLensConfig) (markers : list MonacoMarkerData)
    (line : Z) (d : MonacoDecoration) : Prop :=
  range d = mkRange line 1 line 1 /\
  exists top,
    topOfLine markers line top /\
    className (options d)
    = (if enableLineHighlights config
       then Some (DecorationManager.classPair CSS_CLASSES.LINE (getSeverityClass (severity top)))
       else None) /\
    option_map inlineClassName (after (options d))
    = (if enableInlineMessages config
       then Some (DecorationManager.classPair CSS_CLASSES.MESSAGE (getSeverityClass (severity top)))
       else None) /\
    glyphMarginClassName (options d)
    = (if enableGutterIcons config
       then Some (DecorationManager.classPair CSS_CLASSES.GUTTER (getSeverityClass (severity top)))
       else None).

Lemma bySeverityDesc_total (a b : MonacoMarkerData) :
  0 < DecorationManager.bySeverityDesc a b -> DecorationManager.bySeverityDesc b a <= 0.
Proof. unfold DecorationManager.bySeverityDesc. lia. Qed.

Lemma bySeverityDesc_trans (a b c : MonacoMarkerData) :
  DecorationManager.bySeverityDesc a b <= 0 -> DecorationManager.bySeverityDesc b c <= 0 -> DecorationManager.bySeverityDesc a c <= 0.
Proof. unfold DecorationManager.bySeverityDesc. lia. Qed.

(** The primary marker of a non-empty group. *)
Lemma sort_bySeverityDesc_head (group : list MonacoMarkerData) :
  group <> [] ->
  exists top rest,
    Js.sort DecorationManager.bySeverityDesc group = top :: rest /\
    In top group /\
    (forall m, In m group -> severity m <= severity top).
Proof.
  intros Hne.
  pose proof (sort_perm DecorationManager.bySeverityDesc group) as Hperm.
  pose proof (sort_sorted DecorationManager.bySeverityDesc bySeverityDesc_total bySeverityDesc_trans group)
    as Hsorted.
  destruct (Js.sort DecorationManager.bySeverityDesc group) as [|top rest].
  - apply Permutation_sym, Permutation_nil in Hperm. contradiction.
  - exists top, rest. split; [reflexivity|]. split.
    + apply (Permutation_in _ (Permutation_sym Hperm)). now left.
    + intros m Hm. apply (Permutation_in _ Hperm) in Hm.
      destruct Hm as [->|Hm]; [lia|].
      inversion Hsorted as [|? ? _ Hall]; subst.
      rewrite Forall_forall in Hall. specialize (Hall m Hm).
      unfold cmp_le, DecorationManager.bySeverityDesc in Hall. lia.
Qed.

Lemma createDecorations_unfold (w : bool) (config : ErrorLensConfig)
    (markers : list MonacoMarkerData) :
  DecorationManager.createDecorations w config markers
  = flat_map
      (fun line =>
         match DecorationManager.createLineDecoration w config line
                 (Js.sort DecorationManager.bySeverityDesc (filter (onLine line) markers)) with
         | Some decoration => [decoration]
         | None => []
         end)
      (linesOf markers).
Proof.
  unfold DecorationManager.createDecorations, DecorationManager.groupMarkersByLine.
  rewrite groupMarkersByLine_groups, map_map.
  rewrite flat_map_concat_map, map_map, <- flat_map_concat_map.
  apply flat_map_ext. intros line. unfold groupOf. simpl.
  destruct (Js.sort DecorationManager.bySeverityDesc (filter (onLine line) markers)); reflexivity.
Qed.

Lemma createLineDecoration_decorates (config : ErrorLensConfig)
    (markers : list MonacoMarkerData) (line : Z) :
  In line (linesOf markers) ->
  exists d,
    DecorationManager.createLineDecoration true config line
      (Js.sort DecorationManager.bySeverityDesc (filter (onLine line) markers)) = Some d /\
    decoratesLine config markers line d.
Proof.
  intros Hline. apply linesOf_In in Hline. destruct Hline as [m0 [Hm0 Hl0]].
  destruct (sort_bySeverityDesc_head (filter (onLine line) markers))
    as [top [rest [Hsort [Htop Hmax]]]].
  { intros Hnil. assert (Hin : In m0 (filter (onLine line) markers)).
    { apply filter_In. split; [exact Hm0 | now apply Z.eqb_eq]. }
    rewrite Hnil in Hin. destruct Hin. }
  rewrite Hsort. simpl. eexists. split; [reflexivity|].
  split; [reflexivity|]. exists top. split.
  - apply filter_In in Htop. destruct Htop as [Hin Hon]. apply Z.eqb_eq in Hon.
    repeat split; [exact Hin | exact Hon |].
    intros m Hm Hl. apply Hmax. apply filter_In. split; [exact Hm | now apply Z.eqb_eq].
  - simpl. destruct (enableLineHighlights config), (enableInlineMessages config),
      (enableGutterIcons config); repeat split.
Qed.

(** C5, as stated, fails: on a page without the global [monaco.Range]
    no decoration is built for a line that has a marker. *)
Lemma createDecorations_without_global_Range :
  DecorationManager.createDecorations false DEFAULT_OPTIONS [marker_at 1 8 "A"] = [] /\
  In 1 (map startLineNumber [marker_at 1 8 "A"]).
Proof. split; [reflexivity | now left]. Qed.

(** C5, amended. When the page has the global [monaco.Range], decoration
    construction builds one decoration for each line that has a marker, in
    the order in which the lines first occur and never two for one line,
    and the severity class of every class name of that decoration is the
    class of the highest severity on the line.  Without that global it
    builds none. *)
Theorem createDecorations_one_per_line (config : ErrorLensConfig)
    (markers : list MonacoMarkerData) :
  Forall2 (decoratesLine config markers) (linesOf markers)
    (DecorationManager.createDecorations true config markers) /\
  NoDup (linesOf markers) /\
  (forall line, In line (linesOf markers) <->
                exists m, In m markers /\ startLineNumber m = line) /\
  DecorationManager.createDecorations false config markers = [].
Proof.
  split; [|split; [apply linesOf_NoDup | split; [apply linesOf_In|]]].
  - rewrite createDecorations_unfold.
    assert (Hkeys : forall line, In line (linesOf markers) -> In line (linesOf markers))
      by auto.
    revert Hkeys. generalize (linesOf markers) at 1 3 4 as keys.
    induction keys as [|line keys IH]; intros Hkeys; [constructor|].
    simpl flat_map.
    destruct (createLineDecoration_decorates config markers line) as [d [Hd Hdec]].
    { apply Hkeys. now left. }
    rewrite Hd. simpl. constructor; [exact Hdec|].
    apply IH. intros k Hk. apply Hkeys. now right.
  - rewrite createDecorations_unfold.
    induction (linesOf markers) as [|line keys IH]; [reflexivity|].
    simpl flat_map. rewrite IH.
    unfold DecorationManager.createLineDecoration.
    destruct (Js.sort DecorationManager.bySeverityDesc (filter (onLine line) markers)); reflexivity.
Qed.

(** The scenario of the specification: an info and an error marker on
    line 1 give one decoration, of class "error", whose hover text names
    both. *)
Example createDecorations_scenario :
  map (fun d => (range_startLineNumber (range d), className (options d),
                 hoverMessage (options d)))
    (DecorationManager.createDecorations true DEFAULT_OPTIONS [marker_at 1 2 "I"; marker_at 1 8 "E"])
  = [(1, Some "monaco-error-lens-line monaco-error-lens-line-error"%string,
      Some ("**Error**: E" ++ DecorationManager.newline ++ DecorationManager.newline ++ "**Info**: I")%string)].
Proof. reflexivity. Qed.

(** ** [String(n)] *)

Lemma denotes_exact (x v : Z) :
  Z.log2 x <= 52 -> Js.denotes x v = (v =? x).
Proof.
  intros Hsmall. unfold Js.denotes.
  destruct (Z.leb_spec (Z.log2 x - 52) 0); [reflexivity | lia].
Qed.

(** Below 2^53 the shortest decimal that denotes an integer is the
    integer itself. *)
Lemma shortest_exact (p : nat) (x : Z) :
  Z.log2 x <= 52 -> Js.shortest p x = x.
Proof.
  intros Hsmall. induction p as [|p IH].
  - cbn [Js.shortest]. rewrite !denotes_exact by exact Hsmall.
    set (below := x / 10 ^ Z.of_nat 0 * 10 ^ Z.of_nat 0).
    set (above := below + 10 ^ Z.of_nat 0).
    destruct (Z.eqb_spec below x) as [Hb|Hb], (Z.eqb_spec above x) as [Ha|Ha],
      (0 <? below); cbn [andb];
      repeat match goal with
             | |- (if ?c then _ else _) = _ => destruct c
             end; congruence.
  - cbn [Js.shortest]. rewrite !denotes_exact by exact Hsmall.
    set (below := x / 10 ^ Z.of_nat (S p) * 10 ^ Z.of_nat (S p)).
    set (above := below + 10 ^ Z.of_nat (S p)).
    destruct (Z.eqb_spec below x) as [Hb|Hb], (Z.eqb_spec above x) as [Ha|Ha],
      (0 <? below); cbn [andb];
      repeat match goal with
             | |- (if ?c then _ else _) = _ => destruct c
             end; congruence.
Qed.

(** An integer that JavaScript holds exactly (below 2^53 in magnitude)
    prints as its decimal digits. *)
Lemma string_of_number_safe_integer (n : Z) :
  0 <= n < 2 ^ 53 -> Js.string_of_number n = Js.decimal n.
Proof.
  intros [Hlow Hhigh]. unfold Js.string_of_number.
  destruct (Z.eqb_spec n 0) as [->|Hne]; [reflexivity|].
  destruct (Z.ltb_spec n 0); [lia|].
  assert (Hlog : Z.log2 n <= 52).
  { assert (Z.log2 n < 53) by (apply Z.log2_lt_pow2; lia). lia. }
  assert (Hdouble : Js.toDouble n = n).
  { unfold Js.toDouble. destruct (Z.leb_spec (Z.log2 n - 52) 0); [reflexivity | lia]. }
  rewrite Hdouble. unfold Js.string_of_positive.
  rewrite shortest_exact by exact Hlog.
  assert (Hhuge : 2 ^ 53 < Z.shiftl 1 1024) by (vm_compute; reflexivity).
  destruct (Z.leb_spec (Z.shiftl 1 1024) n); [lia|].
  assert (Hdigits : 2 ^ 53 < 10 ^ 21) by (vm_compute; reflexivity).
  destruct (Z.ltb_spec n (10 ^ 21)); [reflexivity | lia].
Qed.

Example string_of_number_line : Js.string_of_number 42 = "42"%string.
Proof. reflexivity. Qed.

(** Beyond 2^53 the digits are those of the double, and from 1e21 on
    the exponent notation is used. *)
Example string_of_number_large :
  Js.string_of_number (2 ^ 64) = "18446744073709552000"%string /\
  Js.string_of_number (10 ^ 21) = "1e+21"%string /\
  Js.string_of_number (- 2 ^ 70) = "-1.1805916207174113e+21"%string.
Proof. vm_compute. repeat split. Qed.

(** ** Strings *)

Local Open Scope string_scope.

Lemma length_append (s1 s2 : string) :
  String.length (s1 ++ s2) = (String.length s1 + String.length s2)%nat.
Proof. induction s1 as [|c s1 IH]; simpl; [reflexivity | now rewrite IH]. Qed.

Lemma length_take (n : nat) (s : string) :
  (n <= String.length s)%nat -> String.length (Js.take n s) = n.
Proof.
  revert s. induction n as [|n IH]; intros s Hn; [reflexivity|].
  destruct s as [|c s]; simpl in *; [lia|]. rewrite IH; lia.
Qed.

Lemma drop_append (s1 s2 : string) : Js.drop (String.length s1) (s1 ++ s2) = s2.
Proof. induction s1 as [|c s1 IH]; simpl; [now destruct s2 | exact IH]. Qed.

Lemma endsWith_append (s suffix : string) : Js.endsWith (s ++ suffix) suffix = true.
Proof.
  unfold Js.endsWith. rewrite length_append.
  destruct (Nat.leb_spec (String.length suffix) (String.length s + String.length suffix));
    [|lia].
  replace (String.length s + String.length suffix - String.length suffix)%nat
    with (String.length s) by lia.
  rewrite drop_append. apply String.eqb_refl.
Qed.

Lemma substring_prefix (s : string) (n : Z) :
  0 <= n <= Z.of_nat (String.length s) ->
  Js.substring s 0 n = Js.take (Z.to_nat n) s.
Proof.
  intros Hn. unfold Js.substring, Js.clamp.
  replace (Z.min (Z.min (Z.max 0 0) (Z.of_nat (String.length s)))
             (Z.min (Z.max n 0) (Z.of_nat (String.length s)))) with 0%Z by lia.
  replace (Z.max (Z.min (Z.max 0 0) (Z.of_nat (String.length s)))
             (Z.min (Z.max n 0) (Z.of_nat (String.length s))) - 0)%Z with n by lia.
  reflexivity.
Qed.

(** ** Truncation in [formatMessage] *)

(** C2, as stated, fails for a limit below the length of the ellipsis:
    with [maxLength = 2] the result has three characters, and with
    [maxLength = 0] a longer message is returned whole. *)
Lemma formatMessage_small_maxLength :
  formatMessage (marker_at 1 8 "abcd") "{message}" None = "abcd" /\
  formatMessage (marker_at 1 8 "abcd") "{message}" (Some 2%Z) = "..." /\
  String.length (formatMessage (marker_at 1 8 "abcd") "{message}" (Some 2%Z)) <> 2%nat /\
  formatMessage (marker_at 1 8 "abcd") "{message}" (Some 0%Z) = "abcd" /\
  Js.endsWith (formatMessage (marker_at 1 8 "abcd") "{message}" (Some 0%Z)) "..." = false.
Proof. repeat split; discriminate. Qed.

(** C2, amended. A message whose length is at most [maxLength] is
    returned unchanged, and so is every message when [maxLength] is zero
    (no limit).  When [maxLength] is at least 3 and the message is longer,
    the result is the first [maxLength - 3] characters followed by "...":
    its length is [maxLength] and it ends with "...". *)
Theorem formatMessage_truncation (marker : MonacoMarkerData) (template : string)
    (maxLength : Z) :
  let formatted := formatMessage marker template None in
  let result := formatMessage marker template (Some maxLength) in
  (Z.of_nat (String.length formatted) <= maxLength -> result = formatted)%Z /\
  (maxLength = 0%Z -> result = formatted) /\
  (3 <= maxLength -> maxLength < Z.of_nat (String.length formatted) ->
   result = Js.take (Z.to_nat (maxLength - 3)) formatted ++ "..." /\
   Z.of_nat (String.length result) = maxLength /\
   Js.endsWith result "..." = true)%Z.
Proof.
  intros formatted result. unfold result, formatted, formatMessage.
  set (text := substituteTokens marker template).
  split; [|split].
  - intros Hle. destruct (Z.gtb_spec (Z.of_nat (String.length text)) maxLength); [lia|].
    now rewrite andb_false_r.
  - intros ->. reflexivity.
  - intros Hmin Hlong. unfold Js.truthy.
    destruct (Z.eqb_spec maxLength 0); [lia|].
    destruct (Z.gtb_spec (Z.of_nat (String.length text)) maxLength); [|lia].
    simpl. rewrite substring_prefix by lia.
    split; [reflexivity|]. split.
    + rewrite length_append, length_take by lia. simpl. lia.
    + apply endsWith_append.
Qed.

Lemma formatMessage_truncation_witness :
  (3 <= 20)%Z /\
  (20 < Z.of_nat (String.length
                    (formatMessage (marker_at 1 8 "This is a very long error message")
                       "{message}" None)))%Z /\
  formatMessage (marker_at 1 8 "This is a very long error message") "{message}" (Some 20%Z)
  = Js.take 17 (formatMessage (marker_at 1 8 "This is a very long error message")
                  "{message}" None) ++ "..." /\
  Z.of_nat (String.length
              (formatMessage (marker_at 1 8 "This is a very long error message")
                 "{message}" (Some 20%Z))) = 20%Z /\
  Js.endsWith (formatMessage (marker_at 1 8 "This is a very long error message")
                 "{message}" (Some 20%Z)) "..." = true.
Proof.
  split; [lia|]. split; [simpl; lia|].
  apply (formatMessage_truncation (marker_at 1 8 "This is a very long error message")
           "{message}" 20); simpl; lia.
Defined.

(** ** Token substitution in [formatMessage] *)

(** The number of positions of [s] at which [pat] occurs. *)
Fixpoint occurrences (pat s : string) : nat :=
  (if String.prefix pat s then 1 else 0) +
  match s with
  | EmptyString => 0
  | String _ s' => occurrences pat s'
  end.

(** [s] does not contain the character [c]. *)
Fixpoint lacks (c : ascii) (s : string) : bool :=
  match s with
  | EmptyString => true
  | String d s' => negb (Ascii.eqb d c) && lacks c s'
  end.

(** A token: an opening brace followed by text without one. *)
Definition isToken (tok : string) : Prop :=
  exists body, tok = String "{" body /\ lacks "{" body = true.

Definition tokens : list string := ["{message}"; "{source}"; "{code}"].

Lemma tokens_isToken (tok : string) : In tok tokens -> isToken tok.
Proof.
  intros [<-|[<-|[<-|[]]]]; eexists; split; reflexivity.
Qed.

Lemma prefix_String (c d : ascii) (s1 s2 : string) :
  String.prefix (String c s1) (String d s2) = Ascii.eqb c d && String.prefix s1 s2.
Proof.
  simpl. destruct (ascii_dec c d) as [->|Hne].
  - now rewrite Ascii.eqb_refl.
  - apply Ascii.eqb_neq in Hne. now rewrite Hne.
Qed.

Lemma prefix_self_append (s rest : string) : String.prefix s (s ++ rest) = true.
Proof.
  induction s as [|c s IH]; [now destruct rest|].
  simpl append. now rewrite prefix_String, Ascii.eqb_refl.
Qed.

Lemma prefix_append (pat s : string) :
  String.prefix pat s = true -> s = pat ++ Js.drop (String.length pat) s.
Proof.
  revert s. induction pat as [|c pat IH]; intros s Hp.
  - now destruct s.
  - destruct s as [|d s]; [discriminate|].
    rewrite prefix_String in Hp. apply andb_true_iff in Hp. destruct Hp as [Hc Hp].
    apply Ascii.eqb_eq in Hc. subst d. simpl. f_equal. now apply IH.
Qed.

Lemma split_first_eq (pat s : string) :
  Js.split_first pat s
  = if String.prefix pat s then Some (EmptyString, Js.drop (String.length pat) s)
    else match s with
         | EmptyString => None
         | String c s' =>
             match Js.split_first pat s' with
             | Some (before, rest) => Some (String c before, rest)
             | None => None
             end
         end.
Proof. destruct s; reflexivity. Qed.

Lemma split_first_append (pat s pre post : string) :
  Js.split_first pat s = Some (pre, post) -> s = pre ++ pat ++ post.
Proof.
  revert pre post. induction s as [|c s IH]; intros pre post Hsplit;
    rewrite split_first_eq in Hsplit.
  - destruct (String.prefix pat EmptyString) eqn:Hp; [|discriminate].
    inversion Hsplit; subst. simpl. now apply prefix_append.
  - destruct (String.prefix pat (String c s)) eqn:Hp.
    + inversion Hsplit; subst. simpl. now apply prefix_append.
    + destruct (Js.split_first pat s) as [[before rest]|] eqn:Hrec; [|discriminate].
      inversion Hsplit; subst. simpl. f_equal. now apply IH.
Qed.

Lemma occurrences_String (pat : string) (c : ascii) (s : string) :
  occurrences pat (String c s)
  = ((if String.prefix pat (String c s) then 1 else 0) + occurrences pat s)%nat.
Proof. reflexivity. Qed.

Lemma occurrences_append_ge (pat s1 s2 : string) :
  (occurrences pat s2 <= occurrences pat (s1 ++ s2))%nat.
Proof.
  induction s1 as [|c s1 IH]; simpl; [lia|].
  destruct (String.prefix pat (String c (s1 ++ s2))); simpl; lia.
Qed.

(** A match of brace-free text that runs into an opening brace ends
    before it. *)
Lemma prefix_before_brace (body pre rest other : string) :
  lacks "{" body = true ->
  String.prefix body (pre ++ String "{" rest) = true ->
  String.prefix body (pre ++ other) = true.
Proof.
  revert pre. induction body as [|d body IH]; intros pre Hlacks Hp.
  - now destruct (pre ++ other).
  - simpl in Hlacks. apply andb_true_iff in Hlacks. destruct Hlacks as [Hd Hbody].
    destruct pre as [|e pre].
    + simpl append in Hp. rewrite prefix_String in Hp.
      apply andb_true_iff in Hp. destruct Hp as [Hp _].
      rewrite Hp in Hd. discriminate.
    + simpl append in *. rewrite prefix_String in *.
      apply andb_true_iff in Hp. destruct Hp as [-> Hp]. simpl. now apply IH.
Qed.

(** Replacing an occurrence of the token [a] removes at most [delta]
    occurrences of the token [b], where [delta] bounds what the occurrence
    of [a] itself contributes. *)
Lemma replace_occurrences (a b s rep : string) (delta : nat) :
  isToken a -> isToken b ->
  (forall post, occurrences b (a ++ post) <= delta + occurrences b post)%nat ->
  (occurrences b s <= delta + occurrences b (Js.replace s a rep))%nat.
Proof.
  intros [abody [-> _]] [bbody [-> Hb]] Hself. unfold Js.replace.
  destruct (Js.split_first (String "{" abody) s) as [[pre post]|] eqn:Hsplit; [|lia].
  apply split_first_append in Hsplit. subst s.
  generalize (Js.get_substitution (String "{" abody) pre post rep) as sub. intros sub.
  induction pre as [|c pre IH].
  - pose proof (Hself post) as Hpost.
    pose proof (occurrences_append_ge (String "{" bbody) sub post) as Hsub.
    simpl append in *. lia.
  - simpl append in *. rewrite !occurrences_String.
    destruct (String.prefix (String "{" bbody)
                (String c (pre ++ String "{" (abody ++ post)))) eqn:Hp.
    + rewrite prefix_String in Hp. apply andb_true_iff in Hp. destruct Hp as [Hc Hp].
      assert (Hp' : String.prefix (String "{" bbody) (String c (pre ++ sub ++ post)) = true).
      { rewrite prefix_String, Hc. simpl.
        exact (prefix_before_brace bbody pre (abody ++ post) (sub ++ post) Hb Hp). }
      rewrite Hp'. lia.
    + destruct (String.prefix (String "{" bbody) (String c (pre ++ sub ++ post))); lia.
Qed.

Lemma token_occurrences (a b post : string) :
  In a tokens -> In b tokens ->
  (occurrences b (a ++ post)
   <= (if String.eqb a b then 1 else 0) + occurrences b post)%nat.
Proof.
  intros [<-|[<-|[<-|[]]]] [<-|[<-|[<-|[]]]]; cbn;
    try destruct (String.prefix EmptyString post); lia.
Qed.

(** Templates as tokens and brace-free text. *)
Inductive TokenKind : Type := TMessage | TSource | TCode.

Definition tokenText (k : TokenKind) : string :=
  match k with
  | TMessage => "{message}"
  | TSource => "{source}"
  | TCode => "{code}"
  end.

Definition sameToken (k k' : TokenKind) : bool :=
  match k, k' with
  | TMessage, TMessage | TSource, TSource | TCode, TCode => true
  | _, _ => false
  end.

Inductive Segment : Type :=
| Text (s : string)
| Token (k : TokenKind).

Definition segmentText (seg : Segment) : string :=
  match seg with
  | Text s => s
  | Token k => tokenText k
  end.

Fixpoint render (segs : list Segment) : string :=
  match segs with
  | [] => EmptyString
  | seg :: rest => segmentText seg ++ render rest
  end.

(** The first [Token k] becomes the text [value]; later ones stay. *)
Fixpoint substFirst (k : TokenKind) (value : string) (segs : list Segment)
  : list Segment :=
  match segs with
  | [] => []
  | Token k' :: rest =>
      if sameToken k k' then Text value :: rest
      else Token k' :: substFirst k value rest
  | Text s :: rest => Text s :: substFirst k value rest
  end.

Definition plainSegment (seg : Segment) : Prop :=
  match seg with
  | Text s => lacks "{" s = true
  | Token _ => True
  end.

(** A field value with no brace and no dollar sign. *)
Definition plainValue (v : string) : Prop :=
  lacks "{" v = true /\ lacks "$" v = true.

Lemma get_substitution_plain (matched before rest rep : string) :
  lacks "$" rep = true -> Js.get_substitution matched before rest rep = rep.
Proof.
  induction rep as [|c rep IH]; intros Hplain; [reflexivity|].
  simpl in Hplain. apply andb_true_iff in Hplain. destruct Hplain as [Hc Hrep].
  apply negb_true_iff in Hc. simpl. rewrite Hc. now rewrite IH.
Qed.

Lemma replace_plain (s pat rep : string) :
  lacks "$" rep = true ->
  Js.replace s pat rep
  = match Js.split_first pat s with
    | Some (before, rest) => before ++ rep ++ rest
    | None => s
    end.
Proof.
  intros Hplain. unfold Js.replace.
  destruct (Js.split_first pat s) as [[before rest]|]; [|reflexivity].
  now rewrite get_substitution_plain.
Qed.

Lemma split_first_skip (body : string) (c : ascii) (s : string) :
  Ascii.eqb c "{" = false ->
  Js.split_first (String "{" body) (String c s)
  = match Js.split_first (String "{" body) s with
    | Some (before, rest) => Some (String c before, rest)
    | None => None
    end.
Proof.
  intros Hc. rewrite split_first_eq.
  now rewrite prefix_String, Ascii.eqb_sym, Hc.
Qed.

Lemma replace_skip_text (k : TokenKind) (value s rest : string) :
  lacks "$" value = true -> lacks "{" s = true ->
  Js.replace (s ++ rest) (tokenText k) value = s ++ Js.replace rest (tokenText k) value.
Proof.
  intros Hvalue. induction s as [|c s IH]; intros Hs; [reflexivity|].
  simpl in Hs. apply andb_true_iff in Hs. destruct Hs as [Hc Hs].
  apply negb_true_iff in Hc. specialize (IH Hs).
  rewrite !replace_plain in * by exact Hvalue.
  simpl append.
  assert (Hskip : Js.split_first (tokenText k) (String c (s ++ rest))
                  = match Js.split_first (tokenText k) (s ++ rest) with
                    | Some (before, after_) => Some (String c before, after_)
                    | None => None
                    end)
    by (destruct k; apply split_first_skip; exact Hc).
  rewrite Hskip.
  destruct (Js.split_first (tokenText k) (s ++ rest)) as [[before after_]|];
    destruct (Js.split_first (tokenText k) rest) as [[before' after']|];
    simpl; congruence.
Qed.

Lemma replace_skip_token (k k' : TokenKind) (value rest : string) :
  lacks "$" value = true -> sameToken k k' = false ->
  Js.replace (tokenText k' ++ rest) (tokenText k) value
  = tokenText k' ++ Js.replace rest (tokenText k) value.
Proof.
  intros Hvalue Hdiff. rewrite !replace_plain by exact Hvalue.
  destruct k, k'; try discriminate; simpl tokenText; simpl append;
    rewrite split_first_eq; simpl String.prefix; cbv iota;
    rewrite !split_first_skip by reflexivity;
    destruct (Js.split_first _ rest) as [[before after_]|]; reflexivity.
Qed.

Lemma replace_hit_token (k : TokenKind) (value rest : string) :
  lacks "$" value = true ->
  Js.replace (tokenText k ++ rest) (tokenText k) value = value ++ rest.
Proof.
  intros Hvalue. rewrite replace_plain by exact Hvalue. rewrite split_first_eq.
  now rewrite prefix_self_append, drop_append.
Qed.

(** On a template of tokens and brace-free text, one [replace] call is
    [substFirst]. *)
Lemma replace_render (k : TokenKind) (value : string) (segs : list Segment) :
  lacks "$" value = true -> Forall plainSegment segs ->
  Js.replace (render segs) (tokenText k) value = render (substFirst k value segs).
Proof.
  intros Hvalue Hsegs.
  induction Hsegs as [|seg segs Hseg Hsegs IH]; [now destruct k|].
  destruct seg as [s|k']; simpl render; simpl substFirst.
  - rewrite replace_skip_text by assumption. simpl. now rewrite IH.
  - destruct (sameToken k k') eqn:Hsame.
    + replace k' with k by (destruct k, k'; congruence || discriminate).
      now rewrite replace_hit_token.
    + rewrite replace_skip_token by assumption. simpl. now rewrite IH.
Qed.

Lemma substFirst_plain (k : TokenKind) (value : string) (segs : list Segment) :
  lacks "{" value = true -> Forall plainSegment segs ->
  Forall plainSegment (substFirst k value segs).
Proof.
  intros Hvalue Hsegs. induction Hsegs as [|seg segs Hseg Hsegs IH]; [constructor|].
  destruct seg as [s|k']; simpl.
  - now constructor.
  - destruct (sameToken k k'); constructor; assumption.
Qed.

Lemma replace_token_occurrences (a b s rep : string) :
  In a tokens -> In b tokens ->
  (occurrences b s
   <= (if String.eqb a b then 1 else 0) + occurrences b (Js.replace s a rep))%nat.
Proof.
  intros Ha Hb. apply replace_occurrences; try now apply tokens_isToken.
  intros post. now apply token_occurrences.
Qed.

(** C10. [formatMessage] substitutes only the first occurrence of each of
    [{message}], [{source}] and [{code}].  For every template and marker,
    at most one occurrence of each token is missing from the output; and
    on a template made of tokens and brace-free text, with field values
    that contain no brace and no dollar sign, the output is the template
    with the first occurrence of each token replaced by the field and
    every later occurrence left as it is. *)
Theorem formatMessage_first_occurrence_only (marker : MonacoMarkerData) :
  (forall template tok,
      In tok tokens ->
      (occurrences tok template
       <= S (occurrences tok (formatMessage marker template None)))%nat) /\
  (forall segs,
      Forall plainSegment segs ->
      plainValue (message marker) ->
      plainValue (source_text (source marker)) ->
      plainValue (code_text (code marker)) ->
      formatMessage marker (render segs) None
      = render (substFirst TCode (code_text (code marker))
                  (substFirst TSource (source_text (source marker))
                     (substFirst TMessage (message marker) segs)))).
Proof.
  split.
  - intros template tok Htok. unfold formatMessage, substituteTokens.
    set (t1 := Js.replace template "{message}" (message marker)).
    set (t2 := Js.replace t1 "{source}" (source_text (source marker))).
    pose proof (replace_token_occurrences "{message}" tok template (message marker)
                  (or_introl eq_refl) Htok) as H1.
    pose proof (replace_token_occurrences "{source}" tok t1
                  (source_text (source marker)) (or_intror (or_introl eq_refl)) Htok) as H2.
    pose proof (replace_token_occurrences "{code}" tok t2 (code_text (code marker))
                  (or_intror (or_intror (or_introl eq_refl))) Htok) as H3.
    fold t1 in H1. fold t2 in H2.
    destruct Htok as [<-|[<-|[<-|[]]]]; simpl in H1, H2, H3; lia.
  - intros segs Hsegs [Hm1 Hm2] [Hs1 Hs2] [Hc1 Hc2].
    unfold formatMessage, substituteTokens.
    change "{message}" with (tokenText TMessage).
    change "{source}" with (tokenText TSource).
    change "{code}" with (tokenText TCode).
    rewrite !replace_render by (repeat (assumption || apply substFirst_plain)).
    reflexivity.
Qed.

Lemma formatMessage_first_occurrence_only_witness :
  Forall plainSegment [Token TMessage; Text " "; Token TMessage; Text " "; Token TSource] /\
  plainValue (message (marker_at 1 8 "X")) /\
  formatMessage (marker_at 1 8 "X")
    (render [Token TMessage; Text " "; Token TMessage; Text " "; Token TSource]) None
  = render [Text "X"; Text " "; Token TMessage; Text " "; Text EmptyString] /\
  (occurrences "{message}" "{message} {message} {source}"
   <= S (occurrences "{message}"
           (formatMessage (marker_at 1 8 "X") "{message} {message} {source}" None)))%nat.
Proof.
  assert (Hsegs : Forall plainSegment
            [Token TMessage; Text " "; Token TMessage; Text " "; Token TSource])
    by (repeat constructor).
  assert (Hplain : plainValue "X") by (split; reflexivity).
  split; [exact Hsegs|]. split; [exact Hplain|]. split.
  - apply (proj2 (formatMessage_first_occurrence_only (marker_at 1 8 "X"))
             [Token TMessage; Text " "; Token TMessage; Text " "; Token TSource]
             Hsegs Hplain); split; reflexivity.
  - apply (proj1 (formatMessage_first_occurrence_only (marker_at 1 8 "X"))).
    now left.
Defined.

(** The example template. *)
Example formatMessage_repeated_token :
  formatMessage (marker_at 1 8 "X") "{message} {message}" None = "X {message}".
Proof. reflexivity. Qed.

Local Close Scope string_scope.

(** ** The marker snapshot is not written to *)

#[local] Arguments Heap.read : simpl never.
#[local] Arguments Heap.write : simpl never.
#[local] Arguments Heap.alloc : simpl never.

Section HeapFacts.

(** The arrays that a group map holds. *)
Definition groupValues (st : Heap.Store) (grouped : Heap.Groups) : LineGroups :=
  map (fun entry => (fst entry, Heap.read st (snd entry))) grouped.

(** [st'] has every cell of [st] below address [n], unchanged. *)
Definition frame (n : nat) (st st' : Heap.Store) : Prop :=
  (Heap.next st <= Heap.next st')%nat /\
  forall a, (a < n)%nat -> Heap.read st' a = Heap.read st a.

Lemma frame_refl (n : nat) (st : Heap.Store) : frame n st st.
Proof. split; [lia | reflexivity]. Qed.

Lemma frame_trans (n : nat) (st1 st2 st3 : Heap.Store) :
  frame n st1 st2 -> frame n st2 st3 -> frame n st1 st3.
Proof.
  intros [Hn12 H12] [Hn23 H23]. split; [lia|].
  intros a Ha. now rewrite H23, H12.
Qed.

Lemma read_write (st : Heap.Store) (a b : Heap.Addr) (elems : list MonacoMarkerData) :
  Heap.read (Heap.write st a elems) b = if Nat.eqb b a then elems else Heap.read st b.
Proof. reflexivity. Qed.

Lemma read_alloc (st : Heap.Store) (b : Heap.Addr) (elems : list MonacoMarkerData) :
  Heap.read (fst (Heap.alloc st elems)) b
  = if Nat.eqb b (Heap.next st) then elems else Heap.read st b.
Proof. reflexivity. Qed.

Lemma frame_write (n : nat) (st : Heap.Store) (a : Heap.Addr)
    (elems : list MonacoMarkerData) :
  (n <= a)%nat -> frame n st (Heap.write st a elems).
Proof.
  intros Ha. split; [simpl; lia|]. intros b Hb. rewrite read_write.
  destruct (Nat.eqb_spec b a); [lia | reflexivity].
Qed.

Lemma frame_alloc (st : Heap.Store) (elems : list MonacoMarkerData) :
  frame (Heap.next st) st (fst (Heap.alloc st elems)).
Proof.
  split; [simpl; lia|]. intros b Hb. rewrite read_alloc.
  destruct (Nat.eqb_spec b (Heap.next st)); [lia | reflexivity].
Qed.

Lemma frame_weaken (n m : nat) (st st' : Heap.Store) :
  (n <= m)%nat -> frame m st st' -> frame n st st'.
Proof. intros Hnm [Hnext H]. split; [exact Hnext|]. intros a Ha. apply H. lia. Qed.

(** A write outside the arrays of a map leaves its values alone. *)
Lemma groupValues_write (st : Heap.Store) (a : Heap.Addr)
    (elems : list MonacoMarkerData) (grouped : Heap.Groups) :
  ~ In a (map snd grouped) ->
  groupValues (Heap.write st a elems) grouped = groupValues st grouped.
Proof.
  intros Hnot. apply map_ext_in. intros [k b] Hin. cbn [fst snd]. rewrite read_write.
  destruct (Nat.eqb_spec b a) as [->|_]; [|reflexivity].
  exfalso. apply Hnot. apply in_map_iff. now exists (k, a).
Qed.

Lemma getLine_In (line : Z) (grouped : Heap.Groups) (a : Heap.Addr) :
  Heap.getLine line grouped = Some a -> In a (map snd grouped).
Proof.
  induction grouped as [|[k b] rest IH]; [discriminate|]. simpl.
  destruct (k =? line); [intros [= ->]; now left | intros H; right; now apply IH].
Qed.

Lemma pushOnLine_found (st : Heap.Store) (line : Z) (m : MonacoMarkerData)
    (grouped : Heap.Groups) (a : Heap.Addr) :
  Heap.getLine line grouped = Some a -> NoDup (map snd grouped) ->
  groupValues (Heap.pushAll st a [m]) grouped = pushOnLine line m (groupValues st grouped).
Proof.
  unfold Heap.pushAll.
  induction grouped as [|[k b] rest IH]; [discriminate|].
  simpl. intros Hget Hnd. inversion Hnd as [|? ? Hb Hrest]; subst.
  destruct (Z.eqb_spec k line) as [->|Hne].
  - injection Hget as ->. rewrite read_write, Nat.eqb_refl. f_equal.
    now apply groupValues_write.
  - rewrite read_write. destruct (Nat.eqb_spec b a) as [->|_].
    + exfalso. apply Hb. now apply getLine_In in Hget.
    + f_equal. now apply IH.
Qed.

Lemma pushOnLine_missing (st : Heap.Store) (line : Z) (m : MonacoMarkerData)
    (grouped : Heap.Groups) :
  Heap.getLine line grouped = None ->
  pushOnLine line m (groupValues st grouped) = groupValues st grouped ++ [(line, [m])].
Proof.
  induction grouped as [|[k b] rest IH]; [reflexivity|]. simpl.
  destruct (k =? line); [discriminate|]. intros Hget. now rewrite IH.
Qed.

(** The invariant of the loop of [groupMarkersByLine]: the map holds
    new, distinct arrays whose contents are the groups built so far. *)
Definition groupsInv (n : nat) (st0 : Heap.Store) (state : Heap.Store * Heap.Groups)
    (acc : LineGroups) : Prop :=
  (n <= Heap.next (fst state))%nat /\
  frame n st0 (fst state) /\
  groupValues (fst state) (snd state) = acc /\
  Forall (fun entry => (n <= snd entry < Heap.next (fst state))%nat) (snd state) /\
  NoDup (map snd (snd state)).

Lemma NoDup_snoc {A : Type} (l : list A) (x : A) :
  NoDup l -> ~ In x l -> NoDup (l ++ [x]).
Proof.
  intros Hnd Hx. apply NoDup_rev in Hnd.
  rewrite <- (rev_involutive (l ++ [x])). apply NoDup_rev.
  rewrite rev_app_distr. simpl. constructor; [|exact Hnd]. now rewrite <- in_rev.
Qed.

Lemma pushOnLine_inv (n : nat) (st0 : Heap.Store) (state : Heap.Store * Heap.Groups)
    (acc : LineGroups) (m : MonacoMarkerData) :
  groupsInv n st0 state acc ->
  groupsInv n st0 (Heap.pushOnLine state m) (pushOnLine (startLineNumber m) m acc).
Proof.
  destruct state as [st grouped]. intros [Hn [Hframe [Hvals [Hfresh Hnd]]]].
  simpl in Hn, Hframe, Hvals, Hfresh, Hnd. unfold Heap.pushOnLine.
  destruct (Heap.getLine (startLineNumber m) grouped) as [a|] eqn:Hget.
  - assert (Ha : (n <= a < Heap.next st)%nat).
    { rewrite Forall_forall in Hfresh. apply getLine_In, in_map_iff in Hget.
      destruct Hget as [[k b] [Heq Hin]]. simpl in Heq. subst b.
      exact (Hfresh _ Hin). }
    split; [exact Hn|]. split; [|split; [|split]]; simpl.
    + eapply frame_trans; [exact Hframe | apply frame_write; lia].
    + rewrite <- Hvals. now apply pushOnLine_found.
    + exact Hfresh.
    + exact Hnd.
  - assert (Hnew : ~ In (Heap.next st) (map snd grouped)).
    { intros Hin. apply in_map_iff in Hin. destruct Hin as [[k b] [Heq Hin]].
      rewrite Forall_forall in Hfresh. specialize (Hfresh _ Hin). simpl in *. lia. }
    set (st1 := fst (Heap.alloc st [])).
    change (Heap.alloc st []) with (st1, Heap.next st). cbv iota.
    assert (Hst1 : frame n st st1)
      by (apply (frame_weaken n (Heap.next st)); [exact Hn | apply frame_alloc]).
    split; [simpl; lia|]. split; [|split; [|split]]; simpl.
    + eapply frame_trans; [exact Hframe|].
      eapply frame_trans; [exact Hst1 | apply frame_write; lia].
    + rewrite <- Hvals, pushOnLine_missing by exact Hget.
      unfold groupValues at 1. rewrite map_app. f_equal.
      * fold (groupValues (Heap.pushAll st1 (Heap.next st) [m]) grouped).
        unfold Heap.pushAll. rewrite groupValues_write by exact Hnew.
        apply map_ext_in. intros [k b] Hin. cbn [fst snd].
        unfold st1. rewrite read_alloc.
        destruct (Nat.eqb_spec b (Heap.next st)) as [->|_]; [|reflexivity].
        exfalso. apply Hnew. apply in_map_iff. now exists (k, Heap.next st).
      * cbn [fst snd map]. unfold Heap.pushAll, st1.
        now rewrite read_write, Nat.eqb_refl, read_alloc, Nat.eqb_refl.
    + apply Forall_app. split.
      * eapply Forall_impl; [|exact Hfresh]. intros [k b]. simpl. lia.
      * constructor; [simpl; lia | constructor].
    + rewrite map_app. simpl. now apply NoDup_snoc.
Qed.

Lemma groupMarkersByLine_inv (n : nat) (st0 : Heap.Store)
    (markers : list MonacoMarkerData) :
  forall state acc,
    groupsInv n st0 state acc ->
    groupsInv n st0 (fold_left Heap.pushOnLine markers state)
      (fold_left (fun grouped m => pushOnLine (startLineNumber m) m grouped) markers acc).
Proof.
  induction markers as [|m markers IH]; intros state acc Hinv; [exact Hinv|].
  simpl. apply IH. now apply pushOnLine_inv.
Qed.

Lemma alloc_eq (st : Heap.Store) (elems : list MonacoMarkerData) :
  Heap.alloc st elems = (fst (Heap.alloc st elems), Heap.next st).
Proof. reflexivity. Qed.

Lemma next_alloc (st : Heap.Store) (elems : list MonacoMarkerData) :
  Heap.next (fst (Heap.alloc st elems)) = S (Heap.next st).
Proof. reflexivity. Qed.

(** The loop that refills [filtered] from the groups. *)
Lemma pushLimited_loop (limit : Z) (out : Heap.Addr) (grouped : Heap.Groups) :
  forall st,
    (out < Heap.next st)%nat ->
    Forall (fun entry => (snd entry < Heap.next st)%nat /\ snd entry <> out) grouped ->
    let st' := fold_left (Heap.pushLimited limit out) grouped st in
    Heap.read st' out
    = Heap.read st out
        ++ flat_map (fun entry => Js.slice (snd entry) 0 limit) (groupValues st grouped) /\
    (Heap.next st <= Heap.next st')%nat /\
    (forall a, (a < Heap.next st)%nat -> a <> out -> Heap.read st' a = Heap.read st a).
Proof.
  induction grouped as [|[k a] rest IH]; intros st Hout Hall.
  - simpl. rewrite app_nil_r. repeat split. lia.
  - inversion Hall as [|? ? [Ha Hne] Hrest]; subst. simpl in Ha, Hne.
    simpl fold_left. unfold Heap.pushLimited at 2, Heap.sliceArray, Heap.pushAll.
    rewrite alloc_eq. cbv iota. cbn [snd].
    set (st1 := fst (Heap.alloc st (Js.slice (Heap.read st a) 0 limit))).
    set (st2 := Heap.write st1 out (Heap.read st1 out ++ Heap.read st1 (Heap.next st))).
    assert (Hread2 : forall b, (b < Heap.next st)%nat -> b <> out ->
                               Heap.read st2 b = Heap.read st b).
    { intros b Hb Hbo. unfold st2. rewrite read_write.
      destruct (Nat.eqb_spec b out); [contradiction|].
      unfold st1. rewrite read_alloc.
      destruct (Nat.eqb_spec b (Heap.next st)); [lia | reflexivity]. }
    assert (Hout2 : Heap.read st2 out
                    = Heap.read st out ++ Js.slice (Heap.read st a) 0 limit).
    { unfold st2, st1. rewrite read_write, Nat.eqb_refl, !read_alloc, Nat.eqb_refl.
      destruct (Nat.eqb_spec out (Heap.next st)); [lia | reflexivity]. }
    assert (Hnext2 : Heap.next st2 = S (Heap.next st)) by reflexivity.
    destruct (IH st2) as [Hval [Hnext Hcells]].
    { lia. }
    { eapply Forall_impl; [|exact Hrest]. intros [k' b]. simpl. lia. }
    split; [|split].
    + rewrite Hval, Hout2, <- app_assoc. f_equal. simpl. f_equal.
      f_equal. apply map_ext_in. intros [k' b] Hin. cbn [fst snd].
      rewrite Forall_forall in Hrest. destruct (Hrest _ Hin) as [Hb Hbo].
      simpl in Hb, Hbo. now rewrite Hread2.
    + lia.
    + intros b Hb Hbo. rewrite Hcells by lia. now apply Hread2.
Qed.

Lemma applyCursorFilter_heap (config : ErrorLensConfig) (position : option Position)
    (n : nat) (st : Heap.Store) (filtered : Heap.Addr) :
  (n <= filtered < Heap.next st)%nat ->
  let result := Heap.applyCursorFilter config position st filtered in
  frame n st (fst result) /\
  (n <= snd result < Heap.next (fst result))%nat /\
  Heap.read (fst result) (snd result)
  = applyCursorFilter config position (Heap.read st filtered).
Proof.
  intros Hf. unfold Heap.applyCursorFilter, applyCursorFilter.
  destruct (followCursor config); [simpl; auto using frame_refl|].
  destruct (currentLineOf position) as [currentLine|]; [|simpl; auto using frame_refl].
  destruct (Js.truthy currentLine); [|simpl; auto using frame_refl].
  unfold Heap.filterArray. rewrite alloc_eq. cbn [fst snd]. split; [|split].
  - apply (frame_weaken n (Heap.next st)); [lia | apply frame_alloc].
  - rewrite next_alloc. lia.
  - now rewrite read_alloc, Nat.eqb_refl.
Qed.

Lemma limitMarkersPerLine_heap (config : ErrorLensConfig)
    (n : nat) (st : Heap.Store) (filtered : Heap.Addr) :
  (n <= filtered < Heap.next st)%nat ->
  let result := Heap.limitMarkersPerLine config st filtered in
  frame n st (fst result) /\
  (n <= snd result < Heap.next (fst result))%nat /\
  Heap.read (fst result) (snd result)
  = limitMarkersPerLine config (Heap.read st filtered).
Proof.
  intros Hf. unfold Heap.limitMarkersPerLine, limitMarkersPerLine.
  destruct (maxMarkersPerLine config >? 0);
    [|simpl; repeat split; try lia; apply frame_refl].
  unfold Heap.groupMarkersByLine.
  pose proof (groupMarkersByLine_inv (Heap.next st) st (Heap.read st filtered)
                (st, []) []) as Hinv.
  fold (groupMarkersByLine (Heap.read st filtered)) in Hinv.
  destruct (fold_left Heap.pushOnLine (Heap.read st filtered) (st, []))
    as [st1 lineGroups].
  destruct Hinv as [Hn1 [Hframe1 [Hvals [Hfresh Hnd]]]].
  { repeat split; simpl; try lia; constructor. }
  simpl in Hn1, Hframe1, Hvals, Hfresh, Hnd.
  rewrite alloc_eq. cbn [fst snd].
  set (st2 := fst (Heap.alloc st1 [])).
  assert (Hn2 : Heap.next st2 = S (Heap.next st1)) by reflexivity.
  destruct (pushLimited_loop (maxMarkersPerLine config) (Heap.next st1) lineGroups st2)
    as [Hval [Hnext Hcells]].
  { lia. }
  { eapply Forall_impl; [|exact Hfresh]. intros [k a]. simpl. lia. }
  split; [|split].
  - split.
    + lia.
    + intros a Ha. rewrite Hcells by lia.
      unfold st2. rewrite read_alloc.
      destruct (Nat.eqb_spec a (Heap.next st1)); [lia|].
      destruct Hframe1 as [_ Hc1]. apply Hc1. lia.
  - lia.
  - rewrite Hval. unfold st2 at 1. rewrite read_alloc, Nat.eqb_refl. simpl.
    rewrite <- Hvals. f_equal. apply map_ext_in. intros [k a] Hin. cbn [fst snd].
    unfold st2. rewrite read_alloc.
    destruct (Nat.eqb_spec a (Heap.next st1)) as [->|_]; [|reflexivity].
    rewrite Forall_forall in Hfresh. specialize (Hfresh _ Hin). simpl in Hfresh. lia.
Qed.
End HeapFacts.

(** The filtering pass works on a copy: it leaves every array that
    existed before the call as it was, and the array it returns is a new
    one holding the result of the pass. *)
Lemma filterMarkers_copies (config : ErrorLensConfig)
    (position : option Position) (st : Heap.Store) (markers : Heap.Addr) :
  (markers < Heap.next st)%nat ->
  let result := Heap.filterMarkers config position st markers in
  frame (Heap.next st) st (fst result) /\
  (Heap.next st <= snd result < Heap.next (fst result))%nat /\
  Heap.read (fst result) (snd result)
  = filterMarkers config position (Heap.read st markers).
Proof.
  intros Hm. unfold Heap.filterMarkers, Heap.spread, Heap.filterArray, Heap.sortMarkers.
  rewrite alloc_eq. cbv iota.
  set (st1 := fst (Heap.alloc st (Heap.read st markers))).
  rewrite alloc_eq. cbv iota.
  set (st2 := fst (Heap.alloc st1 _)).
  set (st3 := Heap.write st2 (Heap.next st1) _).
  assert (Hnext3 : Heap.next st3 = S (S (Heap.next st))) by reflexivity.
  assert (Hf3 : Heap.next st1 = S (Heap.next st)) by reflexivity.
  assert (Hframe3 : frame (Heap.next st) st st3).
  { apply (frame_trans _ _ st1); [apply frame_alloc|].
    apply (frame_trans _ _ st2).
    - apply (frame_weaken _ (Heap.next st1)); [lia | apply frame_alloc].
    - apply frame_write. lia. }
  assert (Hval3 : Heap.read st3 (Heap.next st1)
                  = sortMarkers (filterBySeverity config (Heap.read st markers))).
  { unfold st3. rewrite read_write, Nat.eqb_refl. unfold st2.
    rewrite read_alloc, Nat.eqb_refl. unfold st1.
    now rewrite read_alloc, Nat.eqb_refl. }
  pose proof (applyCursorFilter_heap config position (S (Heap.next st)) st3
                (Heap.next st1)) as Hcursor.
  destruct (Heap.applyCursorFilter config position st3 (Heap.next st1)) as [st4 f4].
  destruct Hcursor as [Hframe4 [Hf4 Hval4]]; [lia|]. simpl in Hframe4, Hf4, Hval4.
  pose proof (limitMarkersPerLine_heap config (S (Heap.next st)) st4 f4 Hf4) as Hlimit.
  destruct (Heap.limitMarkersPerLine config st4 f4) as [st5 f5].
  destruct Hlimit as [Hframe5 [Hf5 Hval5]]. simpl in Hframe5, Hf5, Hval5. simpl.
  split; [|split].
  - apply (frame_trans _ _ st3); [exact Hframe3|].
    apply (frame_weaken _ (S (Heap.next st))); [lia|].
    now apply (frame_trans _ _ st4).
  - lia.
  - rewrite Hval5, Hval4, <- Hf3, Hval3. reflexivity.
Qed.

Lemma sortGroups_loop (grouped : Heap.Groups) :
  forall st,
    NoDup (map snd grouped) ->
    let st' := fold_left Heap.sortGroup grouped st in
    Heap.next st' = Heap.next st /\
    (forall a, ~ In a (map snd grouped) -> Heap.read st' a = Heap.read st a) /\
    groupValues st' grouped
    = map (fun entry => (fst entry, Js.sort DecorationManager.bySeverityDesc (snd entry)))
        (groupValues st grouped).
Proof.
  induction grouped as [|[k a] rest IH]; intros st Hnd.
  - simpl. repeat split.
  - inversion Hnd as [|? ? Ha Hrest]; subst. simpl fold_left.
    set (st1 := Heap.sortGroup st (k, a)).
    destruct (IH st1 Hrest) as [Hnext [Hcells Hvals]].
    assert (Hother : forall b, b <> a -> Heap.read st1 b = Heap.read st b).
    { intros b Hb. unfold st1, Heap.sortGroup. cbn [snd]. rewrite read_write.
      destruct (Nat.eqb_spec b a); [contradiction | reflexivity]. }
    split; [exact Hnext|]. split.
    + intros b Hb. simpl in Hb. rewrite Hcells by tauto. apply Hother.
      intros ->. apply Hb. now left.
    + simpl. f_equal.
      * cbn [fst snd]. rewrite (Hcells a Ha). unfold st1, Heap.sortGroup.
        cbn [snd]. now rewrite read_write, Nat.eqb_refl.
      * fold (groupValues (fold_left Heap.sortGroup rest st1) rest).
        fold (groupValues st rest). rewrite Hvals. f_equal.
        apply map_ext_in. intros [k' b] Hin. cbn [fst snd]. rewrite Hother; [reflexivity|].
        intros ->. apply Ha. apply in_map_iff. now exists (k', a).
Qed.

Lemma managerGroups_heap (st : Heap.Store) (markers : Heap.Addr) :
  let result := Heap.managerGroups st markers in
  frame (Heap.next st) st (fst result) /\
  groupValues (fst result) (snd result)
  = DecorationManager.groupMarkersByLine (Heap.read st markers).
Proof.
  unfold Heap.managerGroups, Heap.groupMarkersByLine,
    DecorationManager.groupMarkersByLine.
  pose proof (groupMarkersByLine_inv (Heap.next st) st (Heap.read st markers)
                (st, []) []) as Hinv.
  fold (groupMarkersByLine (Heap.read st markers)) in Hinv.
  destruct (fold_left Heap.pushOnLine (Heap.read st markers) (st, []))
    as [st1 grouped].
  destruct Hinv as [Hn1 [Hframe1 [Hvals [Hfresh Hnd]]]].
  { split; [simpl; lia|]. split; [apply frame_refl|]. split; [reflexivity|].
    split; constructor. }
  simpl in Hn1, Hframe1, Hvals, Hfresh, Hnd.
  destruct (sortGroups_loop grouped st1 Hnd) as [Hnext [Hcells Hsorted]].
  cbn [fst snd]. split.
  - apply (frame_trans _ _ st1); [exact Hframe1|]. split; [lia|].
    intros a Ha. apply Hcells. intros Hin. apply in_map_iff in Hin.
    destruct Hin as [[k b] [Heq Hin]]. simpl in Heq. subst b.
    rewrite Forall_forall in Hfresh. specialize (Hfresh _ Hin). simpl in Hfresh. lia.
  - now rewrite Hsorted, Hvals.
Qed.

(** C8. A recomputation works on copies.  Every array that existed
    before it, and so the array of markers obtained from the host, holds
    afterwards the same markers in the same order: the filtering pass
    copies the array before it sorts, and the groups built from the result,
    which the decoration manager sorts in place, are new arrays.  The array
    the pass returns is not the host's, and it and the groups hold what the
    functions of the pass compute from the host's markers. *)
Theorem recompute_leaves_snapshot (config : ErrorLensConfig)
    (position : option Position) (st : Heap.Store) (markers : Heap.Addr) :
  (markers < Heap.next st)%nat ->
  let result := Heap.recompute config position st markers in
  let filtered := fst (snd result) in
  let grouped := snd (snd result) in
  (forall a, (a < Heap.next st)%nat -> Heap.read (fst result) a = Heap.read st a) /\
  filtered <> markers /\
  Heap.read (fst result) filtered = filterMarkers config position (Heap.read st markers) /\
  groupValues (fst result) grouped
  = DecorationManager.groupMarkersByLine
      (filterMarkers config position (Heap.read st markers)).
Proof.
  intros Hm. unfold Heap.recompute.
  pose proof (filterMarkers_copies config position st markers Hm) as Hcopy.
  destruct (Heap.filterMarkers config position st markers) as [st1 f1].
  destruct Hcopy as [Hframe1 [Hf1 Hval1]]. simpl in Hframe1, Hf1, Hval1.
  pose proof (managerGroups_heap st1 f1) as Hgroups.
  destruct (Heap.managerGroups st1 f1) as [st2 grouped].
  destruct Hgroups as [Hframe2 Hvals]. simpl in Hframe2, Hvals. simpl.
  destruct Hframe1 as [Hn1 Hc1]. destruct Hframe2 as [Hn2 Hc2].
  split; [|split; [|split]].
  - intros a Ha. rewrite Hc2 by lia. now apply Hc1.
  - lia.
  - rewrite Hc2 by lia. exact Hval1.
  - now rewrite Hvals, Hval1.
Qed.

Definition sample_store : Heap.Store :=
  fst (Heap.alloc (Heap.mkStore (fun _ => []) 0%nat) sample_markers).

Lemma recompute_leaves_snapshot_witness :
  (0 < Heap.next sample_store)%nat /\
  Heap.read (fst (Heap.recompute DEFAULT_OPTIONS None sample_store 0%nat)) 0%nat
  = sample_markers.
Proof.
  split; [simpl; lia|].
  apply (recompute_leaves_snapshot DEFAULT_OPTIONS None sample_store 0%nat);
    simpl; lia.
Defined.

(** By contrast [sortMarkers] alone reorders the array it is given: the
    copy is what protects the snapshot. *)
Example sortMarkers_sorts_in_place :
  Heap.read (fst (Heap.sortMarkers sample_store 0%nat)) 0%nat <> sample_markers.
Proof. discriminate. Qed.

(** ** The orchestrator *)

Import MonacoErrorLens.

(** A page with the global [monaco], a bound model and three markers. *)
Definition sample_host : Host := {|
  has_getModelMarkers := true;
  has_onDidChangeMarkers := true;
  getModel := Ok (Some "file:///test.ts"%string);
  getPosition := Ok (Some (mkPosition 1 1));
  getModelMarkers := fun _ => Ok (Some (map Some sample_markers));
  deltaDecorations := fun _ batch => Ok (map (fun _ => "decoration"%string) batch);
  subscribe := fun _ => Ok tt;
  disposeListener := fun _ => Ok tt;
  has_document := true;
  has_window_monaco_Range := true
|}.

Definition noOptions : ErrorLensOptions :=
  mkErrorLensOptions None None None None None None None None None None None.

(** The same page while no model is bound to the editor. *)
Definition unbound_host : Host := {|
  has_getModelMarkers := true;
  has_onDidChangeMarkers := true;
  getModel := Ok None;
  getPosition := Ok None;
  getModelMarkers := fun _ => Ok None;
  deltaDecorations := fun _ batch => Ok (map (fun _ => "decoration"%string) batch);
  subscribe := fun _ => Ok tt;
  disposeListener := fun _ => Ok tt;
  has_document := true;
  has_window_monaco_Range := true
|}.

(** The instance that [new MonacoErrorLens(editor, monaco)] returns on
    the page without a model: enabled, subscribed to nothing, and with
    [undefined] in the two fields taken from [debounce]. *)
Definition sample_world : World :=
  fst (construct unbound_host noOptions (emptyWorld 0 false)).

Example construct_without_model :
  snd (construct unbound_host noOptions (emptyWorld 0 false)) = Ok tt /\
  isActive sample_world = true /\
  disposables (lens sample_world) = [] /\
  updateDecorations (lens sample_world) = Undefined /\
  cancelUpdateDecorations (lens sample_world) = Undefined.
Proof. repeat split. Qed.

(** With a model bound, the constructor subscribes and then calls
    [this.updateDecorations], which is [undefined]: [new] throws, and the
    listeners it has registered stay with the editor. *)
Example construct_with_model :
  let w := fst (construct sample_host noOptions (emptyWorld 0 false)) in
  snd (construct sample_host noOptions (emptyWorld 0 false))
  = Throw (TypeError "this.updateDecorations is not a function") /\
  disposables (lens w) = [MarkerListener; ModelListener] /\
  pending (timers w) = [] /\
  submitted w = [].
Proof. repeat split. Qed.

Example refresh_sample :
  let w := fst (refresh sample_host sample_world) in
  map (fun call => List.length (snd call)) (submitted w) = [3%nat] /\
  emitted w = [DecorationsUpdated 3 5 0].
Proof. split; reflexivity. Qed.

Local Open Scope lens_scope.

(** An array that holds marker records and no [null] is read without
    an exception. *)
Lemma markerObjects_records (markers : list MonacoMarkerData) :
  markerObjects (map Some markers) = Ok markers.
Proof. induction markers as [|m ms IH]; [reflexivity|]. simpl. now rewrite IH. Qed.

(** [{ followCursor: 'activeLine' }] *)
Definition followActiveLine : ErrorLensOptions :=
  mkErrorLensOptions None None None None (Some ActiveLine) None None None None None None.

(** C1, amended.  In [activeLine] mode, on an array of marker records
    and with an editor whose [getPosition] returns, the filtering pass
    returns without an exception and changes nothing.  When [getPosition]
    returns no position, the cursor filter is skipped, so the pass keeps
    what the severity filter, the sort and the per-line cap leave.  When it
    returns a position whose line number is not zero, the pass keeps the
    markers of allowed severity that start on the cursor line, in sorted
    order, cut to the per-line cap when that is positive; in particular
    every marker it keeps starts on the cursor line. *)
Theorem filterMarkers_activeLine (host : Host) (w : World)
    (position : option Position) (markers : list MonacoMarkerData) :
  let cfg := config (lens w) in
  followCursor cfg = ActiveLine ->
  getPosition host = Ok position ->
  filterMarkersOf host (map Some markers) w
  = (w, Ok (filterMarkers cfg position markers)) /\
  let sorted := sortMarkers (filterBySeverity cfg markers) in
  match position with
  | None => filterMarkers cfg None markers = limitMarkersPerLine cfg sorted
  | Some p =>
      lineNumber p <> 0 ->
      let onCursor := filter (onLine (lineNumber p)) sorted in
      filterMarkers cfg (Some p) markers
      = (if maxMarkersPerLine cfg >? 0
         then firstn (Z.to_nat (maxMarkersPerLine cfg)) onCursor
         else onCursor) /\
      (forall m, In m (filterMarkers cfg (Some p) markers) ->
                 startLineNumber m = lineNumber p) /\
      (maxMarkersPerLine cfg <= 0 ->
       forall m, In m (filterMarkers cfg (Some p) markers) <->
                 In m markers /\
                 Js.includes (severityFilter cfg) (severity m) = true /\
                 startLineNumber m = lineNumber p)
  end.
Proof.
  intros cfg Hmode Hposition. split.
  - unfold filterMarkersOf, bind, gets, ret, call.
    rewrite markerObjects_records. cbn [fst snd]. fold cfg. rewrite Hmode, Hposition.
    reflexivity.
  - exact (filterMarkers_activeLine_kept cfg position markers Hmode).
Qed.

(** An instance in [activeLine] mode, on the page without a model and
    without a cursor. *)
Definition activeLine_world : World :=
  fst (construct unbound_host followActiveLine (emptyWorld 0 false)).

Lemma filterMarkers_activeLine_witness :
  followCursor (config (lens activeLine_world)) = ActiveLine /\
  getPosition unbound_host = Ok None /\
  filterMarkersOf unbound_host (map Some sample_markers) activeLine_world
  = (activeLine_world,
     Ok (filterMarkers (config (lens activeLine_world)) None sample_markers)) /\
  filterMarkers (config (lens activeLine_world)) None sample_markers
  = limitMarkersPerLine (config (lens activeLine_world))
      (sortMarkers (filterBySeverity (config (lens activeLine_world)) sample_markers)).
Proof.
  split; [reflexivity|]. split; [reflexivity|].
  exact (filterMarkers_activeLine unbound_host activeLine_world None sample_markers
           eq_refl eq_refl).
Defined.

(** The batch that one recomputation hands to [deltaDecorations], when
    it gets that far: it depends on the host's answers, on the
    configuration and on the disposed flag, and on nothing else. *)
Definition recomputedBatch (host : Host) (l : Lens) : option (list MonacoDecoration) :=
  if isDisposed l || negb (enabled (config l)) then None
  else
    match getModel host with
    | Ok (Some uri) =>
        if has_getModelMarkers host && has_onDidChangeMarkers host then
          match getModelMarkers host uri with
          | Ok markers =>
              match markerObjects (match markers with Some ms => ms | None => [] end) with
              | Ok objects =>
                  match
                    match followCursor (config l) with
                    | ActiveLine => getPosition host
                    | AllLines => Ok None
                    end
                  with
                  | Ok position =>
                      Some (DecorationManager.createDecorations
                              (has_window_monaco_Range host) (config l)
                              (filterMarkers (config l) position objects))
                  | Throw _ => None
                  end
              | Throw _ => None
              end
          | Throw _ => None
          end
        else None
    | _ => None
    end.

(** The batches submitted between two worlds. *)
Definition batchesSince (w w' : World) : list (list MonacoDecoration) :=
  map snd (skipn (List.length (submitted w)) (submitted w')).

Lemma skipn_length_app {A : Type} (l1 l2 : list A) :
  skipn (List.length l1) (l1 ++ l2) = l2.
Proof. induction l1 as [|x l1 IH]; [reflexivity | exact IH]. Qed.

(** What a recomputation changes: it submits [recomputedBatch], if any,
    and leaves the configuration and the disposed flag alone. *)
Lemma refresh_effect (host : Host) (w : World) :
  let w' := fst (refresh host w) in
  submitted w'
  = submitted w ++ match recomputedBatch host (lens w) with
                   | Some batch => [(decorations (lens w), batch)]
                   | None => []
                   end /\
  config (lens w') = config (lens w) /\
  isDisposed (lens w') = isDisposed (lens w).
Proof.
  unfold refresh, updateDecorationsInternal, recomputedBatch, isMonacoInitialized,
    filterMarkersOf, manager_updateDecorations, editor_deltaDecorations.
  unfold bind, gets, ret, call, tryCatch, emit, modify. simpl.
  destruct (isDisposed (lens w) || negb (enabled (config (lens w))));
    [now rewrite app_nil_r|].
  destruct (getModel host) as [[uri|]|e]; simpl; try now rewrite app_nil_r.
  destruct (has_getModelMarkers host && has_onDidChangeMarkers host); simpl;
    [|now rewrite app_nil_r].
  destruct (getModelMarkers host uri) as [markers|e]; simpl; [|now rewrite app_nil_r].
  destruct (markerObjects (match markers with Some ms => ms | None => [] end))
    as [objects|e]; simpl; [|now rewrite app_nil_r].
  destruct (followCursor (config (lens w))); simpl.
  - destruct (deltaDecorations host _ _); simpl; auto.
  - destruct (getPosition host) as [position|e]; simpl; [|now rewrite app_nil_r].
    destruct (deltaDecorations host _ _); simpl; auto.
Qed.

(** One recomputation on an active instance, with a page that
    answers: Monaco's marker functions are there, the editor has a model
    and tells the cursor, and the marker query returns an array of marker
    records.  Then exactly one batch goes to [deltaDecorations], built from
    the filtered markers; whether [deltaDecorations] then throws does not
    matter for that. *)
Lemma refresh_submits (host : Host) (w : World) (uri : string)
    (position : option Position) (markers : list MonacoMarkerData) :
  isActive w = true ->
  has_getModelMarkers host = true ->
  has_onDidChangeMarkers host = true ->
  getModel host = Ok (Some uri) ->
  getPosition host = Ok position ->
  getModelMarkers host uri = Ok (Some (map Some markers)) ->
  recomputedBatch host (lens w)
  = Some (DecorationManager.createDecorations (has_window_monaco_Range host)
            (config (lens w)) (filterMarkers (config (lens w)) position markers)).
Proof.
  unfold isActive, recomputedBatch. intros Hactive Hget Hon Hmodel Hposition Hmarkers.
  apply andb_prop in Hactive. destruct Hactive as [Hd He].
  apply negb_true_iff in Hd. rewrite Hd, He, Hmodel, Hget, Hon, Hmarkers. simpl.
  rewrite markerObjects_records.
  destruct (followCursor (config (lens w))) eqn:Hmode; [|now rewrite Hposition].
  do 2 f_equal. unfold filterMarkers, applyCursorFilter. now rewrite Hmode.
Qed.

(** C9. Two calls of [refresh] in a row, with the host answering the
    same both times (same markers, same model, same cursor) and the
    configuration untouched, hand the editor the same decoration batches:
    same size, same content.  And on an active instance whose page
    answers (Monaco's marker functions, a model, the cursor, an array
    of marker records) each of the two calls hands the editor exactly one
    batch, the decorations built from the filtered markers. *)
Theorem refresh_twice_same_batch (host : Host) (w : World) (uri : string)
    (position : option Position) (markers : list MonacoMarkerData) :
  let w1 := fst (refresh host w) in
  let w2 := fst (refresh host w1) in
  (batchesSince w w1 = batchesSince w1 w2 /\
   map (@List.length MonacoDecoration) (batchesSince w w1)
   = map (@List.length MonacoDecoration) (batchesSince w1 w2) /\
   config (lens w2) = config (lens w)) /\
  (isActive w = true ->
   has_getModelMarkers host = true ->
   has_onDidChangeMarkers host = true ->
   getModel host = Ok (Some uri) ->
   getPosition host = Ok position ->
   getModelMarkers host uri = Ok (Some (map Some markers)) ->
   let batch :=
     DecorationManager.createDecorations (has_window_monaco_Range host)
       (config (lens w)) (filterMarkers (config (lens w)) position markers) in
   batchesSince w w1 = [batch] /\ batchesSince w1 w2 = [batch]).
Proof.
  intros w1 w2.
  destruct (refresh_effect host w) as [Hs1 [Hc1 Hd1]].
  destruct (refresh_effect host w1) as [Hs2 [Hc2 Hd2]].
  fold w1 in Hs1, Hc1, Hd1. fold w2 in Hs2, Hc2, Hd2.
  assert (Hsame : recomputedBatch host (lens w1) = recomputedBatch host (lens w)).
  { unfold recomputedBatch. now rewrite Hc1, Hd1. }
  assert (Hfirst : batchesSince w w1
                   = match recomputedBatch host (lens w) with
                     | Some batch => [batch]
                     | None => []
                     end).
  { unfold batchesSince. rewrite Hs1, skipn_length_app.
    destruct (recomputedBatch host (lens w)); reflexivity. }
  assert (Hsecond : batchesSince w1 w2
                    = match recomputedBatch host (lens w) with
                      | Some batch => [batch]
                      | None => []
                      end).
  { unfold batchesSince. rewrite Hs2, skipn_length_app, Hsame.
    destruct (recomputedBatch host (lens w)); reflexivity. }
  split.
  - split; [congruence|]. split; [congruence|]. congruence.
  - intros Hactive Hget Hon Hmodel Hposition Hmarkers batch.
    rewrite Hfirst, Hsecond.
    rewrite (refresh_submits host w uri position markers) by assumption.
    split; reflexivity.
Qed.

Lemma refresh_twice_same_batch_witness :
  isActive sample_world = true /\
  getModelMarkers sample_host "file:///test.ts" = Ok (Some (map Some sample_markers)) /\
  batchesSince sample_world (fst (refresh sample_host sample_world))
  = [DecorationManager.createDecorations true DEFAULT_OPTIONS
       (filterMarkers DEFAULT_OPTIONS (Some (mkPosition 1 1)) sample_markers)] /\
  batchesSince (fst (refresh sample_host sample_world))
    (fst (refresh sample_host (fst (refresh sample_host sample_world))))
  = [DecorationManager.createDecorations true DEFAULT_OPTIONS
       (filterMarkers DEFAULT_OPTIONS (Some (mkPosition 1 1)) sample_markers)].
Proof.
  split; [reflexivity|]. split; [reflexivity|].
  exact (proj2 (refresh_twice_same_batch sample_host sample_world "file:///test.ts"
                  (Some (mkPosition 1 1)) sample_markers)
           eq_refl eq_refl eq_refl eq_refl eq_refl eq_refl).
Defined.

(** The two batches of the sample page hold three decorations each, one
    for every line with a marker. *)
Example refresh_twice_sample :
  map (@List.length MonacoDecoration)
    (batchesSince sample_world (fst (refresh sample_host sample_world)))
  = [3%nat] /\
  map (@List.length MonacoDecoration)
    (batchesSince (fst (refresh sample_host sample_world))
       (fst (refresh sample_host (fst (refresh sample_host sample_world)))))
  = [3%nat].
Proof. split; reflexivity. Qed.

(** ** Exceptions and the lifecycle methods *)

(** An editor whose [deltaDecorations] throws, as Monaco's does once the
    bound model has been disposed. *)
Definition throwing_host : Host := {|
  has_getModelMarkers := true;
  has_onDidChangeMarkers := true;
  getModel := Ok (Some "file:///test.ts"%string);
  getPosition := Ok (Some (mkPosition 1 1));
  getModelMarkers := fun _ => Ok (Some (map Some sample_markers));
  deltaDecorations := fun _ _ => Throw (HostError "Model is disposed!");
  subscribe := fun _ => Ok tt;
  disposeListener := fun _ => Ok tt;
  has_document := true;
  has_window_monaco_Range := true
|}.

(** [{ enabled: false }] *)
Definition switchOff : ErrorLensOptions :=
  mkErrorLensOptions None None None None None None None None None None (Some false).

(** C6, as stated, fails.  On an enabled instance whose editor throws
    from [deltaDecorations], the recomputation reports the failure on the
    error channel and returns, but [disable], [toggle] and
    [updateOptions({enabled: false})] let the exception out and report
    nothing. *)
Lemma lifecycle_methods_propagate_host_exception :
  let w := sample_world in
  isActive w = true /\
  refresh throwing_host w
  = (mkWorld (lens w) (timers w) (stylesInjected w)
       [ErrorReported (HostError "Model is disposed!") "updateDecorationsInternal" 0]
       [([], DecorationManager.createDecorations true DEFAULT_OPTIONS
               (filterMarkers DEFAULT_OPTIONS None sample_markers))],
     Ok tt) /\
  snd (disable throwing_host w) = Throw (HostError "Model is disposed!") /\
  emitted (fst (disable throwing_host w)) = [] /\
  snd (toggle throwing_host w) = Throw (HostError "Model is disposed!") /\
  emitted (fst (toggle throwing_host w)) = [] /\
  snd (updateOptions throwing_host switchOff w) = Throw (HostError "Model is disposed!") /\
  emitted (fst (updateOptions throwing_host switchOff w)) = [].
Proof. repeat split. Qed.

Ltac run_lens :=
  unfold bind, gets, ret, call, tryCatch, emit, modify, throw; simpl.

(** [m] takes worlds in [P] to worlds in [P], however it ends. *)
Definition keeps {A : Type} (P : World -> Prop) (m : M A) : Prop :=
  forall w, P w -> P (fst (m w)).

Section Computations.
Context {A B : Type}.

Lemma keeps_ret (P : World -> Prop) (a : A) : keeps P (ret a).
Proof. intros w Hw. exact Hw. Qed.

Lemma keeps_gets (P : World -> Prop) (f : World -> A) : keeps P (gets f).
Proof. intros w Hw. exact Hw. Qed.

Lemma keeps_call (P : World -> Prop) (r : Result A) : keeps P (call r).
Proof. intros w Hw. exact Hw. Qed.

Lemma keeps_throw (P : World -> Prop) (e : JsError) : keeps P (@throw A e).
Proof. intros w Hw. exact Hw. Qed.

Lemma keeps_bind (P : World -> Prop) (m : M A) (f : A -> M B) :
  keeps P m -> (forall a, keeps P (f a)) -> keeps P (bind m f).
Proof.
  intros Hm Hf w Hw. unfold bind. specialize (Hm w Hw).
  destruct (m w) as [w' [a|e]]; simpl in Hm; [now apply Hf | exact Hm].
Qed.
End Computations.

Lemma keeps_modify (P : World -> Prop) (f : World -> World) :
  (forall w, P w -> P (f w)) -> keeps P (modify f).
Proof. intros Hf w Hw. now apply Hf. Qed.

Lemma keeps_tryCatch (P : World -> Prop) (body : M unit) (handler : JsError -> M unit) :
  keeps P body -> (forall e, keeps P (handler e)) -> keeps P (tryCatch body handler).
Proof.
  intros Hb Hh w Hw. unfold tryCatch. specialize (Hb w Hw).
  destruct (body w) as [w' [[]|e]]; simpl in Hb; [exact Hb | now apply Hh].
Qed.

Create HintDb lens discriminated.
#[local] Hint Resolve keeps_ret keeps_gets keeps_call keeps_throw : lens.

(** Split a computation along its binds and its branches. *)
Ltac step_lens :=
  match goal with
  | |- keeps _ (bind _ _) => apply keeps_bind; [|intros ?]
  | |- keeps _ (tryCatch _ _) => apply keeps_tryCatch; [|intros ?]
  | |- keeps _ (if ?c then _ else _) => destruct c
  | |- keeps _ (match ?x with _ => _ end) => destruct x
  end.

Ltac solve_lens := repeat (step_lens || (solve [eauto with lens])).

(** How one recomputation ends: it returns early, it fails inside the
    [try] block, or it submits a batch and counts. *)
Inductive RecomputeOutcome : Type :=
| Skipped
| Failed (error : JsError)
| Updated (decorationCount markerCount : nat).

Definition recomputeOutcome (host : Host) (l : Lens) : RecomputeOutcome :=
  if isDisposed l || negb (enabled (config l)) then Skipped
  else
    match getModel host with
    | Ok (Some uri) =>
        if has_getModelMarkers host && has_onDidChangeMarkers host then
          match getModelMarkers host uri with
          | Ok markers =>
              let markersArray := match markers with Some ms => ms | None => [] end in
              match markerObjects markersArray with
              | Ok objects =>
                  match
                    match followCursor (config l) with
                    | ActiveLine => getPosition host
                    | AllLines => Ok None
                    end
                  with
                  | Ok position =>
                      let batch :=
                        DecorationManager.createDecorations
                          (has_window_monaco_Range host) (config l)
                          (filterMarkers (config l) position objects) in
                      match deltaDecorations host (decorations l) batch with
                      | Ok _ => Updated (List.length batch) (List.length markersArray)
                      | Throw e => Failed e
                      end
                  | Throw e => Failed e
                  end
              | Throw e => Failed e
              end
          | Throw e => Failed e
          end
        else Skipped
    | _ => Skipped
    end.

Definition outcomeEvent (now : Z) (outcome : RecomputeOutcome) : list LensEvent :=
  match outcome with
  | Skipped => []
  | Failed e => [ErrorReported e "updateDecorationsInternal" now]
  | Updated decorationCount markerCount =>
      [DecorationsUpdated decorationCount markerCount now]
  end.

(** The recomputation returns to its caller and tells its outcome on the
    event channel, as long as [getModel] itself answers. *)
Lemma refresh_reports (host : Host) (w : World) :
  (exists model, getModel host = Ok model) ->
  snd (refresh host w) = Ok tt /\
  emitted (fst (refresh host w))
  = emitted w ++ outcomeEvent (clock (timers w)) (recomputeOutcome host (lens w)).
Proof.
  intros [model Hmodel].
  unfold refresh, updateDecorationsInternal, recomputeOutcome, isMonacoInitialized,
    filterMarkersOf, manager_updateDecorations, editor_deltaDecorations.
  run_lens. rewrite Hmodel.
  destruct (isDisposed (lens w) || negb (enabled (config (lens w))));
    [now rewrite app_nil_r|].
  destruct model as [uri|]; simpl; [|now rewrite app_nil_r].
  destruct (has_getModelMarkers host && has_onDidChangeMarkers host); simpl;
    [|now rewrite app_nil_r].
  destruct (getModelMarkers host uri) as [markers|e]; simpl; [|auto].
  destruct (markerObjects (match markers with Some ms => ms | None => [] end))
    as [objects|e]; simpl; [|auto].
  destruct (followCursor (config (lens w))); simpl.
  - destruct (deltaDecorations host _ _); simpl; auto.
  - destruct (getPosition host) as [position|e]; simpl; [|auto].
    destruct (deltaDecorations host _ _); simpl; auto.
Qed.

(** [clearDecorations]: the editor is asked to replace the decorations
    of the instance by none, and its answer, a value or an exception, is
    the answer of the call. *)
Lemma clearDecorations_outcome (host : Host) (w : World) :
  clearDecorations host w
  = let asked :=
      mkWorld (lens w) (timers w) (stylesInjected w) (emitted w)
        (submitted w ++ [(decorations (lens w), [])]) in
    match deltaDecorations host (decorations (lens w)) [] with
    | Ok ids => (withLens (setDecorations ids 0) asked, Ok tt)
    | Throw e => (asked, Throw e)
    end.
Proof.
  unfold clearDecorations, manager_clearDecorations, editor_deltaDecorations.
  run_lens. destruct (deltaDecorations host (decorations (lens w)) []); reflexivity.
Qed.

Lemma disable_outcome (host : Host) (w : World) :
  enabled (config (lens w)) = true ->
  disable host w
  = clearDecorations host
      (withLens (fun l => setConfig (setEnabled false (config l)) l) w).
Proof. intros He. unfold disable. run_lens. now rewrite He. Qed.

Lemma toggle_outcome (host : Host) (w : World) :
  enabled (config (lens w)) = true ->
  toggle host w
  = match disable host w with
    | (w', Ok _) => (w', Ok (enabled (config (lens w'))))
    | (w', Throw e) => (w', Throw e)
    end.
Proof. intros He. unfold toggle. run_lens. now rewrite He. Qed.

Lemma updateOptions_switchOff (host : Host) (newOptions : ErrorLensOptions) (w : World) :
  o_updateDelay newOptions = None -> o_enabled newOptions = Some false ->
  updateOptions host newOptions w
  = let merged :=
      withLens (fun l => setConfig (mergeOptions (config l) newOptions) l) w in
    if enabled (config (lens w)) then
      match clearDecorations host merged with
      | (w', Ok _) =>
          ((emit (StatusChanged false) ;;
            cfg <- gets (fun w => config (lens w)) ;; emit (ConfigUpdated cfg)) w')
      | (w', Throw e) => (w', Throw e)
      end
    else (cfg <- gets (fun w => config (lens w)) ;; emit (ConfigUpdated cfg)) merged.
Proof.
  intros Hdelay Henabled. unfold updateOptions. rewrite Hdelay, Henabled.
  unfold bind, gets, ret, modify. simpl.
  destruct (enabled (config (lens w))); simpl; [|reflexivity].
  destruct (clearDecorations host _) as [w' [[]|e]]; reflexivity.
Qed.

(** C6, amended.  [refresh] never lets out an exception raised while it
    queries, filters or decorates the markers: as long as [getModel]
    answers, it returns normally, and a failure inside the recomputation is
    reported as one [error] event.  [disable], [toggle] on an enabled
    instance and [updateOptions] with [enabled: false] and no
    [updateDelay] have no handler of their own: on an enabled instance
    they ask the editor to clear the decorations and return normally when
    [deltaDecorations] returns; when it throws, the exception reaches the
    caller and nothing is reported.  On a disabled instance [disable] and
    that [updateOptions] return normally. *)
Theorem lifecycle_exception_boundary (host : Host) (newOptions : ErrorLensOptions)
    (w : World) :
  ((exists model, getModel host = Ok model) ->
   snd (refresh host w) = Ok tt /\
   emitted (fst (refresh host w))
   = emitted w ++ outcomeEvent (clock (timers w)) (recomputeOutcome host (lens w))) /\
  (o_updateDelay newOptions = None -> o_enabled newOptions = Some false ->
   if enabled (config (lens w)) then
     match deltaDecorations host (decorations (lens w)) [] with
     | Ok _ =>
         snd (disable host w) = Ok tt /\
         snd (toggle host w) = Ok false /\
         snd (updateOptions host newOptions w) = Ok tt
     | Throw e =>
         (snd (disable host w) = Throw e /\
          emitted (fst (disable host w)) = emitted w) /\
         (snd (toggle host w) = Throw e /\
          emitted (fst (toggle host w)) = emitted w) /\
         (snd (updateOptions host newOptions w) = Throw e /\
          emitted (fst (updateOptions host newOptions w)) = emitted w)
     end
   else
     snd (disable host w) = Ok tt /\
     snd (updateOptions host newOptions w) = Ok tt).
Proof.
  split; [apply refresh_reports|].
  intros Hdelay Henabled.
  rewrite (updateOptions_switchOff host newOptions w Hdelay Henabled). cbv zeta.
  destruct (enabled (config (lens w))) eqn:He.
  - rewrite (toggle_outcome host w He), (disable_outcome host w He).
    rewrite !clearDecorations_outcome. cbv zeta. cbn [lens withLens decorations setConfig].
    destruct (deltaDecorations host (decorations (lens w)) []) as [ids|e];
      repeat split; reflexivity.
  - split; [|reflexivity]. unfold disable. run_lens. now rewrite He.
Qed.

Lemma lifecycle_exception_boundary_witness :
  (exists model, getModel throwing_host = Ok model) /\
  snd (refresh throwing_host sample_world) = Ok tt /\
  emitted (fst (refresh throwing_host sample_world))
  = [ErrorReported (HostError "Model is disposed!") "updateDecorationsInternal" 0] /\
  o_updateDelay switchOff = None /\ o_enabled switchOff = Some false /\
  snd (disable sample_host sample_world) = Ok tt /\
  snd (toggle sample_host sample_world) = Ok false /\
  snd (updateOptions sample_host switchOff sample_world) = Ok tt.
Proof.
  assert (Hmodel : exists model, getModel throwing_host = Ok model)
    by (eexists; reflexivity).
  destruct (proj1 (lifecycle_exception_boundary throwing_host switchOff sample_world)
              Hmodel) as [Hret Hevents].
  pose proof (proj2 (lifecycle_exception_boundary sample_host switchOff sample_world)
                eq_refl eq_refl) as Hoff.
  split; [exact Hmodel|]. split; [exact Hret|]. split; [exact Hevents|].
  split; [reflexivity|]. split; [reflexivity|]. exact Hoff.
Defined.

(** ** The debounced update *)

Lemma nth_setNth {A : Type} (l : list A) (n m : nat) (x default : A) :
  nth m (setNth n x l) default
  = if Nat.eqb m n && (n <? List.length l)%nat then x else nth m l default.
Proof.
  revert n m. induction l as [|y l IH]; intros n m.
  - simpl. destruct m, n; simpl; try reflexivity; now rewrite andb_false_r.
  - destruct n as [|n], m as [|m]; simpl; try reflexivity.
    rewrite IH. reflexivity.
Qed.

Lemma length_setNth_eq {A : Type} (l : list A) (n : nat) (x : A) :
  List.length (setNth n x l) = List.length l.
Proof.
  revert n. induction l as [|y l IH]; intros [|n]; simpl; try reflexivity.
  now rewrite IH.
Qed.

Lemma nth_length_app {A : Type} (l : list A) (x default : A) :
  nth (List.length l) (l ++ [x]) default = x.
Proof. induction l as [|y l IH]; [reflexivity | exact IH]. Qed.

(** The instance holds [undefined] in both fields taken from [debounce],
    and no timer is pending. *)
Definition undebounced (w : World) : Prop :=
  updateDecorations (lens w) = Undefined /\
  cancelUpdateDecorations (lens w) = Undefined /\
  pending (timers w) = [].

Lemma scheduleUpdate_undefined (w : World) :
  updateDecorations (lens w) = Undefined ->
  scheduleUpdate w = (w, Throw (TypeError "this.updateDecorations is not a function")).
Proof. intros Hu. unfold scheduleUpdate, bind, gets. simpl. now rewrite Hu. Qed.

Lemma cancelUpdate_undefined (w : World) :
  cancelUpdateDecorations (lens w) = Undefined ->
  cancelUpdate w
  = (w, Throw (TypeError "this.cancelUpdateDecorations is not a function")).
Proof. intros Hc. unfold cancelUpdate, bind, gets. simpl. now rewrite Hc. Qed.

Lemma keeps_scheduleUpdate_undebounced : keeps undebounced scheduleUpdate.
Proof. intros w Hw. rewrite scheduleUpdate_undefined by apply Hw. exact Hw. Qed.

Lemma keeps_cancelUpdate_undebounced : keeps undebounced cancelUpdate.
Proof. intros w Hw. rewrite cancelUpdate_undefined by apply Hw. exact Hw. Qed.

#[local] Hint Resolve keeps_scheduleUpdate_undebounced
  keeps_cancelUpdate_undebounced : lens.

(** A step that leaves the two fields and the pending timers as they
    are, or assigns [undefined] again. *)
Ltac undebounced_leaf :=
  match goal with
  | |- keeps undebounced (modify _) =>
      apply keeps_modify; intros ? Hw;
      first [exact Hw | destruct Hw as [_ [_ Hw]]; repeat split; exact Hw]
  | |- keeps undebounced (emit _) => intros ? Hw; exact Hw
  | |- keeps undebounced (debounce _) => intros ? Hw; exact Hw
  end.

Ltac solve_undebounced :=
  repeat (step_lens || undebounced_leaf || (solve [eauto with lens])).

Section Undebounced.
Variable host : Host.

Lemma keeps_clearDecorations_undebounced : keeps undebounced (clearDecorations host).
Proof.
  unfold clearDecorations, manager_clearDecorations, editor_deltaDecorations.
  solve_undebounced.
Qed.

Hint Resolve keeps_clearDecorations_undebounced : lens.

Lemma keeps_initialize_undebounced : keeps undebounced (initialize host).
Proof.
  unfold initialize, injectStyles, setupEventListeners, isMonacoInitialized,
    pushDisposable.
  solve_undebounced.
Qed.

Lemma keeps_refresh_undebounced : keeps undebounced (updateDecorationsInternal host).
Proof.
  unfold updateDecorationsInternal, isMonacoInitialized, filterMarkersOf,
    manager_updateDecorations, editor_deltaDecorations.
  solve_undebounced.
Qed.

Lemma keeps_disposeAll_undebounced (ds : list ListenerKind) :
  keeps undebounced (disposeAll host ds).
Proof. induction ds as [|d ds IH]; simpl; solve_undebounced. Qed.

Hint Resolve keeps_initialize_undebounced keeps_refresh_undebounced
  keeps_disposeAll_undebounced : lens.

Lemma keeps_enable_undebounced : keeps undebounced (enable host).
Proof. unfold enable. solve_undebounced. Qed.

Lemma keeps_disable_undebounced : keeps undebounced (disable host).
Proof. unfold disable. solve_undebounced. Qed.

Hint Resolve keeps_enable_undebounced keeps_disable_undebounced : lens.

Lemma keeps_toggle_undebounced : keeps undebounced (toggle host).
Proof. unfold toggle. solve_undebounced. Qed.

Lemma keeps_updateOptions_undebounced (newOptions : ErrorLensOptions) :
  keeps undebounced (updateOptions host newOptions).
Proof. unfold updateOptions. solve_undebounced. Qed.

Lemma keeps_dispose_undebounced : keeps undebounced (dispose host).
Proof. unfold dispose, removeAllListeners. solve_undebounced. Qed.

Lemma step_undebounced (a : Action) (w : World) :
  undebounced w -> undebounced (fst (step host a w)).
Proof.
  intros Hw. destruct a; simpl.
  - now apply keeps_enable_undebounced.
  - now apply keeps_disable_undebounced.
  - now apply keeps_toggle_undebounced.
  - now apply keeps_refresh_undebounced.
  - now apply keeps_updateOptions_undebounced.
  - now apply keeps_dispose_undebounced.
  - destruct (registered MarkerListener w); simpl; [|exact Hw].
    revert w Hw. change (keeps undebounced (onMarkersChanged host forThisModel)).
    unfold onMarkersChanged. solve_undebounced.
  - destruct (registered CursorListener w); simpl; [|exact Hw].
    now apply keeps_scheduleUpdate_undebounced.
  - destruct (registered ModelListener w); simpl; [|exact Hw].
    revert w Hw. change (keeps undebounced (onModelChanged host)).
    unfold onModelChanged. solve_undebounced.
  - unfold isDue. destruct Hw as [Hu [Hc Hp]]. rewrite Hp. simpl.
    repeat split; assumption.
  - exact Hw.
Qed.

Lemma construct_undebounced (options : ErrorLensOptions) (now : Z) (styles : bool) :
  undebounced (fst (construct host options (emptyWorld now styles))).
Proof.
  assert (Hkeeps : keeps undebounced (construct host options)).
  { unfold construct. solve_undebounced. }
  apply Hkeeps. repeat split.
Qed.
End Undebounced.

Lemma run_undebounced (trace : list (Host * Action)) (w : World) :
  undebounced w -> undebounced (fst (run trace w)).
Proof.
  revert w. induction trace as [|[host a] trace IH]; intros w Hw; [exact Hw|].
  simpl. pose proof (step_undebounced host a w Hw) as Hstep.
  destruct (step host a w) as [w1 fired1]. simpl in Hstep.
  specialize (IH w1 Hstep). destruct (run trace w1) as [w2 fired2]. exact IH.
Qed.

(** No timer ever fires for the instance. *)
Lemma run_fires_nothing (trace : list (Host * Action)) (w : World) :
  undebounced w -> snd (run trace w) = [].
Proof.
  revert w. induction trace as [|[host a] trace IH]; intros w Hw; [reflexivity|].
  simpl. pose proof (step_undebounced host a w Hw) as Hstep.
  assert (Hfired : snd (step host a w) = []).
  { destruct a; simpl; try reflexivity.
    - now destruct (registered MarkerListener w).
    - now destruct (registered CursorListener w).
    - now destruct (registered ModelListener w).
    - unfold isDue. destruct Hw as [_ [_ Hp]]. now rewrite Hp. }
  destruct (step host a w) as [w1 fired1]. simpl in Hstep, Hfired.
  specialize (IH w1 Hstep). destruct (run trace w1) as [w2 fired2].
  simpl in IH. simpl. now rewrite Hfired, IH.
Qed.

(** C7, on the code.  The [debounce] of utils.ts returns the debounced
    function alone, so the constructor finds no [cancel] (and no
    [debouncedFn]) in what it returns and stores [undefined].  On an
    instance built by the constructor, after any run of calls and events,
    [updateOptions] with an [updateDelay] therefore throws a [TypeError]
    at [this.cancelUpdateDecorations()]: the new delay is in the
    configuration by then, but no debounced function is built for it, no
    timer is cleared and none is started.  There is no timer to cancel
    either: none is ever pending, and none ever fires. *)
Theorem updateOptions_updateDelay_throws (page host : Host)
    (options newOptions : ErrorLensOptions) (now : Z) (styles : bool)
    (trace : list (Host * Action)) (delay : Z) :
  let w := fst (run trace (fst (construct page options (emptyWorld now styles)))) in
  let w' := fst (updateOptions host newOptions w) in
  o_updateDelay newOptions = Some delay ->
  snd (updateOptions host newOptions w)
  = Throw (TypeError "this.cancelUpdateDecorations is not a function") /\
  updateDelay (config (lens w')) = delay /\
  updateDecorations (lens w') = Undefined /\
  cancelUpdateDecorations (lens w') = Undefined /\
  timers w' = timers w /\
  pending (timers w) = [] /\
  snd (run trace (fst (construct page options (emptyWorld now styles)))) = [].
Proof.
  intros w w' Hdelay.
  assert (Hw : undebounced w).
  { apply run_undebounced, construct_undebounced. }
  assert (Hfired : snd (run trace (fst (construct page options (emptyWorld now styles))))
                   = [])
    by apply run_fires_nothing, construct_undebounced.
  destruct Hw as [Hu [Hc Hp]].
  assert (Hcall : updateOptions host newOptions w
                  = (withLens (fun l => setConfig (mergeOptions (config l) newOptions) l) w,
                     Throw (TypeError "this.cancelUpdateDecorations is not a function"))).
  { unfold updateOptions. rewrite Hdelay. cbv [bind gets modify].
    rewrite cancelUpdate_undefined by exact Hc. reflexivity. }
  unfold w'. rewrite Hcall. cbn [fst snd]. repeat split; try assumption.
  simpl. now rewrite Hdelay.
Qed.

(** [{ enabled: false }] and [{ updateDelay: 50 }] *)
Definition newDelay : ErrorLensOptions :=
  mkErrorLensOptions None None None None None None None None None (Some 50) None.

Lemma updateOptions_updateDelay_throws_witness :
  o_updateDelay newDelay = Some 50 /\
  snd (construct sample_host switchOff (emptyWorld 0 false)) = Ok tt /\
  snd (updateOptions sample_host newDelay
         (fst (construct sample_host switchOff (emptyWorld 0 false))))
  = Throw (TypeError "this.cancelUpdateDecorations is not a function").
Proof.
  split; [reflexivity|]. split; [reflexivity|].
  exact (proj1 (updateOptions_updateDelay_throws sample_host sample_host switchOff
                  newDelay 0 false [] 50 eq_refl)).
Defined.

(* ================================================================== *)
(** * Further properties of the utilities *)
(* ================================================================== *)

Local Close Scope lens_scope.

(** ** Grouping loses nothing *)

Lemma filter_disjoint_perm {A : Type} (p q : A -> bool) (l : list A) :
  (forall x, In x l -> p x = true -> q x = false) ->
  Permutation (filter p l ++ filter q l) (filter (fun x => p x || q x) l).
Proof.
  induction l as [|a l IH]; intros Hdisj; [constructor|].
  assert (IH' : Permutation (filter p l ++ filter q l) (filter (fun x => p x || q x) l)).
  { apply IH. intros x Hx. apply Hdisj. now right. }
  simpl. destruct (p a) eqn:Hp; simpl.
  - rewrite (Hdisj a (or_introl eq_refl) Hp). now constructor.
  - destruct (q a); [|exact IH'].
    apply Permutation_sym, Permutation_cons_app, Permutation_sym, IH'.
Qed.

(** The groups of the lines [keys], one after the other, hold the
    markers that start on one of these lines. *)
Lemma flat_map_groups_perm (markers : list MonacoMarkerData) (keys : list Z) :
  NoDup keys ->
  Permutation (flat_map (fun k => filter (onLine k) markers) keys)
    (filter (fun m => Js.includes keys (startLineNumber m)) markers).
Proof.
  induction 1 as [|k keys Hk Hnd IH]; simpl flat_map.
  - replace (filter (fun m => Js.includes [] (startLineNumber m)) markers)
      with (@nil MonacoMarkerData); [constructor|].
    induction markers as [|m markers IHm]; [reflexivity | exact IHm].
  - eapply perm_trans; [apply Permutation_app_head, IH|].
    eapply perm_trans; [apply filter_disjoint_perm|].
    + intros m _ Hon. apply Z.eqb_eq in Hon. apply includes_false. now rewrite Hon.
    + rewrite (filter_ext (fun m => onLine k m || Js.includes keys (startLineNumber m))
                 (fun m => Js.includes (k :: keys) (startLineNumber m)));
        [apply Permutation_refl | reflexivity].
Qed.

Lemma groups_perm (markers : list MonacoMarkerData) :
  Permutation (flat_map (fun k => filter (onLine k) markers) (linesOf markers)) markers.
Proof.
  eapply perm_trans; [apply flat_map_groups_perm, linesOf_NoDup|].
  rewrite forallb_filter_id; [apply Permutation_refl|].
  apply forallb_forall. intros m Hm. apply includes_In, linesOf_In. now exists m.
Qed.

(** X1. [groupMarkersByLine] partitions its input: the keys of the map
    are distinct, the group of a line is never empty and holds the markers
    that start on that line in their input order, every marker is in the
    group of its line, and the groups together are a rearrangement of the
    input. *)
Theorem groupMarkersByLine_partition (markers : list MonacoMarkerData) :
  let grouped := groupMarkersByLine markers in
  NoDup (map fst grouped) /\
  (forall line group, In (line, group) grouped ->
     group <> [] /\ group = filter (onLine line) markers) /\
  (forall m, In m markers ->
     In (startLineNumber m, filter (onLine (startLineNumber m)) markers) grouped) /\
  Permutation (List.concat (map snd grouped)) markers.
Proof.
  intros grouped. unfold grouped. rewrite groupMarkersByLine_groups.
  split; [|split; [|split]].
  - rewrite map_map. simpl. rewrite map_id. apply linesOf_NoDup.
  - intros line group Hin. apply in_map_iff in Hin. destruct Hin as [k [Heq Hk]].
    unfold groupOf in Heq. inversion Heq; subst. split; [|reflexivity].
    apply linesOf_In in Hk. destruct Hk as [m [Hm Hline]]. intros Hnil.
    assert (Hin : In m (filter (onLine line) markers)).
    { apply filter_In. split; [exact Hm | now apply Z.eqb_eq]. }
    rewrite Hnil in Hin. destruct Hin.
  - intros m Hm. apply in_map_iff. exists (startLineNumber m). split; [reflexivity|].
    apply linesOf_In. now exists m.
  - rewrite map_map. simpl. rewrite <- flat_map_concat_map. apply groups_perm.
Qed.

(** ** [countMarkersBySeverity] *)

(** The number of markers of severity [sev]. *)
Definition withSeverity (sev : Z) (markers : list MonacoMarkerData) : nat :=
  List.length (filter (fun m => severity m =? sev) markers).

Definition knownSeverity (sev : Z) : bool := Js.includes [8; 4; 2; 1] sev.

Lemma countMarkersBySeverity_fold (markers : list MonacoMarkerData) (acc : SeverityCounts) :
  fold_left
    (fun acc marker =>
       let s := severity marker in
       if s =? SEVERITY_LEVELS.ERROR then
         mkCounts (S (errors acc)) (warnings acc) (infos acc) (hints acc)
       else if s =? SEVERITY_LEVELS.WARNING then
         mkCounts (errors acc) (S (warnings acc)) (infos acc) (hints acc)
       else if s =? SEVERITY_LEVELS.INFO then
         mkCounts (errors acc) (warnings acc) (S (infos acc)) (hints acc)
       else if s =? SEVERITY_LEVELS.HINT then
         mkCounts (errors acc) (warnings acc) (infos acc) (S (hints acc))
       else acc)
    markers acc
  = mkCounts (errors acc + withSeverity 8 markers) (warnings acc + withSeverity 4 markers)
      (infos acc + withSeverity 2 markers) (hints acc + withSeverity 1 markers).
Proof.
  revert acc. induction markers as [|m markers IH]; intros acc.
  - destruct acc. unfold withSeverity. simpl. f_equal; lia.
  - cbn [fold_left]. rewrite IH. unfold withSeverity, SEVERITY_LEVELS.ERROR,
      SEVERITY_LEVELS.WARNING, SEVERITY_LEVELS.INFO, SEVERITY_LEVELS.HINT.
    cbn [filter]. cbv beta zeta.
    destruct (Z.eqb_spec (severity m) 8) as [E8|H8];
      destruct (Z.eqb_spec (severity m) 4) as [E4|H4];
      destruct (Z.eqb_spec (severity m) 2) as [E2|H2];
      destruct (Z.eqb_spec (severity m) 1) as [E1|H1];
      try (exfalso; lia);
      cbn [errors warnings infos hints List.length]; f_equal; lia.
Qed.

Lemma countMarkersBySeverity_eq (markers : list MonacoMarkerData) :
  countMarkersBySeverity markers
  = mkCounts (withSeverity 8 markers) (withSeverity 4 markers)
      (withSeverity 2 markers) (withSeverity 1 markers).
Proof. unfold countMarkersBySeverity. now rewrite countMarkersBySeverity_fold. Qed.

(** X2. Every counter of [countMarkersBySeverity] is the number of
    markers of its severity (8, 4, 2, 1), and the four counters add up to
    the number of markers that have one of these severities: a marker of
    any other severity is counted nowhere. *)
Theorem countMarkersBySeverity_counts (markers : list MonacoMarkerData) :
  let counts := countMarkersBySeverity markers in
  errors counts = withSeverity 8 markers /\
  warnings counts = withSeverity 4 markers /\
  infos counts = withSeverity 2 markers /\
  hints counts = withSeverity 1 markers /\
  (errors counts + warnings counts + infos counts + hints counts)%nat
  = List.length (filter (fun m => knownSeverity (severity m)) markers) /\
  (errors counts + warnings counts + infos counts + hints counts <= List.length markers)%nat.
Proof.
  intros counts. unfold counts. rewrite countMarkersBySeverity_eq. simpl.
  repeat (split; [reflexivity|]).
  assert (Hsum : (withSeverity 8 markers + withSeverity 4 markers + withSeverity 2 markers
                  + withSeverity 1 markers)%nat
                 = List.length (filter (fun m => knownSeverity (severity m)) markers)).
  { unfold withSeverity, knownSeverity. induction markers as [|m markers IH]; [reflexivity|].
    unfold Js.includes. cbn [filter existsb].
    destruct (Z.eqb_spec (severity m) 8) as [E8|H8];
      destruct (Z.eqb_spec (severity m) 4) as [E4|H4];
      destruct (Z.eqb_spec (severity m) 2) as [E2|H2];
      destruct (Z.eqb_spec (severity m) 1) as [E1|H1];
      try (exfalso; lia);
      cbn [orb List.length]; unfold Js.includes in IH; cbn [existsb] in IH; lia. }
  split; [exact Hsum|]. rewrite Hsum. apply filter_length_le.
Qed.

Lemma Permutation_filter_length {A : Type} (p : A -> bool) (l l' : list A) :
  Permutation l l' -> List.length (filter p l) = List.length (filter p l').
Proof.
  induction 1 as [|x l l' _ IH|x y l|l l' l'' _ IH1 _ IH2]; simpl.
  - reflexivity.
  - destruct (p x); simpl; congruence.
  - destruct (p x), (p y); reflexivity.
  - congruence.
Qed.

(** X3. The counts do not depend on the order of the markers: counting
    after [sortMarkers] gives what counting before it gives. *)
Theorem countMarkersBySeverity_sortMarkers (markers : list MonacoMarkerData) :
  countMarkersBySeverity (sortMarkers markers) = countMarkersBySeverity markers.
Proof.
  rewrite !countMarkersBySeverity_eq. unfold withSeverity.
  now rewrite !(Permutation_filter_length _ _ _ (sortMarkers_perm markers)).
Qed.

(** ** [mergeOptions] *)

Definition noColors : PartialColors := mkColors None None None None.

(** A severity of [colors] that is there with both channels. *)
Definition completePair (pair : option (ColorPair (option string))) : bool :=
  match pair with
  | Some {| background := Some _; foreground := Some _ |} => true
  | _ => false
  end.

Definition completeColors (colors : PartialColors) : bool :=
  completePair (c_error colors) && completePair (c_warning colors)
  && completePair (c_info colors) && completePair (c_hint colors).

(** [{ colors: {} }] *)
Definition emptyColors : ErrorLensOptions :=
  mkErrorLensOptions None None None None None None None None (Some noColors) None None.

(** What [mergeOptions] returns has every colour. *)
Lemma mergeOptions_completeColors (defaultOptions : ErrorLensConfig)
    (userOptions : ErrorLensOptions) :
  completeColors (colors (mergeOptions defaultOptions userOptions)) = true.
Proof. reflexivity. Qed.

(** A configuration that lacks a colour does not come back as it
    was: the literal colour of the source is filled in. *)
Example mergeOptions_fills_in_colour :
  let partial :=
    mkConfig true true true "{message}" AllLines 200 3 [8; 4; 2; 1]
      (mkColors None None None None) 100 true in
  mergeOptions partial noOptions = DEFAULT_OPTIONS /\
  mergeOptions partial noOptions <> partial.
Proof. split; [reflexivity | discriminate]. Qed.

(** X4. Merging no option changes nothing, as long as the
    configuration has all its colours: [mergeOptions(config, {})] and
    [mergeOptions(config, { colors: {} })] then give [config] back, field
    by field.  Every result of [mergeOptions] has all its colours, and so
    has [DEFAULT_OPTIONS]; hence the configuration of an instance, which is
    always such a result, is a fixed point. *)
Theorem mergeOptions_no_options (config defaultOptions : ErrorLensConfig)
    (userOptions : ErrorLensOptions) :
  (completeColors (colors config) = true ->
   mergeOptions config noOptions = config /\
   mergeOptions config emptyColors = config) /\
  mergeOptions (mergeOptions defaultOptions userOptions) noOptions
  = mergeOptions defaultOptions userOptions /\
  mergeOptions (mergeOptions defaultOptions userOptions) emptyColors
  = mergeOptions defaultOptions userOptions /\
  mergeOptions DEFAULT_OPTIONS noOptions = DEFAULT_OPTIONS.
Proof.
  assert (Hfixed : forall c, completeColors (colors c) = true ->
            mergeOptions c noOptions = c /\ mergeOptions c emptyColors = c).
  { intros [a b c d e f g h [ce cw ci ch] j k]. unfold completeColors. simpl.
    intros Hcomplete.
    destruct ce as [[[?|] [?|]]|], cw as [[[?|] [?|]]|], ci as [[[?|] [?|]]|],
      ch as [[[?|] [?|]]|]; try discriminate Hcomplete.
    split; reflexivity. }
  split; [apply Hfixed|].
  destruct (Hfixed (mergeOptions defaultOptions userOptions)
              (mergeOptions_completeColors _ _)) as [Hnone Hempty].
  split; [exact Hnone|]. split; [exact Hempty | reflexivity].
Qed.

Lemma mergeOptions_no_options_witness :
  completeColors (colors DEFAULT_OPTIONS) = true /\
  mergeOptions DEFAULT_OPTIONS noOptions = DEFAULT_OPTIONS /\
  mergeOptions DEFAULT_OPTIONS emptyColors = DEFAULT_OPTIONS.
Proof.
  split; [reflexivity|].
  exact (proj1 (mergeOptions_no_options DEFAULT_OPTIONS DEFAULT_OPTIONS noOptions)
           eq_refl).
Defined.

(** X5. [mergeOptions] is idempotent in the user options: merging the
    same options a second time, into the result of the first merge,
    changes nothing.  *)
Theorem mergeOptions_idempotent (defaultOptions : ErrorLensConfig)
    (userOptions : ErrorLensOptions) :
  mergeOptions (mergeOptions defaultOptions userOptions) userOptions
  = mergeOptions defaultOptions userOptions.
Proof.
  destruct userOptions as [a b c d e f g h colours j k].
  unfold mergeOptions. simpl.
  f_equal;
    try (match goal with |- orElse ?o _ = _ => destruct o; reflexivity end).
  destruct colours as [[ce cw ci ch]|]; [|reflexivity].
  unfold mergePair, mergeChannel, channelOf. simpl.
  destruct ce as [[[?|] [?|]]|], cw as [[[?|] [?|]]|], ci as [[[?|] [?|]]|],
    ch as [[[?|] [?|]]|]; reflexivity.
Qed.

(** ** [sortMarkers] on a sorted array *)

Section SortedInput.
Context {A : Type} (cmp : A -> A -> Z).

Lemma insert_least (x : A) (l : list A) :
  Forall (fun y => cmp x y <= 0) l -> Js.insert cmp x l = x :: l.
Proof.
  intros Hall. destruct Hall as [|y l Hy _]; [reflexivity|].
  simpl. destruct (Z.leb_spec (cmp x y) 0); [reflexivity | lia].
Qed.

Lemma sort_sorted_id (l : list A) : StronglySorted (cmp_le cmp) l -> Js.sort cmp l = l.
Proof.
  induction 1 as [|x l _ IH Hall]; [reflexivity|].
  simpl. rewrite IH. now apply insert_least.
Qed.
End SortedInput.

Lemma sortMarkers_sorted_id (markers : list MonacoMarkerData) :
  StronglySorted marker_le markers -> sortMarkers markers = markers.
Proof.
  intros Hs. apply sort_sorted_id.
  induction Hs as [|x l _ IH Hall]; constructor; [exact IH|].
  eapply Forall_impl; [|exact Hall]. intros y. apply compareMarkers_le.
Qed.

(** X6. [sortMarkers] returns an array that is already in order as it
    is, element for element; so sorting a second time changes nothing. *)
Theorem sortMarkers_fixed_point (markers : list MonacoMarkerData) :
  (StronglySorted marker_le markers -> sortMarkers markers = markers) /\
  sortMarkers (sortMarkers markers) = sortMarkers markers.
Proof.
  split; [apply sortMarkers_sorted_id|].
  apply sortMarkers_sorted_id, sortMarkers_sorted.
Qed.

Lemma sortMarkers_fixed_point_witness :
  StronglySorted marker_le [marker_at 1 8 "E"; marker_at 1 2 "I"; marker_at 2 4 "W"] /\
  sortMarkers [marker_at 1 8 "E"; marker_at 1 2 "I"; marker_at 2 4 "W"]
  = [marker_at 1 8 "E"; marker_at 1 2 "I"; marker_at 2 4 "W"].
Proof.
  assert (Hs : StronglySorted marker_le
                 [marker_at 1 8 "E"; marker_at 1 2 "I"; marker_at 2 4 "W"]).
  { repeat constructor; simpl; lia. }
  split; [exact Hs|].
  exact (proj1 (sortMarkers_fixed_point
                  [marker_at 1 8 "E"; marker_at 1 2 "I"; marker_at 2 4 "W"]) Hs).
Defined.

(** ** The length of a formatted message *)

Lemma substring_nonpositive (s : string) (n : Z) :
  n <= 0 -> Js.substring s 0 n = EmptyString.
Proof.
  intros Hn. unfold Js.substring, Js.clamp.
  replace (Z.max (Z.min (Z.max 0 0) (Z.of_nat (String.length s)))
             (Z.min (Z.max n 0) (Z.of_nat (String.length s)))
           - Z.min (Z.min (Z.max 0 0) (Z.of_nat (String.length s)))
               (Z.min (Z.max n 0) (Z.of_nat (String.length s)))) with 0 by lia.
  reflexivity.
Qed.

Lemma formatMessage_bound (marker : MonacoMarkerData) (template : string) (maxLength : Z) :
  maxLength <> 0 ->
  Z.of_nat (String.length (formatMessage marker template (Some maxLength)))
  <= Z.max maxLength 3 /\
  (maxLength < 0 -> formatMessage marker template (Some maxLength) = "..."%string).
Proof.
  intros Hn. unfold formatMessage. set (text := substituteTokens marker template).
  unfold Js.truthy. destruct (Z.eqb_spec maxLength 0) as [?|_]; [contradiction|]. simpl.
  destruct (Z.gtb_spec (Z.of_nat (String.length text)) maxLength) as [Hlong|Hshort].
  - destruct (Z.le_gt_cases (maxLength - 3) 0) as [Hsmall|Hbig].
    + rewrite substring_nonpositive by exact Hsmall. simpl. split; [lia | reflexivity].
    + rewrite substring_prefix by lia.
      rewrite length_append, length_take by lia. simpl. split; lia.
  - split; lia.
Qed.

(** X7. Whenever [maxLength] is not zero, the result of [formatMessage]
    has at most [max(maxLength, 3)] characters: a limit of 1 or 2 still
    lets the three dots through, and a negative limit turns every message
    into the three dots. *)
Theorem formatMessage_length_bound (marker : MonacoMarkerData) (template : string)
    (maxLength : Z) :
  maxLength <> 0 ->
  Z.of_nat (String.length (formatMessage marker template (Some maxLength)))
  <= Z.max maxLength 3 /\
  (maxLength < 0 -> formatMessage marker template (Some maxLength) = "..."%string).
Proof. apply formatMessage_bound. Qed.

Lemma formatMessage_length_bound_witness :
  200 <> 0 /\
  Z.of_nat (String.length
              (formatMessage (marker_at 1 8 "Unexpected token") "{message}" (Some 200)))
  <= Z.max 200 3.
Proof.
  split; [lia|].
  apply (formatMessage_length_bound (marker_at 1 8 "Unexpected token") "{message}" 200).
  lia.
Defined.

(* ================================================================== *)
(** * Further properties of the filtering pass *)
(* ================================================================== *)

(** ** Sorted lists *)

Lemma StronglySorted_app {A : Type} (R : A -> A -> Prop) (l1 l2 : list A) :
  StronglySorted R l1 -> StronglySorted R l2 ->
  (forall a b, In a l1 -> In b l2 -> R a b) ->
  StronglySorted R (l1 ++ l2).
Proof.
  induction 1 as [|x l1 Hs IH Hall]; intros Hs2 Hcross; [exact Hs2|].
  simpl. constructor.
  - apply IH; [exact Hs2|]. intros a b Ha Hb. apply Hcross; [now right | exact Hb].
  - apply Forall_app. split; [exact Hall|].
    apply Forall_forall. intros b Hb. apply Hcross; [now left | exact Hb].
Qed.

Lemma StronglySorted_snoc_inv {A : Type} (R : A -> A -> Prop) (l : list A) (x : A) :
  StronglySorted R (l ++ [x]) -> StronglySorted R l /\ Forall (fun y => R y x) l.
Proof.
  induction l as [|a l IH]; simpl; intros Hs; [split; constructor|].
  inversion Hs as [|? ? Hs' Hall]; subst.
  destruct (IH Hs') as [Hl Hx]. apply Forall_app in Hall. destruct Hall as [Hal Hax].
  split; constructor; auto. now inversion Hax.
Qed.

Lemma StronglySorted_firstn {A : Type} (R : A -> A -> Prop) (n : nat) (l : list A) :
  StronglySorted R l -> StronglySorted R (firstn n l).
Proof.
  intros Hs. revert n. induction Hs as [|x l Hs IH Hall]; intros [|n]; simpl;
    try constructor; [apply IH|].
  apply Forall_forall. intros y Hy. apply In_firstn in Hy.
  rewrite Forall_forall in Hall. now apply Hall.
Qed.

(** On an array in the order of [sortMarkers] the lines are met in
    increasing order. *)
Lemma linesOf_sorted (markers : list MonacoMarkerData) :
  StronglySorted marker_le markers -> StronglySorted Z.lt (linesOf markers).
Proof.
  induction markers as [|m markers IH] using rev_ind; intros Hs; [constructor|].
  apply StronglySorted_snoc_inv in Hs. destruct Hs as [Hs Hlast].
  rewrite linesOf_snoc. unfold addLine.
  destruct (Js.includes (linesOf markers) (startLineNumber m)) eqn:Hin; [now apply IH|].
  apply includes_false in Hin.
  apply StronglySorted_app; [now apply IH | repeat constructor|].
  intros k k' Hk [<-|[]]. pose proof Hk as Hk'.
  apply linesOf_In in Hk. destruct Hk as [x [Hx Hline]].
  rewrite Forall_forall in Hlast. destruct (Hlast x Hx) as [Hle _].
  assert (k <> startLineNumber m) by (intros ->; contradiction). lia.
Qed.

Lemma flat_map_lines_sorted (g : Z -> list MonacoMarkerData) (keys : list Z) :
  StronglySorted Z.lt keys ->
  (forall k, StronglySorted marker_le (g k)) ->
  (forall k m, In m (g k) -> startLineNumber m = k) ->
  StronglySorted marker_le (flat_map g keys).
Proof.
  intros Hkeys Hsorted Hline. induction Hkeys as [|k keys _ IH Hall]; [constructor|].
  simpl. apply StronglySorted_app; [apply Hsorted | exact IH|].
  intros a b Ha Hb. apply in_flat_map in Hb. destruct Hb as [k' [Hk' Hb]].
  rewrite Forall_forall in Hall. specialize (Hall k' Hk').
  apply Hline in Ha, Hb. unfold marker_le. lia.
Qed.

(** ** The per-line cap, line by line *)

Lemma limitMarkersPerLine_unfold (config : ErrorLensConfig)
    (filtered : list MonacoMarkerData) :
  0 < maxMarkersPerLine config ->
  limitMarkersPerLine config filtered
  = flat_map
      (fun k => firstn (Z.to_nat (maxMarkersPerLine config)) (filter (onLine k) filtered))
      (linesOf filtered).
Proof.
  intros Hpos. unfold limitMarkersPerLine.
  destruct (Z.gtb_spec (maxMarkersPerLine config) 0) as [_|?]; [|lia].
  rewrite groupMarkersByLine_groups, flat_map_concat_map, map_map, <- flat_map_concat_map.
  apply flat_map_ext. intros k. simpl. apply slice_prefix. lia.
Qed.

Lemma limitMarkersPerLine_sorted (config : ErrorLensConfig)
    (filtered : list MonacoMarkerData) :
  StronglySorted marker_le filtered ->
  StronglySorted marker_le (limitMarkersPerLine config filtered).
Proof.
  intros Hs. destruct (Z.lt_ge_cases 0 (maxMarkersPerLine config)) as [Hpos|Hle].
  - rewrite limitMarkersPerLine_unfold by exact Hpos.
    apply flat_map_lines_sorted.
    + now apply linesOf_sorted.
    + intros k. now apply StronglySorted_firstn, StronglySorted_filter.
    + intros k m Hm. apply In_firstn, filter_In in Hm. destruct Hm as [_ Hon].
      now apply Z.eqb_eq in Hon.
  - unfold limitMarkersPerLine.
    destruct (Z.gtb_spec (maxMarkersPerLine config) 0); [lia | exact Hs].
Qed.

Lemma flat_map_length_le {A B : Type} (f g : A -> list B) (l : list A) :
  (forall x, (List.length (f x) <= List.length (g x))%nat) ->
  (List.length (flat_map f l) <= List.length (flat_map g l))%nat.
Proof.
  intros Hle. induction l as [|x l IH]; simpl; [lia|].
  rewrite !length_app. specialize (Hle x). lia.
Qed.

Lemma limitMarkersPerLine_length (config : ErrorLensConfig)
    (filtered : list MonacoMarkerData) :
  (List.length (limitMarkersPerLine config filtered) <= List.length filtered)%nat.
Proof.
  destruct (Z.lt_ge_cases 0 (maxMarkersPerLine config)) as [Hpos|Hle].
  - rewrite limitMarkersPerLine_unfold by exact Hpos.
    rewrite <- (Permutation_length (groups_perm filtered)).
    apply flat_map_length_le. intros k. rewrite length_firstn. lia.
  - unfold limitMarkersPerLine.
    destruct (Z.gtb_spec (maxMarkersPerLine config) 0); [lia | apply Nat.le_refl].
Qed.

Lemma applyCursorFilter_incl (config : ErrorLensConfig) (position : option Position)
    (filtered : list MonacoMarkerData) (m : MonacoMarkerData) :
  In m (applyCursorFilter config position filtered) -> In m filtered.
Proof.
  unfold applyCursorFilter.
  destruct (followCursor config); [tauto|].
  destruct (currentLineOf position) as [currentLine|]; [|tauto].
  destruct (Js.truthy currentLine); [|tauto].
  intros Hin. apply filter_In in Hin. tauto.
Qed.

Lemma applyCursorFilter_length (config : ErrorLensConfig) (position : option Position)
    (filtered : list MonacoMarkerData) :
  (List.length (applyCursorFilter config position filtered) <= List.length filtered)%nat.
Proof.
  unfold applyCursorFilter.
  destruct (followCursor config); [lia|].
  destruct (currentLineOf position) as [currentLine|]; [|lia].
  destruct (Js.truthy currentLine); [apply filter_length_le | lia].
Qed.

Lemma filterMarkers_sorted (config : ErrorLensConfig) (position : option Position)
    (markers : list MonacoMarkerData) :
  StronglySorted marker_le (filterMarkers config position markers).
Proof.
  unfold filterMarkers.
  apply limitMarkersPerLine_sorted, applyCursorFilter_sorted, sortMarkers_sorted.
Qed.

Lemma filterMarkers_allowed (config : ErrorLensConfig) (position : option Position)
    (markers : list MonacoMarkerData) (m : MonacoMarkerData) :
  In m (filterMarkers config position markers) ->
  In m markers /\ Js.includes (severityFilter config) (severity m) = true.
Proof.
  unfold filterMarkers. intros Hin.
  apply limitMarkersPerLine_incl, applyCursorFilter_incl in Hin.
  apply (Permutation_in _ (Permutation_sym (sortMarkers_perm _))) in Hin.
  unfold filterBySeverity in Hin. apply filter_In in Hin. exact Hin.
Qed.

Lemma filterMarkers_length (config : ErrorLensConfig) (position : option Position)
    (markers : list MonacoMarkerData) :
  (List.length (filterMarkers config position markers) <= List.length markers)%nat.
Proof.
  unfold filterMarkers.
  eapply Nat.le_trans; [apply limitMarkersPerLine_length|].
  eapply Nat.le_trans; [apply applyCursorFilter_length|].
  rewrite <- (Permutation_length (sortMarkers_perm _)).
  apply filter_length_le.
Qed.

(** X8. Whatever the configuration and the cursor, the markers that the
    filtering pass returns are in the order of [sortMarkers] (lines never
    decrease, severities never increase within a line), each of them is a
    marker of the input whose severity is in [severityFilter], and there
    are no more of them than markers in the input. *)
Theorem filterMarkers_sorted_selection (config : ErrorLensConfig)
    (position : option Position) (markers : list MonacoMarkerData) :
  let kept := filterMarkers config position markers in
  StronglySorted marker_le kept /\
  (forall m, In m kept ->
     In m markers /\ Js.includes (severityFilter config) (severity m) = true) /\
  (List.length kept <= List.length markers)%nat.
Proof.
  intros kept. split; [apply filterMarkers_sorted|].
  split; [apply filterMarkers_allowed | apply filterMarkers_length].
Qed.

(** ** Filtering twice *)

Lemma includes_app (l1 l2 : list Z) (x : Z) :
  Js.includes (l1 ++ l2) x = Js.includes l1 x || Js.includes l2 x.
Proof. unfold Js.includes. apply existsb_app. Qed.

Lemma linesOf_app (a b : list MonacoMarkerData) :
  linesOf (a ++ b)
  = linesOf a ++ filter (fun k => negb (Js.includes (linesOf a) k)) (linesOf b).
Proof.
  induction b as [|m b IH] using rev_ind.
  - rewrite app_nil_r. simpl. now rewrite app_nil_r.
  - rewrite app_assoc, !linesOf_snoc, IH. unfold addLine.
    set (x := startLineNumber m). set (LA := linesOf a). set (LB := linesOf b).
    rewrite includes_app.
    destruct (Js.includes LA x) eqn:HA; simpl.
    + destruct (Js.includes LB x); [reflexivity|].
      rewrite filter_app. simpl. rewrite HA. simpl. now rewrite app_nil_r.
    + destruct (Js.includes LB x) eqn:HB.
      * replace (Js.includes (filter (fun k => negb (Js.includes LA k)) LB) x) with true;
          [reflexivity|].
        symmetry. apply includes_In, filter_In. split; [now apply includes_In|].
        now rewrite HA.
      * replace (Js.includes (filter (fun k => negb (Js.includes LA k)) LB) x) with false.
        -- rewrite filter_app. simpl. rewrite HA. simpl. now rewrite app_assoc.
        -- symmetry. apply includes_false. intros Hin. apply filter_In in Hin.
           destruct Hin as [Hin _]. apply includes_In in Hin. congruence.
Qed.

Lemma linesOf_uniform (k : Z) (l : list MonacoMarkerData) :
  l <> [] -> (forall m, In m l -> startLineNumber m = k) -> linesOf l = [k].
Proof.
  induction l as [|m l IH] using rev_ind; intros Hne Hline; [contradiction|].
  rewrite linesOf_snoc, (Hline m) by (apply in_or_app; right; now left).
  destruct l as [|m0 l]; [reflexivity|].
  rewrite IH; [|discriminate|].
  - unfold addLine, Js.includes. simpl. now rewrite Z.eqb_refl.
  - intros x Hx. apply Hline. apply in_or_app. now left.
Qed.

Lemma linesOf_flat_map (g : Z -> list MonacoMarkerData) (keys : list Z) :
  NoDup keys ->
  (forall k, In k keys -> g k <> []) ->
  (forall k m, In k keys -> In m (g k) -> startLineNumber m = k) ->
  linesOf (flat_map g keys) = keys.
Proof.
  induction 1 as [|k keys Hk Hnd IH]; intros Hne Hline; [reflexivity|].
  simpl flat_map. rewrite linesOf_app.
  rewrite (linesOf_uniform k); [|apply Hne; now left | intros m; apply Hline; now left].
  rewrite IH; [| intros k' Hk'; apply Hne; now right
               | intros k' m Hk'; apply Hline; now right].
  simpl. f_equal. apply forallb_filter_id, forallb_forall. intros x Hx.
  unfold Js.includes. simpl. destruct (Z.eqb_spec x k) as [->|_]; [contradiction|].
  reflexivity.
Qed.

Lemma limitMarkersPerLine_lines (config : ErrorLensConfig)
    (filtered : list MonacoMarkerData) :
  0 < maxMarkersPerLine config ->
  linesOf (limitMarkersPerLine config filtered) = linesOf filtered.
Proof.
  intros Hpos. rewrite limitMarkersPerLine_unfold by exact Hpos.
  apply linesOf_flat_map; [apply linesOf_NoDup | |].
  - intros k Hk Hnil. apply linesOf_In in Hk. destruct Hk as [m [Hm Hline]].
    assert (Hin : In m (filter (onLine k) filtered)).
    { apply filter_In. split; [exact Hm | now apply Z.eqb_eq]. }
    destruct (filter (onLine k) filtered) as [|m0 rest]; [destruct Hin|].
    destruct (Z.to_nat (maxMarkersPerLine config)) eqn:Hn; [lia | discriminate].
  - intros k m _ Hm. apply In_firstn, filter_In in Hm. destruct Hm as [_ Hon].
    now apply Z.eqb_eq in Hon.
Qed.

Lemma limitMarkersPerLine_idempotent (config : ErrorLensConfig)
    (filtered : list MonacoMarkerData) :
  limitMarkersPerLine config (limitMarkersPerLine config filtered)
  = limitMarkersPerLine config filtered.
Proof.
  destruct (Z.lt_ge_cases 0 (maxMarkersPerLine config)) as [Hpos|Hle].
  - rewrite (limitMarkersPerLine_unfold config (limitMarkersPerLine config filtered))
      by exact Hpos.
    rewrite limitMarkersPerLine_lines by exact Hpos.
    etransitivity; [|symmetry; apply limitMarkersPerLine_unfold; exact Hpos].
    apply flat_map_ext. intros k.
    rewrite limitMarkersPerLine_line by exact Hpos.
    now rewrite firstn_firstn, Nat.min_id.
  - unfold limitMarkersPerLine.
    destruct (Z.gtb_spec (maxMarkersPerLine config) 0); [lia | reflexivity].
Qed.

Lemma applyCursorFilter_limit (config : ErrorLensConfig) (position : option Position)
    (filtered : list MonacoMarkerData) :
  applyCursorFilter config position
    (limitMarkersPerLine config (applyCursorFilter config position filtered))
  = limitMarkersPerLine config (applyCursorFilter config position filtered).
Proof.
  unfold applyCursorFilter.
  destruct (followCursor config); [reflexivity|].
  destruct (currentLineOf position) as [currentLine|]; [|reflexivity].
  destruct (Js.truthy currentLine); [|reflexivity].
  apply forallb_filter_id, forallb_forall. intros m Hm.
  apply limitMarkersPerLine_incl, filter_In in Hm. tauto.
Qed.

(** X9. The filtering pass is idempotent: run on its own result, with
    the same configuration and the same cursor, it returns that result
    unchanged. *)
Theorem filterMarkers_idempotent (config : ErrorLensConfig)
    (position : option Position) (markers : list MonacoMarkerData) :
  filterMarkers config position (filterMarkers config position markers)
  = filterMarkers config position markers.
Proof.
  set (kept := filterMarkers config position markers).
  assert (Hsev : filterBySeverity config kept = kept).
  { apply forallb_filter_id, forallb_forall. intros m Hm.
    now apply (filterMarkers_allowed config position markers). }
  assert (Hsort : sortMarkers kept = kept)
    by apply sortMarkers_sorted_id, filterMarkers_sorted.
  unfold filterMarkers at 1. rewrite Hsev, Hsort.
  unfold kept, filterMarkers.
  now rewrite applyCursorFilter_limit, limitMarkersPerLine_idempotent.
Qed.

(** ** No cap *)

(** X10. A cap that is zero or negative is no cap: in [allLines] mode
    the pass then keeps every marker of an allowed severity, as often as
    the input has it, and only reorders them. *)
Theorem filterMarkers_without_cap (config : ErrorLensConfig)
    (position : option Position) (markers : list MonacoMarkerData) :
  maxMarkersPerLine config <= 0 ->
  followCursor config = AllLines ->
  filterMarkers config position markers = sortMarkers (filterBySeverity config markers) /\
  Permutation (filterMarkers config position markers)
    (filter (fun m => Js.includes (severityFilter config) (severity m)) markers).
Proof.
  intros Hcap Hmode.
  assert (Heq : filterMarkers config position markers
                = sortMarkers (filterBySeverity config markers)).
  { unfold filterMarkers, limitMarkersPerLine, applyCursorFilter. rewrite Hmode.
    destruct (Z.gtb_spec (maxMarkersPerLine config) 0); [lia | reflexivity]. }
  split; [exact Heq|]. rewrite Heq. apply Permutation_sym, sortMarkers_perm.
Qed.

Definition uncappedConfig : ErrorLensConfig :=
  mergeOptions DEFAULT_OPTIONS
    (mkErrorLensOptions None None None None None None (Some 0) None None None None).

Lemma filterMarkers_without_cap_witness :
  maxMarkersPerLine uncappedConfig <= 0 /\
  followCursor uncappedConfig = AllLines /\
  filterMarkers uncappedConfig None sample_markers
  = sortMarkers (filterBySeverity uncappedConfig sample_markers).
Proof.
  split; [simpl; lia|]. split; [reflexivity|].
  apply (filterMarkers_without_cap uncappedConfig None sample_markers);
    [simpl; lia | reflexivity].
Defined.

(* ================================================================== *)
(** * Further properties of the decorations *)
(* ================================================================== *)

(** The lines of a batch, in the order of the batch. *)
Definition decoratedLines (batch : list MonacoDecoration) : list Z :=
  map (fun d => range_startLineNumber (range d)) batch.

(** What holds of the decoration of every line holds along the batch:
    line by line, [createDecorations] hands the markers of the line, most
    severe first, to [createLineDecoration]. *)
Lemma createDecorations_Forall2 (config : ErrorLensConfig)
    (markers : list MonacoMarkerData) (P : Z -> MonacoDecoration -> Prop) :
  (forall line top rest d,
      In line (linesOf markers) ->
      Js.sort DecorationManager.bySeverityDesc (filter (onLine line) markers) = top :: rest ->
      DecorationManager.createLineDecoration true config line (top :: rest) = Some d ->
      P line d) ->
  Forall2 P (linesOf markers) (DecorationManager.createDecorations true config markers).
Proof.
  intros HP. rewrite createDecorations_unfold.
  assert (Hkeys : forall line, In line (linesOf markers) -> In line (linesOf markers))
    by auto.
  revert Hkeys. generalize (linesOf markers) at 1 3 4 as keys.
  induction keys as [|line keys IH]; intros Hkeys; [constructor|].
  simpl flat_map.
  assert (Hline : In line (linesOf markers)) by (apply Hkeys; now left).
  destruct (sort_bySeverityDesc_head (filter (onLine line) markers))
    as [top [rest [Hsort _]]].
  { apply linesOf_In in Hline. destruct Hline as [m [Hm Hl]]. intros Hnil.
    assert (Hin : In m (filter (onLine line) markers)).
    { apply filter_In. split; [exact Hm | now apply Z.eqb_eq]. }
    rewrite Hnil in Hin. destruct Hin. }
  rewrite Hsort.
  destruct (DecorationManager.createLineDecoration true config line (top :: rest))
    as [d|] eqn:Hd; [|discriminate].
  simpl. constructor.
  - now apply (HP line top rest).
  - apply IH. intros k Hk. apply Hkeys. now right.
Qed.

Lemma Forall2_right {A B : Type} (Q : B -> Prop) (l : list A) (l' : list B) :
  Forall2 (fun _ b => Q b) l l' -> Forall Q l'.
Proof. induction 1; constructor; assumption. Qed.

Lemma createDecorations_lines (config : ErrorLensConfig) (markers : list MonacoMarkerData) :
  decoratedLines (DecorationManager.createDecorations true config markers)
  = linesOf markers.
Proof.
  assert (H : Forall2 (fun line d => range_startLineNumber (range d) = line)
                (linesOf markers)
                (DecorationManager.createDecorations true config markers)).
  { apply createDecorations_Forall2. intros line top rest d _ _ Hd.
    simpl in Hd. inversion Hd. reflexivity. }
  unfold decoratedLines. induction H as [|line d keys batch Hd _ IH]; [reflexivity|].
  simpl. now rewrite Hd, IH.
Qed.

Lemma createDecorations_no_Range (config : ErrorLensConfig)
    (markers : list MonacoMarkerData) :
  DecorationManager.createDecorations false config markers = [].
Proof.
  rewrite createDecorations_unfold.
  induction (linesOf markers) as [|line keys IH]; [reflexivity|].
  simpl flat_map. rewrite IH. unfold DecorationManager.createLineDecoration.
  destruct (Js.sort DecorationManager.bySeverityDesc (filter (onLine line) markers));
    reflexivity.
Qed.

Lemma linesOf_length (markers : list MonacoMarkerData) :
  (List.length (linesOf markers) <= List.length markers)%nat.
Proof.
  rewrite <- (length_map startLineNumber markers).
  apply NoDup_incl_length; [apply linesOf_NoDup|].
  intros k Hk. apply linesOf_In in Hk. destruct Hk as [m [Hm <-]]. now apply in_map.
Qed.

Lemma createDecorations_length (hasRange : bool) (config : ErrorLensConfig)
    (markers : list MonacoMarkerData) :
  (List.length (DecorationManager.createDecorations hasRange config markers)
   <= List.length markers)%nat.
Proof.
  destruct hasRange.
  - rewrite <- (length_map (fun d => range_startLineNumber (range d))).
    fold (decoratedLines (DecorationManager.createDecorations true config markers)).
    rewrite createDecorations_lines. apply linesOf_length.
  - rewrite createDecorations_no_Range. simpl. lia.
Qed.

(** X11. The batch built from the result of the filtering pass is in
    ascending line order: the lines of its decorations increase strictly
    from one decoration to the next, so no two of them are on one line; and
    it never holds more decorations than the host gave markers. *)
Theorem decorations_ascending_lines (hasRange : bool) (config : ErrorLensConfig)
    (position : option Position) (markers : list MonacoMarkerData) :
  let batch :=
    DecorationManager.createDecorations hasRange config
      (filterMarkers config position markers) in
  StronglySorted Z.lt (decoratedLines batch) /\
  (List.length batch <= List.length markers)%nat.
Proof.
  intros batch. split.
  - unfold batch. destruct hasRange.
    + rewrite createDecorations_lines. apply linesOf_sorted, filterMarkers_sorted.
    + rewrite createDecorations_no_Range. constructor.
  - eapply Nat.le_trans; [apply createDecorations_length | apply filterMarkers_length].
Qed.

(** ** The marker a line's decoration speaks for *)

(** [p] is the first of the most severe markers that start on [line],
    in the order of [markers]: those before it on the line are less
    severe, those after it are not more severe. *)
Definition primaryOf (markers : list MonacoMarkerData) (line : Z)
    (p : MonacoMarkerData) : Prop :=
  exists before rest,
    filter (onLine line) markers = before ++ p :: rest /\
    (forall m, In m before -> severity m < severity p) /\
    (forall m, In m rest -> severity m <= severity p).

Lemma filter_head_split {A : Type} (p : A -> bool) (l : list A) (x : A) (tl : list A) :
  filter p l = x :: tl ->
  exists before rest, l = before ++ x :: rest /\ (forall y, In y before -> p y = false).
Proof.
  induction l as [|a l IH]; simpl; [discriminate|].
  destruct (p a) eqn:Hp.
  - intros Heq. inversion Heq; subst. exists [], l. split; [reflexivity|]. intros y [].
  - intros Heq. destruct (IH Heq) as [before [rest [-> Hbefore]]].
    exists (a :: before), rest. split; [reflexivity|].
    intros y [<-|Hy]; [exact Hp | now apply Hbefore].
Qed.

(** The head of a group after the sort of the decoration manager. *)
Lemma sort_bySeverityDesc_primary (group : list MonacoMarkerData)
    (top : MonacoMarkerData) (tl : list MonacoMarkerData) :
  Js.sort DecorationManager.bySeverityDesc group = top :: tl ->
  exists before rest,
    group = before ++ top :: rest /\
    (forall m, In m before -> severity m < severity top) /\
    (forall m, In m rest -> severity m <= severity top).
Proof.
  intros Hsort.
  assert (Hne : group <> []) by (intros ->; discriminate).
  destruct (sort_bySeverityDesc_head group Hne) as [top' [tl' [Hsort' [_ Hmax]]]].
  rewrite Hsort in Hsort'. inversion Hsort'; subst top' tl'.
  pose proof (sort_stable DecorationManager.bySeverityDesc
                (fun m => severity m =? severity top)) as Hstable.
  specialize (Hstable
    (fun a b Ha Hb =>
       ltac:(apply Z.eqb_eq in Ha, Hb; unfold DecorationManager.bySeverityDesc; lia))
    group).
  rewrite Hsort in Hstable. simpl in Hstable. rewrite Z.eqb_refl in Hstable.
  symmetry in Hstable. apply filter_head_split in Hstable.
  destruct Hstable as [before [rest [-> Hbefore]]].
  exists before, rest. split; [reflexivity|]. split.
  - intros m Hm. specialize (Hbefore m Hm). apply Z.eqb_neq in Hbefore.
    assert (severity m <= severity top) by (apply Hmax, in_or_app; now left). lia.
  - intros m Hm. apply Hmax, in_or_app. right. now right.
Qed.

(** X12. The inline message of a line's decoration is the formatted
    message of the line's primary marker: the most severe marker of the
    line and, when several are equally severe, the one that comes first in
    the array handed to the decoration manager. *)
Theorem inline_message_of_primary_marker (config : ErrorLensConfig)
    (markers : list MonacoMarkerData) :
  Forall2
    (fun line d =>
       exists p,
         primaryOf markers line p /\
         after (options d)
         = if enableInlineMessages config then
             Some {| content :=
                       formatMessage p (messageTemplate config)
                         (Some (maxMessageLength config));
                     inlineClassName :=
                       DecorationManager.classPair CSS_CLASSES.MESSAGE
                         (getSeverityClass (severity p)) |}
           else None)
    (linesOf markers)
    (DecorationManager.createDecorations true config markers).
Proof.
  apply createDecorations_Forall2. intros line top rest d _ Hsort Hd.
  exists top. split; [exact (sort_bySeverityDesc_primary _ _ _ Hsort)|].
  simpl in Hd. inversion Hd. reflexivity.
Qed.

Lemma createHoverMessage_concat (markers : list MonacoMarkerData) :
  DecorationManager.createHoverMessage markers
  = String.concat (DecorationManager.newline ++ DecorationManager.newline)
      (map DecorationManager.hoverLine markers).
Proof. destruct markers as [|m [|m' markers]]; reflexivity. Qed.

Lemma sort_bySeverityDesc_sorted (group : list MonacoMarkerData) :
  StronglySorted (fun a b => severity b <= severity a)
    (Js.sort DecorationManager.bySeverityDesc group).
Proof.
  pose proof (sort_sorted DecorationManager.bySeverityDesc bySeverityDesc_total
                bySeverityDesc_trans group) as Hs.
  induction Hs as [|x l _ IH Hall]; constructor; [exact IH|].
  eapply Forall_impl; [|exact Hall]. intros y Hy.
  unfold cmp_le, DecorationManager.bySeverityDesc in Hy. lia.
Qed.

(** X13. The hover message of a line's decoration has one entry for
    every marker of that line in the array handed to the decoration
    manager, the most severe first, the entries separated by an empty
    line; with one marker it is that marker's entry alone. *)
Theorem hover_message_lists_the_line (config : ErrorLensConfig)
    (markers : list MonacoMarkerData) :
  Forall2
    (fun line d =>
       exists entries,
         hoverMessage (options d)
         = Some (String.concat (DecorationManager.newline ++ DecorationManager.newline)
                   (map DecorationManager.hoverLine entries)) /\
         Permutation entries (filter (onLine line) markers) /\
         StronglySorted (fun a b => severity b <= severity a) entries)
    (linesOf markers)
    (DecorationManager.createDecorations true config markers).
Proof.
  apply createDecorations_Forall2. intros line top rest d _ Hsort Hd.
  exists (top :: rest). split; [|split].
  - assert (Hhover : hoverMessage (options d)
                     = Some (DecorationManager.createHoverMessage (top :: rest))).
    { unfold DecorationManager.createLineDecoration in Hd. cbv beta iota zeta in Hd.
      now inversion Hd. }
    now rewrite Hhover, createHoverMessage_concat.
  - rewrite <- Hsort. apply Permutation_sym, sort_perm.
  - rewrite <- Hsort. apply sort_bySeverityDesc_sorted.
Qed.

(** ** Severity classes *)

Definition knownClasses : list string := ["error"; "warning"; "info"; "hint"]%string.

Lemma getSeverityClass_known (sev : Z) :
  knownSeverity sev = true -> In (getSeverityClass sev) knownClasses.
Proof.
  unfold knownSeverity, Js.includes, getSeverityClass, SEVERITY_LEVELS.ERROR,
    SEVERITY_LEVELS.WARNING, SEVERITY_LEVELS.INFO, SEVERITY_LEVELS.HINT, knownClasses.
  cbn [existsb].
  destruct (Z.eqb_spec sev 8); [intros _; now left|].
  destruct (Z.eqb_spec sev 4); [intros _; right; now left|].
  destruct (Z.eqb_spec sev 2); [intros _; right; right; now left|].
  destruct (Z.eqb_spec sev 1); [intros _; right; right; right; now left|].
  discriminate.
Qed.

(** X14. When the severity filter holds only the four known severities
    (as the default filter does), every class name of every decoration
    built from the result of the filtering pass ends in one of [error],
    [warning], [info], [hint]: the class [unknown], which has no style, is
    never used. *)
Theorem pipeline_classes_are_known (config : ErrorLensConfig)
    (position : option Position) (markers : list MonacoMarkerData) :
  (forall sev, In sev (severityFilter config) -> knownSeverity sev = true) ->
  Forall
    (fun d =>
       exists class,
         In class knownClasses /\
         className (options d)
         = (if enableLineHighlights config
            then Some (DecorationManager.classPair CSS_CLASSES.LINE class) else None) /\
         option_map inlineClassName (after (options d))
         = (if enableInlineMessages config
            then Some (DecorationManager.classPair CSS_CLASSES.MESSAGE class) else None) /\
         glyphMarginClassName (options d)
         = (if enableGutterIcons config
            then Some (DecorationManager.classPair CSS_CLASSES.GUTTER class) else None))
    (DecorationManager.createDecorations true config
       (filterMarkers config position markers)).
Proof.
  intros Hknown.
  apply (Forall2_right _ (linesOf (filterMarkers config position markers))).
  apply createDecorations_Forall2. intros line top rest d _ Hsort Hd.
  exists (getSeverityClass (severity top)). split.
  - apply getSeverityClass_known, Hknown.
    assert (Hin : In top (filterMarkers config position markers)).
    { assert (Htop : In top (Js.sort DecorationManager.bySeverityDesc
                               (filter (onLine line)
                                  (filterMarkers config position markers))))
        by (rewrite Hsort; now left).
      apply (Permutation_in _ (Permutation_sym (sort_perm _ _))) in Htop.
      apply filter_In in Htop. tauto. }
    apply filterMarkers_allowed in Hin. destruct Hin as [_ Hsev].
    now apply includes_In.
  - simpl in Hd. inversion Hd. simpl.
    destruct (enableLineHighlights config), (enableInlineMessages config),
      (enableGutterIcons config); repeat split.
Qed.

Lemma pipeline_classes_are_known_witness :
  (forall sev, In sev (severityFilter DEFAULT_OPTIONS) -> knownSeverity sev = true) /\
  Forall
    (fun d => exists class, In class knownClasses /\
                className (options d)
                = Some (DecorationManager.classPair CSS_CLASSES.LINE class))
    (DecorationManager.createDecorations true DEFAULT_OPTIONS
       (filterMarkers DEFAULT_OPTIONS None sample_markers)).
Proof.
  assert (Hknown : forall sev, In sev (severityFilter DEFAULT_OPTIONS) ->
                               knownSeverity sev = true).
  { intros sev [<-|[<-|[<-|[<-|[]]]]]; reflexivity. }
  split; [exact Hknown|].
  eapply Forall_impl;
    [|exact (pipeline_classes_are_known DEFAULT_OPTIONS None sample_markers Hknown)].
  intros d [class [Hclass [Hname _]]]. exists class. split; [exact Hclass | exact Hname].
Defined.

(* ================================================================== *)
(** * Further properties of [debounce] and [throttle] *)
(* ================================================================== *)

Local Open Scope lens_scope.

Lemma snoc_cases {A : Type} (l : list A) : l = [] \/ exists l' x, l = l' ++ [x].
Proof.
  induction l as [|x l _] using rev_ind; [now left | right; now exists l, x].
Qed.

(** ** [debounce]: [func] runs after a quiet period only *)

(** Time passes. *)
Definition advance (dt : Z) : M unit :=
  modify (withTimers (fun t =>
    mkTimers (debouncers t) (pending t) (nextTimer t) (clock t + Z.max 0 dt))).

(** What can happen to one debounced function: it is called, time
    passes, a timer of the page fires (if it is pending and due). *)
Inductive DebounceEvent : Type :=
| Invoke
| Wait (dt : Z)
| Expire (id : nat).

Inductive Logged : Type :=
| Called (time : Z)
| Executed (time : Z).

(** A closure under observation: the page, the calls of the debounced
    function and the executions of [func] with their times, and the
    timers that the closure has started. *)
Record Observed : Type := mkObserved {
  page : World;
  history : list Logged;
  started : list nat
}.

(** The callback of a timer started by the closure executes [func]; a
    timer that fires is pending no longer. *)
Definition observe (d : nat) (o : Observed) (e : DebounceEvent) : Observed :=
  let w := page o in
  match e with
  | Invoke =>
      mkObserved (fst (debouncedFn d w)) (history o ++ [Called (clock (timers w))])
        (started o ++ [nextTimer (timers w)])
  | Wait dt => mkObserved (fst (advance dt w)) (history o) (started o)
  | Expire id =>
      if isDue id w then
        mkObserved (fst (clearTimeout id w))
          (if existsb (Nat.eqb id) (started o)
           then history o ++ [Executed (clock (timers w))]
           else history o)
          (started o)
      else o
  end.

Definition observeAll (d : nat) (events : list DebounceEvent) (o : Observed) : Observed :=
  fold_left (observe d) events o.

(** Every execution comes right after a call, with nothing in between,
    and at least [delay] later. *)
Definition quiet (delay : Z) (log : list Logged) : Prop :=
  forall before t rest,
    log = before ++ Executed t :: rest ->
    exists earlier t0, before = earlier ++ [Called t0] /\ t0 + Z.max 0 delay <= t.

Lemma quiet_called (delay : Z) (log : list Logged) (t0 : Z) :
  quiet delay log -> quiet delay (log ++ [Called t0]).
Proof.
  intros Hq before t rest Heq.
  destruct (snoc_cases rest) as [->|[rest' [x ->]]].
  - apply app_inj_tail in Heq. destruct Heq as [_ Heq]. discriminate.
  - change (before ++ Executed t :: rest' ++ [x])
      with (before ++ (Executed t :: rest') ++ [x]) in Heq.
    rewrite app_assoc in Heq. apply app_inj_tail in Heq. destruct Heq as [Heq _].
    exact (Hq before t rest' Heq).
Qed.

Lemma quiet_executed (delay : Z) (earlier : list Logged) (t0 t : Z) :
  quiet delay (earlier ++ [Called t0]) -> t0 + Z.max 0 delay <= t ->
  quiet delay ((earlier ++ [Called t0]) ++ [Executed t]).
Proof.
  intros Hq Hle before t' rest Heq.
  destruct (snoc_cases rest) as [->|[rest' [x ->]]].
  - apply app_inj_tail in Heq. destruct Heq as [<- Heq]. inversion Heq; subst.
    now exists earlier, t0.
  - change (before ++ Executed t' :: rest' ++ [x])
      with (before ++ (Executed t' :: rest') ++ [x]) in Heq.
    rewrite app_assoc in Heq. apply app_inj_tail in Heq. destruct Heq as [Heq _].
    exact (Hq before t' rest' Heq).
Qed.

(** One call of the debounced function: the timer remembered by the
    closure is cleared, a new one is started and remembered. *)
Lemma debouncedFn_effect (d : nat) (w : World) :
  timers (fst (debouncedFn d w))
  = mkTimers
      (setNth d (mkDebouncer (wait (closureOf d w)) (Some (nextTimer (timers w))))
         (debouncers (timers w)))
      (match timeout (closureOf d w) with
       | Some id => filter (fun tm => negb (Nat.eqb (timer_id tm) id)) (pending (timers w))
       | None => pending (timers w)
       end ++ [mkTimer (nextTimer (timers w))
                 (clock (timers w) + Z.max 0 (wait (closureOf d w)))])
      (S (nextTimer (timers w))) (clock (timers w)).
Proof.
  unfold debouncedFn, clearTimeout, setTimeout, assignTimeout, bind, gets, modify, ret.
  destruct (timeout (closureOf d w)); reflexivity.
Qed.

Definition debounceInv (d : nat) (delay : Z) (o : Observed) : Prop :=
  (d < List.length (debouncers (timers (page o))))%nat /\
  wait (closureOf d (page o)) = delay /\
  (forall id, In id (started o) -> (id < nextTimer (timers (page o)))%nat) /\
  (forall tm, In tm (pending (timers (page o))) ->
              (timer_id tm < nextTimer (timers (page o)))%nat) /\
  (forall tm, In tm (pending (timers (page o))) -> In (timer_id tm) (started o) ->
              timeout (closureOf d (page o)) = Some (timer_id tm) /\
              exists earlier t0,
                history o = earlier ++ [Called t0] /\
                timer_due tm = t0 + Z.max 0 delay) /\
  quiet delay (history o).

Lemma isDue_timer (id : nat) (w : World) :
  isDue id w = true ->
  exists tm, In tm (pending (timers w)) /\ timer_id tm = id /\
             timer_due tm <= clock (timers w).
Proof.
  unfold isDue. rewrite existsb_exists. intros [tm [Hin Hdue]].
  apply andb_true_iff in Hdue. destruct Hdue as [Hid Hle].
  apply Nat.eqb_eq in Hid. apply Z.leb_le in Hle. now exists tm.
Qed.

Lemma observe_inv (d : nat) (delay : Z) (o : Observed) (e : DebounceEvent) :
  debounceInv d delay o -> debounceInv d delay (observe d o e).
Proof.
  intros Hinv. pose proof Hinv as [Hd [Hwait [Hstarted [Hfresh [Hmine Hquiet]]]]].
  destruct e as [|dt|id]; unfold observe.
  - (* Invoke *)
    pose proof (debouncedFn_effect d (page o)) as Heff.
    assert (Hclosure : closureOf d (fst (debouncedFn d (page o)))
                       = mkDebouncer delay (Some (nextTimer (timers (page o))))).
    { unfold closureOf at 1. rewrite Heff. cbn [debouncers]. rewrite nth_setNth.
      rewrite Nat.eqb_refl. destruct (Nat.ltb_spec d (List.length (debouncers (timers (page o)))));
        [|lia]. simpl. now rewrite Hwait. }
    unfold debounceInv. cbn [page history started]. rewrite Hclosure, Heff.
    cbn [debouncers pending nextTimer clock wait timeout].
    rewrite length_setNth_eq, Hwait.
    split; [exact Hd|]. split; [reflexivity|]. split; [|split; [|split]].
    + intros id Hid. apply in_app_or in Hid. destruct Hid as [Hid|[<-|[]]]; [|lia].
      specialize (Hstarted id Hid). lia.
    + intros tm Htm. apply in_app_or in Htm. destruct Htm as [Htm|[<-|[]]]; [|simpl; lia].
      assert (In tm (pending (timers (page o)))).
      { destruct (timeout (closureOf d (page o))); [|exact Htm].
        apply filter_In in Htm. tauto. }
      specialize (Hfresh tm H). lia.
    + intros tm Htm Hown. apply in_app_or in Htm. destruct Htm as [Htm|[<-|[]]].
      * exfalso.
        assert (Hin : In tm (pending (timers (page o)))).
        { destruct (timeout (closureOf d (page o))); [|exact Htm].
          apply filter_In in Htm. tauto. }
        apply in_app_or in Hown. destruct Hown as [Hown|[Heq|[]]].
        -- destruct (Hmine tm Hin Hown) as [Hheld _]. rewrite Hheld in Htm.
           apply filter_In in Htm. destruct Htm as [_ Hne].
           now rewrite Nat.eqb_refl in Hne.
        -- specialize (Hfresh tm Hin). lia.
      * split; [reflexivity|]. exists (history o), (clock (timers (page o))).
        split; reflexivity.
    + now apply quiet_called.
  - (* Wait *)
    exact Hinv.
  - (* Expire *)
    destruct (isDue id (page o)) eqn:Hdue; [|exact Hinv].
    apply isDue_timer in Hdue. destruct Hdue as [tm0 [Hin0 [Hid0 Hle0]]].
    unfold debounceInv. cbn [page history started].
    change (timers (fst (clearTimeout id (page o))))
      with (mkTimers (debouncers (timers (page o)))
              (filter (fun tm => negb (Nat.eqb (timer_id tm) id)) (pending (timers (page o))))
              (nextTimer (timers (page o))) (clock (timers (page o)))).
    change (closureOf d (fst (clearTimeout id (page o)))) with (closureOf d (page o)).
    cbn [debouncers pending nextTimer clock].
    split; [exact Hd|]. split; [exact Hwait|]. split; [exact Hstarted|].
    split; [|split].
    + intros tm Htm. apply filter_In in Htm. now apply Hfresh.
    + intros tm Htm Hown. apply filter_In in Htm. destruct Htm as [Htm Hne].
      destruct (Hmine tm Htm Hown) as [Hheld Hlast].
      destruct (existsb (Nat.eqb id) (started o)) eqn:Hstarted_id.
      * exfalso. apply existsb_exists in Hstarted_id.
        destruct Hstarted_id as [x [Hx Heq]]. apply Nat.eqb_eq in Heq. subst x.
        rewrite <- Hid0 in Hx. destruct (Hmine tm0 Hin0 Hx) as [Hheld0 _].
        assert (timer_id tm = id) by congruence.
        apply negb_true_iff, Nat.eqb_neq in Hne. contradiction.
      * split; assumption.
    + destruct (existsb (Nat.eqb id) (started o)) eqn:Hstarted_id; [|exact Hquiet].
      apply existsb_exists in Hstarted_id.
      destruct Hstarted_id as [x [Hx Heq]]. apply Nat.eqb_eq in Heq. subst x.
      rewrite <- Hid0 in Hx. destruct (Hmine tm0 Hin0 Hx) as [_ [earlier [t0 [Hlog Hdue]]]].
      rewrite Hlog in *. apply quiet_executed; [exact Hquiet | lia].
Qed.

Lemma observeAll_inv (d : nat) (delay : Z) (events : list DebounceEvent) (o : Observed) :
  debounceInv d delay o -> debounceInv d delay (observeAll d events o).
Proof.
  revert o. induction events as [|e events IH]; intros o Ho; [exact Ho|].
  simpl. apply IH. now apply observe_inv.
Qed.

(** X15. Take the closure that [debounce(func, delay)] makes on a page,
    and let anything happen to it: calls of the debounced function, time
    passing, timers of the page firing.  Then every execution of [func]
    comes right after a call of the debounced function, with no other call
    and no other execution in between, and at least [delay] later: [func]
    never runs while calls keep coming, and one call leads to one
    execution at most. *)
Theorem debounce_runs_after_quiet_period (delay : Z) (w0 : World)
    (events : list DebounceEvent) :
  (forall tm, In tm (pending (timers w0)) ->
              (timer_id tm < nextTimer (timers w0))%nat) ->
  let d := List.length (debouncers (timers w0)) in
  quiet delay
    (history (observeAll d events (mkObserved (fst (debounce delay w0)) [] []))).
Proof.
  intros Hfresh d.
  assert (Hinv : debounceInv d delay (mkObserved (fst (debounce delay w0)) [] [])).
  { unfold debounceInv, debounce, closureOf. cbn [page history started fst timers
      withTimers debouncers pending nextTimer].
    split; [rewrite length_app; simpl; unfold d; lia|].
    split; [unfold d; now rewrite nth_length_app|].
    split; [intros id []|]. split; [exact Hfresh|]. split; [intros tm _ []|].
    intros before t rest Heq. destruct before; discriminate. }
  apply (observeAll_inv d delay events) in Hinv. apply Hinv.
Qed.

Lemma debounce_runs_after_quiet_period_witness :
  (forall tm, In tm (pending (timers (emptyWorld 0 false))) ->
              (timer_id tm < nextTimer (timers (emptyWorld 0 false)))%nat) /\
  quiet 100
    (history
       (observeAll 0 [Invoke; Wait 50; Invoke; Expire 1; Wait 100; Expire 2]
          (mkObserved (fst (debounce 100 (emptyWorld 0 false))) [] []))).
Proof.
  assert (Hfresh : forall tm, In tm (pending (timers (emptyWorld 0 false))) ->
                              (timer_id tm < nextTimer (timers (emptyWorld 0 false)))%nat)
    by (intros tm []).
  split; [exact Hfresh|].
  exact (debounce_runs_after_quiet_period 100 (emptyWorld 0 false)
           [Invoke; Wait 50; Invoke; Expire 1; Wait 100; Expire 2] Hfresh).
Defined.

(** Two calls 50 ms apart with a delay of 100 ms: one execution, 100 ms
    after the second call. *)
Example debounce_two_calls :
  history
    (observeAll 0 [Invoke; Wait 50; Invoke; Expire 1; Wait 100; Expire 2]
       (mkObserved (fst (debounce 100 (emptyWorld 0 false))) [] []))
  = [Called 0; Called 50; Executed 150].
Proof. reflexivity. Qed.

Local Close Scope lens_scope.

(** ** [throttle]: executions are [limit] apart *)

Section ThrottleFacts.
Context {Args : Type}.
Variable func : Args -> Result unit.
Variable limit : Z.

Definition timeOf (entry : Z * Args * bool) : Z := fst (fst entry).
Definition returned (entry : Z * Args * bool) : bool := snd entry.

(** After a call of [func] that returned, no call of [func] is less
    than [limit] later. *)
Definition spaced (log : list (Z * Args * bool)) : Prop :=
  forall i j first second,
    (i < j)%nat -> nth_error log i = Some first -> nth_error log j = Some second ->
    returned first = true -> timeOf first + Z.max 0 limit <= timeOf second.

Lemma spaced_snoc (log : list (Z * Args * bool)) (entry : Z * Args * bool) :
  spaced log ->
  (forall first, In first log -> returned first = true ->
                 timeOf first + Z.max 0 limit <= timeOf entry) ->
  spaced (log ++ [entry]).
Proof.
  intros Hs Hnew i j first second Hij Hi Hj Hret.
  assert (Hjlen : (j < List.length (log ++ [entry]))%nat)
    by (apply nth_error_Some; congruence).
  rewrite length_app in Hjlen. simpl in Hjlen.
  rewrite nth_error_app1 in Hi by lia.
  destruct (Nat.eq_dec j (List.length log)) as [->|Hne].
  - rewrite nth_error_app2, Nat.sub_diag in Hj by lia.
    inversion Hj; subst second. apply Hnew; [|exact Hret]. now apply nth_error_In with i.
  - rewrite nth_error_app1 in Hj by lia. now apply (Hs i j).
Qed.

Definition throttleInv (s : @Throttle.State Args) : Prop :=
  spaced (Throttle.invoked s) /\
  if Throttle.inThrottle s then
    exists due,
      Throttle.resets s = [due] /\
      forall entry, In entry (Throttle.invoked s) -> returned entry = true ->
                    timeOf entry + Z.max 0 limit <= due
  else
    Throttle.resets s = [] /\
    forall entry, In entry (Throttle.invoked s) -> returned entry = true ->
                  timeOf entry + Z.max 0 limit <= Throttle.now s.

Lemma throttle_step_inv (s : @Throttle.State Args) (e : Throttle.Event) :
  throttleInv s -> throttleInv (Throttle.step func limit s e).
Proof.
  intros Hinv. pose proof Hinv as [Hspaced Hstate]. destruct e as [args|k|dt]; simpl.
  - (* Call *)
    unfold Throttle.throttled. destruct (Throttle.inThrottle s) eqn:Hin; simpl.
    + split; [exact Hspaced|]. now rewrite Hin.
    + destruct Hstate as [Hresets Hpast].
      assert (Hnext : forall ok, spaced (Throttle.invoked s ++ [(Throttle.now s, args, ok)])).
      { intros ok. apply spaced_snoc; [exact Hspaced|]. intros first Hfirst Hret.
        now apply Hpast. }
      destruct (func args) as [[]|err]; simpl.
      * split; [apply Hnext|]. exists (Throttle.now s + Z.max 0 limit).
        rewrite Hresets. split; [reflexivity|].
        intros entry Hentry Hret. apply in_app_or in Hentry.
        destruct Hentry as [Hentry|[<-|[]]]; [|unfold timeOf; simpl; lia].
        specialize (Hpast entry Hentry Hret). lia.
      * split; [apply Hnext|]. simpl. split; [exact Hresets|].
        intros entry Hentry Hret. apply in_app_or in Hentry.
        destruct Hentry as [Hentry|[<-|[]]]; [now apply Hpast | discriminate].
  - (* TimerFires *)
    unfold Throttle.timerFires.
    destruct (nth_error (Throttle.resets s) k) as [due|] eqn:Hk; [|exact Hinv].
    destruct (Z.leb_spec due (Throttle.now s)) as [Hle|Hgt]; [|exact Hinv].
    destruct (Throttle.inThrottle s) eqn:Hin.
    + destruct Hstate as [due0 [Hresets Hpast]]. rewrite Hresets in *.
      destruct k as [|k]; [|destruct k; discriminate].
      inversion Hk; subst due0. split; [exact Hspaced|]. simpl.
      split; [reflexivity|].
      intros entry Hentry Hret. specialize (Hpast entry Hentry Hret). lia.
    + destruct Hstate as [Hresets _]. rewrite Hresets in Hk. destruct k; discriminate.
  - (* Elapse *)
    split; [exact Hspaced|]. simpl. destruct (Throttle.inThrottle s); [exact Hstate|].
    destruct Hstate as [Hresets Hpast]. split; [exact Hresets|].
    intros entry Hentry Hret. specialize (Hpast entry Hentry Hret). lia.
Qed.

Lemma throttle_run_inv (events : list Throttle.Event) (s : @Throttle.State Args) :
  throttleInv s -> throttleInv (Throttle.run func limit events s).
Proof.
  revert s. induction events as [|e events IH]; intros s Hs; [exact Hs|].
  simpl. apply IH. now apply throttle_step_inv.
Qed.
End ThrottleFacts.

(** X16. Take the closure that [throttle(func, limit)] makes, and let
    anything happen to it: calls of the throttled function, time passing,
    its timers firing once they are due.  Then after a call of [func] that
    returned, [func] is not called again before [limit] has passed;
    whatever the throttled function is called with in between is dropped.
    (A call of [func] that throws opens no such window.) *)
Theorem throttle_spacing {Args : Type} (func : Args -> Result unit) (limit : Z)
    (start : Z) (events : list (@Throttle.Event Args)) :
  spaced limit (Throttle.invoked (Throttle.run func limit events (Throttle.initial start))).
Proof.
  apply (throttle_run_inv func limit events).
  split; [|split; [reflexivity | intros entry []]].
  intros i j first second _ Hi. destruct i; discriminate.
Qed.

(** Calls at 0, 30 and 120 ms with a limit of 100 ms: the second is
    dropped. *)
Example throttle_three_calls :
  Throttle.invoked
    (Throttle.run (fun _ : nat => Ok tt) 100
       [Throttle.Call 1%nat; Throttle.Elapse 30; Throttle.Call 2%nat; Throttle.Elapse 90;
        Throttle.TimerFires 0; Throttle.Call 3%nat]
       (Throttle.initial 0))
  = [(0, 1%nat, true); (120, 3%nat, true)].
Proof. reflexivity. Qed.

(* ================================================================== *)
(** * Properties of the event emitter *)
(* ================================================================== *)

(** The listeners of [event], in the order in which [emit] calls them. *)
Definition listenersOf (event : string) (m : SimpleEventEmitter.Listeners) : list nat :=
  match SimpleEventEmitter.Map_get event m with
  | Some eventListeners => eventListeners
  | None => []
  end.

(** The map as the emitter keeps it: one entry for an event, no entry
    with an empty set, no listener twice in a set. *)
Definition wellFormed (m : SimpleEventEmitter.Listeners) : Prop :=
  NoDup (map fst m) /\
  Forall (fun entry => snd entry <> [] /\ NoDup (snd entry)) m.

(** ** Maps and sets *)

Lemma Map_get_set_same (event : string) (v : list nat) (m : SimpleEventEmitter.Listeners) :
  SimpleEventEmitter.Map_get event (SimpleEventEmitter.Map_set event v m) = Some v.
Proof.
  induction m as [|[k v'] m IH]; simpl.
  - now rewrite String.eqb_refl.
  - destruct (String.eqb k event) eqn:Hk; simpl; now rewrite Hk.
Qed.

Lemma Map_set_set (event : string) (v v' : list nat) (m : SimpleEventEmitter.Listeners) :
  SimpleEventEmitter.Map_set event v' (SimpleEventEmitter.Map_set event v m)
  = SimpleEventEmitter.Map_set event v' m.
Proof.
  induction m as [|[k v0] m IH]; simpl.
  - now rewrite String.eqb_refl.
  - destruct (String.eqb k event) eqn:Hk; simpl; rewrite Hk; [reflexivity | now rewrite IH].
Qed.

Lemma Map_set_same (event : string) (v : list nat) (m : SimpleEventEmitter.Listeners) :
  SimpleEventEmitter.Map_get event m = Some v -> SimpleEventEmitter.Map_set event v m = m.
Proof.
  induction m as [|[k v0] m IH]; simpl; [discriminate|].
  destruct (String.eqb k event) eqn:Hk.
  - intros Heq. inversion Heq. reflexivity.
  - intros Heq. now rewrite IH.
Qed.

Lemma Map_delete_set (event : string) (v : list nat) (m : SimpleEventEmitter.Listeners) :
  SimpleEventEmitter.Map_delete event (SimpleEventEmitter.Map_set event v m)
  = SimpleEventEmitter.Map_delete event m.
Proof.
  induction m as [|[k v0] m IH]; simpl.
  - now rewrite String.eqb_refl.
  - destruct (String.eqb k event) eqn:Hk; simpl; rewrite Hk; [reflexivity | now rewrite IH].
Qed.

Lemma Map_get_None (event : string) (m : SimpleEventEmitter.Listeners) :
  SimpleEventEmitter.Map_get event m = None <-> ~ In event (map fst m).
Proof.
  induction m as [|[k v] m IH]; simpl; [tauto|].
  destruct (String.eqb_spec k event) as [->|Hk].
  - split; [discriminate | intros H; exfalso; apply H; now left].
  - rewrite IH. tauto.
Qed.

Lemma Map_get_In (event : string) (v : list nat) (m : SimpleEventEmitter.Listeners) :
  SimpleEventEmitter.Map_get event m = Some v -> In (event, v) m.
Proof.
  induction m as [|[k v0] m IH]; simpl; [discriminate|].
  destruct (String.eqb_spec k event) as [->|Hk].
  - intros Heq. inversion Heq. now left.
  - intros Heq. right. now apply IH.
Qed.

Lemma Map_set_fresh (event : string) (v : list nat) (m : SimpleEventEmitter.Listeners) :
  SimpleEventEmitter.Map_get event m = None ->
  SimpleEventEmitter.Map_set event v m = m ++ [(event, v)].
Proof.
  induction m as [|[k v0] m IH]; simpl; [reflexivity|].
  destruct (String.eqb k event); [discriminate|]. intros Hnone. now rewrite IH.
Qed.

Lemma Map_delete_fresh (event : string) (v : list nat) (m : SimpleEventEmitter.Listeners) :
  SimpleEventEmitter.Map_get event m = None ->
  SimpleEventEmitter.Map_delete event (m ++ [(event, v)]) = m.
Proof.
  induction m as [|[k v0] m IH]; simpl.
  - now rewrite String.eqb_refl.
  - destruct (String.eqb k event); [discriminate|]. intros Hnone. now rewrite IH.
Qed.

Lemma Map_set_keys (event : string) (v : list nat) (m : SimpleEventEmitter.Listeners) :
  map fst (SimpleEventEmitter.Map_set event v m)
  = if SimpleEventEmitter.Map_has event m then map fst m else map fst m ++ [event].
Proof.
  unfold SimpleEventEmitter.Map_has. induction m as [|[k v0] m IH]; simpl; [reflexivity|].
  destruct (String.eqb k event) eqn:Hk; simpl; [reflexivity|].
  rewrite IH. now destruct (SimpleEventEmitter.Map_get event m).
Qed.

Lemma Map_set_Forall (P : string * list nat -> Prop) (event : string) (v : list nat)
    (m : SimpleEventEmitter.Listeners) :
  Forall P m -> P (event, v) -> Forall P (SimpleEventEmitter.Map_set event v m).
Proof.
  intros Hm Hv. induction Hm as [|[k v0] m Hk Hm IH]; simpl; [now repeat constructor|].
  destruct (String.eqb_spec k event) as [->|Hne]; constructor; assumption.
Qed.

Lemma Map_delete_incl (event : string) (m : SimpleEventEmitter.Listeners)
    (entry : string * list nat) :
  In entry (SimpleEventEmitter.Map_delete event m) -> In entry m.
Proof.
  induction m as [|[k v] m IH]; simpl; [tauto|].
  destruct (String.eqb k event); [now right|].
  intros [<-|Hin]; [now left | right; now apply IH].
Qed.

Lemma Map_delete_wellFormed (event : string) (m : SimpleEventEmitter.Listeners) :
  wellFormed m -> wellFormed (SimpleEventEmitter.Map_delete event m).
Proof.
  intros [Hkeys Hsets]. split.
  - induction m as [|[k v] m IH]; simpl; [constructor|].
    inversion Hkeys as [|? ? Hk Hkeys']; subst. inversion Hsets; subst.
    destruct (String.eqb k event); [exact Hkeys'|].
    simpl. constructor; [|now apply IH].
    intros Hin. apply Hk. apply in_map_iff in Hin. destruct Hin as [entry [Heq Hin]].
    apply in_map_iff. exists entry. split; [exact Heq|].
    now apply Map_delete_incl in Hin.
  - apply Forall_forall. intros entry Hin. apply Map_delete_incl in Hin.
    rewrite Forall_forall in Hsets. now apply Hsets.
Qed.

Lemma Map_delete_get_same (event : string) (m : SimpleEventEmitter.Listeners) :
  NoDup (map fst m) ->
  SimpleEventEmitter.Map_get event (SimpleEventEmitter.Map_delete event m) = None.
Proof.
  intros Hkeys. induction m as [|[k v] m IH]; simpl; [reflexivity|].
  inversion Hkeys as [|? ? Hk Hkeys']; subst.
  destruct (String.eqb_spec k event) as [->|Hne].
  - now apply Map_get_None.
  - simpl. destruct (String.eqb_spec k event); [contradiction | now apply IH].
Qed.

Lemma Map_delete_get_other (event other : string) (m : SimpleEventEmitter.Listeners) :
  other <> event ->
  SimpleEventEmitter.Map_get other (SimpleEventEmitter.Map_delete event m)
  = SimpleEventEmitter.Map_get other m.
Proof.
  intros Hne. induction m as [|[k v] m IH]; simpl; [reflexivity|].
  destruct (String.eqb_spec k event) as [->|Hk]; simpl.
  - destruct (String.eqb_spec event other); [congruence | reflexivity].
  - now rewrite IH.
Qed.

Lemma Set_has_In (listener : nat) (s : list nat) :
  SimpleEventEmitter.Set_has listener s = true <-> In listener s.
Proof.
  unfold SimpleEventEmitter.Set_has. rewrite existsb_exists. split.
  - intros [x [Hx Heq]]. apply Nat.eqb_eq in Heq. now subst.
  - intros Hin. exists listener. split; [exact Hin | apply Nat.eqb_refl].
Qed.

Lemma Set_add_NoDup (listener : nat) (s : list nat) :
  NoDup s -> NoDup (SimpleEventEmitter.Set_add listener s).
Proof.
  intros Hs. unfold SimpleEventEmitter.Set_add.
  destruct (SimpleEventEmitter.Set_has listener s) eqn:Hhas; [exact Hs|].
  apply NoDup_rev in Hs. rewrite <- (rev_involutive (s ++ [listener])).
  apply NoDup_rev. rewrite rev_app_distr. simpl. constructor; [|exact Hs].
  rewrite <- in_rev. intros Hin. apply Set_has_In in Hin. congruence.
Qed.

Lemma Set_add_nonempty (listener : nat) (s : list nat) :
  SimpleEventEmitter.Set_add listener s <> [].
Proof.
  unfold SimpleEventEmitter.Set_add.
  destruct (SimpleEventEmitter.Set_has listener s) eqn:Hhas.
  - intros ->. discriminate.
  - intros Hnil. apply app_eq_nil in Hnil. destruct Hnil as [_ Hnil]. discriminate.
Qed.

Lemma Set_add_has (listener : nat) (s : list nat) :
  SimpleEventEmitter.Set_has listener (SimpleEventEmitter.Set_add listener s) = true.
Proof.
  unfold SimpleEventEmitter.Set_add.
  destruct (SimpleEventEmitter.Set_has listener s) eqn:Hhas; [exact Hhas|].
  apply Set_has_In, in_or_app. right. now left.
Qed.

Lemma Set_delete_added (listener : nat) (s : list nat) :
  SimpleEventEmitter.Set_has listener s = false ->
  SimpleEventEmitter.Set_delete listener (s ++ [listener]) = s.
Proof.
  intros Hhas. unfold SimpleEventEmitter.Set_delete. rewrite filter_app. simpl.
  rewrite Nat.eqb_refl. simpl. rewrite app_nil_r.
  apply forallb_filter_id, forallb_forall. intros x Hx.
  destruct (Nat.eqb_spec listener x) as [->|_]; [|reflexivity].
  apply Set_has_In in Hx. congruence.
Qed.

(** [on], in one step. *)
Lemma on_eq (event : string) (listener : nat) (m : SimpleEventEmitter.Listeners) :
  fst (SimpleEventEmitter.on event listener m)
  = SimpleEventEmitter.Map_set event
      (SimpleEventEmitter.Set_add listener (listenersOf event m)) m.
Proof.
  unfold SimpleEventEmitter.on, SimpleEventEmitter.Map_has, listenersOf. simpl.
  destruct (SimpleEventEmitter.Map_get event m) as [s|] eqn:Hget.
  - now rewrite Hget.
  - now rewrite Map_get_set_same, Map_set_set.
Qed.

(** [off], in one step. *)
Lemma off_eq (event : string) (listener : nat) (m : SimpleEventEmitter.Listeners) :
  SimpleEventEmitter.off event listener m
  = match SimpleEventEmitter.Map_get event m with
    | Some eventListeners =>
        match SimpleEventEmitter.Set_delete listener eventListeners with
        | [] => SimpleEventEmitter.Map_delete event m
        | remaining => SimpleEventEmitter.Map_set event remaining m
        end
    | None => m
    end.
Proof.
  unfold SimpleEventEmitter.off.
  destruct (SimpleEventEmitter.Map_get event m) as [s|]; [|reflexivity].
  destruct (SimpleEventEmitter.Set_delete listener s); simpl; [|reflexivity].
  apply Map_delete_set.
Qed.

Lemma listenersOf_wellFormed (event : string) (m : SimpleEventEmitter.Listeners) :
  wellFormed m -> NoDup (listenersOf event m).
Proof.
  intros [_ Hsets]. unfold listenersOf.
  destruct (SimpleEventEmitter.Map_get event m) as [s|] eqn:Hget; [|constructor].
  apply Map_get_In in Hget. rewrite Forall_forall in Hsets.
  now destruct (Hsets _ Hget).
Qed.

Lemma on_wellFormed (event : string) (listener : nat) (m : SimpleEventEmitter.Listeners) :
  wellFormed m -> wellFormed (fst (SimpleEventEmitter.on event listener m)).
Proof.
  intros Hm. pose proof Hm as [Hkeys Hsets]. rewrite on_eq. split.
  - rewrite Map_set_keys. unfold SimpleEventEmitter.Map_has.
    destruct (SimpleEventEmitter.Map_get event m) eqn:Hget; [exact Hkeys|].
    apply Map_get_None in Hget.
    apply NoDup_rev in Hkeys. rewrite <- (rev_involutive (map fst m ++ [event])).
    apply NoDup_rev. rewrite rev_app_distr. simpl. constructor; [|exact Hkeys].
    now rewrite <- in_rev.
  - apply Map_set_Forall; [exact Hsets|]. simpl. split.
    + apply Set_add_nonempty.
    + now apply Set_add_NoDup, listenersOf_wellFormed.
Qed.

Lemma off_wellFormed (event : string) (listener : nat) (m : SimpleEventEmitter.Listeners) :
  wellFormed m -> wellFormed (SimpleEventEmitter.off event listener m).
Proof.
  intros Hm. rewrite off_eq.
  destruct (SimpleEventEmitter.Map_get event m) as [s|] eqn:Hget; [|exact Hm].
  destruct (SimpleEventEmitter.Set_delete listener s) as [|x remaining] eqn:Hdel;
    [now apply Map_delete_wellFormed|].
  pose proof Hm as [Hkeys Hsets]. split.
  - rewrite Map_set_keys. unfold SimpleEventEmitter.Map_has. now rewrite Hget.
  - apply Map_set_Forall; [exact Hsets|]. simpl. split; [discriminate|].
    rewrite <- Hdel. unfold SimpleEventEmitter.Set_delete. apply NoDup_filter.
    apply Map_get_In in Hget. rewrite Forall_forall in Hsets. now destruct (Hsets _ Hget).
Qed.

Lemma removeAllListeners_wellFormed (event : option string)
    (m : SimpleEventEmitter.Listeners) :
  wellFormed m -> wellFormed (SimpleEventEmitter.removeAllListeners event m).
Proof.
  intros Hm. destruct event as [[|c name]|]; simpl;
    try (split; constructor). now apply Map_delete_wellFormed.
Qed.

(** X17. The emitter keeps its map in shape.  Starting from the empty
    map of a new emitter, whatever is subscribed, unsubscribed or removed,
    an event has one entry at most, no entry has an empty set of listeners
    ([off] deletes the entry with its last listener), and no listener is
    twice in a set. *)
Theorem emitter_map_stays_wellFormed (m : SimpleEventEmitter.Listeners)
    (event : string) (listener : nat) (removed : option string) :
  wellFormed [] /\
  (wellFormed m ->
   wellFormed (fst (SimpleEventEmitter.on event listener m)) /\
   wellFormed (SimpleEventEmitter.off event listener m) /\
   wellFormed (SimpleEventEmitter.removeAllListeners removed m)).
Proof.
  split; [split; constructor|]. intros Hm.
  split; [now apply on_wellFormed|].
  split; [now apply off_wellFormed | now apply removeAllListeners_wellFormed].
Qed.

Lemma emitter_map_stays_wellFormed_witness :
  wellFormed [("error", [1%nat])]%string /\
  wellFormed (fst (SimpleEventEmitter.on "error" 2%nat [("error", [1%nat])]%string)) /\
  wellFormed (SimpleEventEmitter.off "error" 1%nat [("error", [1%nat])]%string).
Proof.
  assert (Hm : wellFormed [("error", [1%nat])]%string).
  { split; repeat constructor; simpl; try tauto; discriminate. }
  destruct (proj2 (emitter_map_stays_wellFormed [("error", [1%nat])]%string
                     "error" 2%nat None) Hm) as [Hon _].
  destruct (proj2 (emitter_map_stays_wellFormed [("error", [1%nat])]%string
                     "error" 1%nat None) Hm) as [_ [Hoff _]].
  split; [exact Hm|]. split; [exact Hon | exact Hoff].
Defined.

(** X18. Subscribing and unsubscribing are inverse to each other: the
    function that [on] returns, called right away, puts the map back as it
    was, entry for entry and in the same order, provided the listener was
    not subscribed to the event before.  And subscribing a listener that
    is subscribed already changes nothing. *)
Theorem on_then_unsubscribe (m : SimpleEventEmitter.Listeners) (event : string)
    (listener : nat) :
  (wellFormed m ->
   SimpleEventEmitter.Set_has listener (listenersOf event m) = false ->
   snd (SimpleEventEmitter.on event listener m)
     (fst (SimpleEventEmitter.on event listener m)) = m) /\
  fst (SimpleEventEmitter.on event listener (fst (SimpleEventEmitter.on event listener m)))
  = fst (SimpleEventEmitter.on event listener m).
Proof.
  split.
  - intros [_ Hsets] Hnew.
    change (snd (SimpleEventEmitter.on event listener m))
      with (SimpleEventEmitter.off event listener).
    rewrite on_eq, off_eq, Map_get_set_same. unfold listenersOf in *.
    unfold SimpleEventEmitter.Set_add. rewrite Hnew.
    rewrite Set_delete_added by exact Hnew.
    destruct (SimpleEventEmitter.Map_get event m) as [s|] eqn:Hget.
    + destruct s as [|x s].
      * apply Map_get_In in Hget. rewrite Forall_forall in Hsets.
        destruct (Hsets _ Hget) as [Hne _]. now contradiction Hne.
      * rewrite Map_set_set. now apply Map_set_same.
    + rewrite Map_set_fresh by exact Hget. now apply Map_delete_fresh.
  - rewrite !on_eq. unfold listenersOf at 1. rewrite Map_get_set_same, Map_set_set.
    f_equal. unfold SimpleEventEmitter.Set_add at 1. now rewrite Set_add_has.
Qed.

Lemma on_then_unsubscribe_witness :
  wellFormed [("error", [1%nat])]%string /\
  SimpleEventEmitter.Set_has 2%nat (listenersOf "error" [("error", [1%nat])]%string) = false /\
  snd (SimpleEventEmitter.on "error" 2%nat [("error", [1%nat])]%string)
    (fst (SimpleEventEmitter.on "error" 2%nat [("error", [1%nat])]%string))
  = [("error", [1%nat])]%string.
Proof.
  assert (Hm : wellFormed [("error", [1%nat])]%string).
  { split; repeat constructor; simpl; try tauto; discriminate. }
  split; [exact Hm|]. split; [reflexivity|].
  exact (proj1 (on_then_unsubscribe [("error", [1%nat])]%string "error" 2%nat)
           Hm eq_refl).
Defined.

(** ** [emit] *)

Lemma forEach_guarded {Data : Type}
    (body : nat -> option Data -> SimpleEventEmitter.Listeners
            -> SimpleEventEmitter.Listeners * Result unit)
    (data : option Data) (array : list nat) (e : SimpleEventEmitter.Emitter) :
  exists m',
    SimpleEventEmitter.forEach (SimpleEventEmitter.guarded body data) array e
    = (SimpleEventEmitter.mkEmitter m'
         (SimpleEventEmitter.called e ++ map (fun l => (l, data)) array),
       Ok tt).
Proof.
  revert e. induction array as [|l array IH]; intros e.
  - exists (SimpleEventEmitter.listeners e). simpl. rewrite app_nil_r. now destruct e.
  - simpl. unfold SimpleEventEmitter.guarded at 1, SimpleEventEmitter.callListener.
    destruct (body l data (SimpleEventEmitter.listeners e)) as [m1 [[]|err]];
      match goal with
      | |- context [SimpleEventEmitter.forEach _ array ?e1] =>
          destruct (IH e1) as [m' Heq]; exists m'; rewrite Heq; simpl;
            now rewrite <- app_assoc
      end.
Qed.

(** X19. [emit] calls every listener that is subscribed to the event
    when [emit] is entered, once each and in the order in which they
    subscribed, each with the data; it calls no other listener; and it
    returns normally.  This holds whatever the listeners do: a listener
    that throws does not keep the later ones from being called, and one
    that unsubscribes a later listener, or subscribes a new one, does not
    change who is called in this round. *)
Theorem emit_calls_every_listener {Data : Type}
    (body : nat -> option Data -> SimpleEventEmitter.Listeners
            -> SimpleEventEmitter.Listeners * Result unit)
    (event : string) (data : option Data) (e : SimpleEventEmitter.Emitter) :
  snd (SimpleEventEmitter.emit body event data e) = Ok tt /\
  SimpleEventEmitter.called (fst (SimpleEventEmitter.emit body event data e))
  = SimpleEventEmitter.called e
    ++ map (fun l => (l, data)) (listenersOf event (SimpleEventEmitter.listeners e)).
Proof.
  unfold SimpleEventEmitter.emit, listenersOf.
  destruct (SimpleEventEmitter.Map_get event (SimpleEventEmitter.listeners e)) as [s|].
  - destruct (forEach_guarded body data s e) as [m' Heq]. rewrite Heq. now split.
  - simpl. now rewrite app_nil_r.
Qed.

(** The first listener throws and unsubscribes the second: both are
    called. *)
Example emit_throwing_listener :
  SimpleEventEmitter.emit
    (fun l (_ : option nat) m =>
       if Nat.eqb l 1 then (SimpleEventEmitter.off "error" 2%nat m, Throw (HostError "boom"))
       else (m, Ok tt))
    "error" (Some 7%nat)
    (SimpleEventEmitter.mkEmitter [("error", [1%nat; 2%nat])]%string [])
  = (SimpleEventEmitter.mkEmitter [("error", [1%nat])]%string
       [(1%nat, Some 7%nat); (2%nat, Some 7%nat)],
     Ok tt).
Proof. reflexivity. Qed.

(** ** [removeAllListeners] *)

(** X20. [removeAllListeners(event)] with a name that is not empty
    removes the listeners of that event and of no other.  Without an
    argument, and also with the empty name (which the test [if (event)]
    takes for a missing argument), it removes the listeners of every
    event. *)
Theorem removeAllListeners_scope (m : SimpleEventEmitter.Listeners) (event other : string) :
  SimpleEventEmitter.removeAllListeners None m = [] /\
  SimpleEventEmitter.removeAllListeners (Some EmptyString) m = [] /\
  (event <> EmptyString -> wellFormed m ->
   listenersOf event (SimpleEventEmitter.removeAllListeners (Some event) m) = [] /\
   (other <> event ->
    listenersOf other (SimpleEventEmitter.removeAllListeners (Some event) m)
    = listenersOf other m)).
Proof.
  split; [reflexivity|]. split; [reflexivity|].
  intros Hname [Hkeys _].
  assert (Heq : SimpleEventEmitter.removeAllListeners (Some event) m
                = SimpleEventEmitter.Map_delete event m)
    by (destruct event; [contradiction | reflexivity]).
  rewrite Heq. unfold listenersOf. split.
  - now rewrite Map_delete_get_same.
  - intros Hother. now rewrite Map_delete_get_other.
Qed.

Lemma removeAllListeners_scope_witness :
  "error"%string <> EmptyString /\
  wellFormed [("error", [1%nat]); ("status-changed", [2%nat])]%string /\
  listenersOf "error"
    (SimpleEventEmitter.removeAllListeners (Some "error"%string)
       [("error", [1%nat]); ("status-changed", [2%nat])]%string) = [] /\
  listenersOf "status-changed"
    (SimpleEventEmitter.removeAllListeners (Some "error"%string)
       [("error", [1%nat]); ("status-changed", [2%nat])]%string) = [2%nat].
Proof.
  assert (Hname : "error"%string <> EmptyString) by discriminate.
  assert (Hm : wellFormed [("error", [1%nat]); ("status-changed", [2%nat])]%string).
  { split; repeat constructor; simpl; try tauto; try discriminate.
    intros [H|[]]; discriminate. }
  destruct (proj2 (proj2 (removeAllListeners_scope
                            [("error", [1%nat]); ("status-changed", [2%nat])]%string
                            "error" "status-changed")) Hname Hm) as [Hgone Hkept].
  split; [exact Hname|]. split; [exact Hm|]. split; [exact Hgone|].
  apply Hkept. discriminate.
Defined.

(* ================================================================== *)
(** * Further properties of the orchestrator *)
(* ================================================================== *)

Local Open Scope lens_scope.

(** ** After [dispose] *)

(** The instance is disposed, and every call of [deltaDecorations] made
    since the [n]-th one handed over an empty batch. *)
Definition stillDisposed (n : nat) (w : World) : Prop :=
  isDisposed (lens w) = true /\
  (n <= List.length (submitted w))%nat /\
  Forall (fun call => snd call = []) (skipn n (submitted w)).

Lemma keeps_stillDisposed_submit (n : nat) (old : list string) :
  keeps (stillDisposed n)
    (modify (fun w =>
       mkWorld (lens w) (timers w) (stylesInjected w) (emitted w)
         (submitted w ++ [(old, [])]))).
Proof.
  apply keeps_modify. intros w [Hd [Hn Hall]]. split; [exact Hd|]. simpl. split.
  - rewrite length_app. lia.
  - rewrite skipn_app. apply Forall_app. split; [exact Hall|].
    replace (n - List.length (submitted w))%nat with O by lia. now repeat constructor.
Qed.

Lemma updateDecorationsInternal_disposed (host : Host) (w : World) :
  isDisposed (lens w) = true -> updateDecorationsInternal host w = (w, Ok tt).
Proof.
  intros Hd. unfold updateDecorationsInternal, bind, gets. simpl. now rewrite Hd.
Qed.

Ltac disposed_leaf :=
  match goal with
  | |- keeps (stillDisposed _)
         (modify (fun w => mkWorld _ _ _ _ (submitted w ++ [(_, [])]))) =>
      apply keeps_stillDisposed_submit
  | |- keeps (stillDisposed _) (modify _) =>
      apply keeps_modify; intros ? Hw;
      first [exact Hw | destruct Hw as [_ Hw]; split; [reflexivity | exact Hw]]
  | |- keeps (stillDisposed _) (updateDecorationsInternal _) =>
      intros ? Hw; rewrite updateDecorationsInternal_disposed by apply Hw; exact Hw
  | |- keeps (stillDisposed _) (emit _) => intros ? Hw; exact Hw
  | |- keeps (stillDisposed _) (clearTimeout _) => intros ? Hw; exact Hw
  | |- keeps (stillDisposed _) (setTimeout _) => intros ? Hw; exact Hw
  | |- keeps (stillDisposed _) (assignTimeout _ _) => intros ? Hw; exact Hw
  | |- keeps (stillDisposed _) (debounce _) => intros ? Hw; exact Hw
  end.

Ltac solve_disposed := repeat (step_lens || disposed_leaf || (solve [eauto with lens])).

Section AfterDispose.
Variable n : nat.
Variable host : Host.
Let P := stillDisposed n.

Lemma keeps_scheduleUpdate_disposed : keeps P scheduleUpdate.
Proof. unfold P, scheduleUpdate, invoke, debouncedFn. solve_disposed. Qed.

Lemma keeps_cancelUpdate_disposed : keeps P cancelUpdate.
Proof. unfold P, cancelUpdate, invoke, debouncedFn. solve_disposed. Qed.

Lemma keeps_clearDecorations_disposed : keeps P (clearDecorations host).
Proof.
  unfold P, clearDecorations, manager_clearDecorations, editor_deltaDecorations.
  solve_disposed.
Qed.

Hint Resolve keeps_scheduleUpdate_disposed keeps_cancelUpdate_disposed
  keeps_clearDecorations_disposed : lens.

Lemma keeps_initialize_disposed : keeps P (initialize host).
Proof.
  unfold P, initialize, injectStyles, setupEventListeners, isMonacoInitialized,
    pushDisposable.
  solve_disposed.
Qed.

Lemma keeps_disposeAll_disposed (ds : list ListenerKind) : keeps P (disposeAll host ds).
Proof. unfold P. induction ds as [|d ds IH]; simpl; solve_disposed. Qed.

Hint Resolve keeps_initialize_disposed keeps_disposeAll_disposed : lens.

Lemma keeps_enable_disposed : keeps P (enable host).
Proof. unfold P, enable. solve_disposed. Qed.

Lemma keeps_disable_disposed : keeps P (disable host).
Proof. unfold P, disable. solve_disposed. Qed.

Hint Resolve keeps_enable_disposed keeps_disable_disposed : lens.

Lemma keeps_toggle_disposed : keeps P (toggle host).
Proof. unfold P, toggle. solve_disposed. Qed.

Lemma keeps_refresh_disposed : keeps P (refresh host).
Proof. unfold P, refresh. solve_disposed. Qed.

Lemma keeps_updateOptions_disposed (newOptions : ErrorLensOptions) :
  keeps P (updateOptions host newOptions).
Proof. unfold P, updateOptions. solve_disposed. Qed.

Lemma keeps_dispose_disposed : keeps P (dispose host).
Proof. unfold P, dispose, removeAllListeners. solve_disposed. Qed.

Lemma step_disposed (a : Action) (w : World) : P w -> P (fst (step host a w)).
Proof.
  intros Hw. destruct a; simpl.
  - now apply keeps_enable_disposed.
  - now apply keeps_disable_disposed.
  - now apply keeps_toggle_disposed.
  - now apply keeps_refresh_disposed.
  - now apply keeps_updateOptions_disposed.
  - now apply keeps_dispose_disposed.
  - destruct (registered MarkerListener w); simpl; [|exact Hw].
    revert w Hw. change (keeps P (onMarkersChanged host forThisModel)).
    unfold P, onMarkersChanged. solve_disposed.
  - destruct (registered CursorListener w); simpl; [|exact Hw].
    now apply keeps_scheduleUpdate_disposed.
  - destruct (registered ModelListener w); simpl; [|exact Hw].
    revert w Hw. change (keeps P (onModelChanged host)).
    unfold P, onModelChanged. solve_disposed.
  - destruct (isDue id w); simpl; [|exact Hw].
    revert w Hw. change (keeps P (clearTimeout id ;; updateDecorationsInternal host)).
    unfold P. solve_disposed.
  - exact Hw.
Qed.
End AfterDispose.

Lemma run_disposed (n : nat) (trace : list (Host * Action)) (w : World) :
  stillDisposed n w -> stillDisposed n (fst (run trace w)).
Proof.
  revert w. induction trace as [|[host a] trace IH]; intros w Hw; [exact Hw|].
  simpl. pose proof (step_disposed n host a w Hw) as Hstep.
  destruct (step host a w) as [w1 fired1]. simpl in Hstep.
  specialize (IH w1 Hstep). destruct (run trace w1) as [w2 fired2]. exact IH.
Qed.

(** What [dispose] does after it has set the flag. *)
Definition disposeTail (host : Host) : M unit :=
  cancelUpdate ;;
  clearDecorations host ;;
  ds <- gets (fun w => disposables (lens w)) ;;
  disposeAll host ds ;;
  modify (withLens (setDisposables [])) ;;
  removeAllListeners.

Lemma dispose_eq (host : Host) (w : World) :
  dispose host w
  = if isDisposed (lens w) then (w, Ok tt)
    else disposeTail host (withLens (setIsDisposed true) w).
Proof.
  unfold dispose, disposeTail. unfold bind at 1, gets at 1.
  destruct (isDisposed (lens w)); reflexivity.
Qed.

Lemma keeps_disposeTail_disposed (n : nat) (host : Host) :
  keeps (stillDisposed n) (disposeTail host).
Proof.
  unfold disposeTail, removeAllListeners.
  pose proof (keeps_cancelUpdate_disposed n).
  pose proof (keeps_clearDecorations_disposed n host).
  pose proof (keeps_disposeAll_disposed n host).
  solve_disposed.
Qed.

Lemma dispose_sets_flag (host : Host) (w : World) :
  stillDisposed (List.length (submitted w)) (fst (dispose host w)).
Proof.
  rewrite dispose_eq. destruct (isDisposed (lens w)) eqn:Hd.
  - split; [exact Hd|]. split; [apply Nat.le_refl|]. rewrite skipn_all. constructor.
  - apply keeps_disposeTail_disposed.
    split; [reflexivity|]. split; [apply Nat.le_refl|]. simpl. rewrite skipn_all.
    constructor.
Qed.

(** X21. [dispose] is final and idempotent.  However the call ends,
    also when the editor throws in the middle of it, the instance is
    disposed and inactive afterwards; and another [dispose] returns at
    once, normally, without calling the editor and without changing
    anything. *)
Theorem dispose_is_final (host again : Host) (w : World) :
  let w1 := fst (dispose host w) in
  isDisposed (lens w1) = true /\
  isActive w1 = false /\
  dispose again w1 = (w1, Ok tt).
Proof.
  intros w1. destruct (dispose_sets_flag host w) as [Hd _]. fold w1 in Hd.
  split; [exact Hd|]. split.
  - unfold isActive. now rewrite Hd.
  - rewrite dispose_eq. now rewrite Hd.
Qed.

(** X22. A disposed instance never decorates the editor again.  Whatever
    is called on it and whatever the editor and the clock do afterwards
    (with any answers of the host), it stays disposed and inactive, and
    every batch it still hands to [deltaDecorations] is empty. *)
Theorem disposed_instance_never_decorates (trace : list (Host * Action)) (w : World) :
  isDisposed (lens w) = true ->
  let w' := fst (run trace w) in
  isDisposed (lens w') = true /\
  isActive w' = false /\
  Forall (fun batch => batch = []) (batchesSince w w').
Proof.
  intros Hd w'.
  assert (Hw : stillDisposed (List.length (submitted w)) w).
  { split; [exact Hd|]. split; [apply Nat.le_refl|]. rewrite skipn_all. constructor. }
  apply (run_disposed _ trace) in Hw. fold w' in Hw. destruct Hw as [Hd' [_ Hall]].
  split; [exact Hd'|]. split; [unfold isActive; now rewrite Hd'|].
  unfold batchesSince. apply Forall_map. exact Hall.
Qed.

Lemma disposed_instance_never_decorates_witness :
  isDisposed (lens (fst (dispose sample_host sample_world))) = true /\
  Forall (fun batch => batch = [])
    (batchesSince (fst (dispose sample_host sample_world))
       (fst (run [(sample_host, CallEnable); (sample_host, CallRefresh);
                  (sample_host, Elapse 500); (sample_host, TimerFires 2);
                  (sample_host, CallDisable)]
               (fst (dispose sample_host sample_world))))).
Proof.
  assert (Hd : isDisposed (lens (fst (dispose sample_host sample_world))) = true)
    by reflexivity.
  split; [exact Hd|].
  apply (disposed_instance_never_decorates
           [(sample_host, CallEnable); (sample_host, CallRefresh);
            (sample_host, Elapse 500); (sample_host, TimerFires 2);
            (sample_host, CallDisable)]
           (fst (dispose sample_host sample_world)) Hd).
Defined.

(** ** [toggle] *)

(** The [enabled] option has the value [b]. *)
Definition enabledIs (b : bool) (w : World) : Prop := enabled (config (lens w)) = b.

(** A step that does not touch what the property looks at. *)
Ltac untouched_leaf :=
  match goal with
  | |- keeps _ (modify _) => apply keeps_modify; intros ? Hw; exact Hw
  | |- keeps _ (emit _) => intros ? Hw; exact Hw
  | |- keeps _ (clearTimeout _) => intros ? Hw; exact Hw
  | |- keeps _ (setTimeout _) => intros ? Hw; exact Hw
  | |- keeps _ (assignTimeout _ _) => intros ? Hw; exact Hw
  end.

Ltac solve_untouched := repeat (step_lens || untouched_leaf || (solve [eauto with lens])).

Lemma keeps_clearDecorations_enabled (b : bool) (host : Host) :
  keeps (enabledIs b) (clearDecorations host).
Proof.
  unfold clearDecorations, manager_clearDecorations, editor_deltaDecorations.
  solve_untouched.
Qed.

Lemma keeps_initialize_enabled (b : bool) (host : Host) :
  keeps (enabledIs b) (initialize host).
Proof.
  unfold initialize, injectStyles, setupEventListeners, isMonacoInitialized,
    pushDisposable, scheduleUpdate, invoke, debouncedFn.
  solve_untouched.
Qed.

Lemma disable_switches_off (host : Host) (w : World) :
  enabled (config (lens w)) = true -> enabledIs false (fst (disable host w)).
Proof.
  intros He. unfold disable, bind, gets, modify. cbv beta iota. rewrite He.
  now apply keeps_clearDecorations_enabled.
Qed.

Lemma enable_switches_on (host : Host) (w : World) :
  enabled (config (lens w)) = false -> enabledIs true (fst (enable host w)).
Proof.
  intros He. unfold enable, bind, gets, modify. cbv beta iota. rewrite He.
  now apply keeps_initialize_enabled.
Qed.

(** X23. [toggle] flips the [enabled] option, whatever the host does:
    also when the editor throws in the middle, the option has changed; and
    when [toggle] returns, it returns the new value. *)
Theorem toggle_flips_enabled (host : Host) (w : World) :
  enabled (config (lens (fst (toggle host w)))) = negb (enabled (config (lens w))) /\
  (forall b, snd (toggle host w) = Ok b -> b = negb (enabled (config (lens w)))).
Proof.
  change (toggle host w)
    with (match (if enabled (config (lens w)) then disable host else enable host) w with
          | (w', Ok _) => (w', Ok (enabled (config (lens w'))))
          | (w', Throw e) => (w', Throw e)
          end).
  destruct (enabled (config (lens w))) eqn:He; cbn [negb].
  - pose proof (disable_switches_off host w He) as Hkeep.
    destruct (disable host w) as [w2 [[]|e]]; cbn [fst snd] in *.
    + split; [exact Hkeep|]. intros b Hb. inversion Hb. exact Hkeep.
    + split; [exact Hkeep | discriminate].
  - pose proof (enable_switches_on host w He) as Hkeep.
    destruct (enable host w) as [w2 [[]|e]]; cbn [fst snd] in *.
    + split; [exact Hkeep|]. intros b Hb. inversion Hb. exact Hkeep.
    + split; [exact Hkeep | discriminate].
Qed.

(** ** The factory functions *)

Lemma mergeOptions_setupPresets (options : ErrorLensOptions) :
  mergeOptions DEFAULT_OPTIONS (spreadOptions setupPresets options)
  = mergeOptions DEFAULT_OPTIONS options.
Proof.
  destruct options as [a b c d e f g h i j k].
  destruct a, b, c, d, e, f, g, h, i, j, k; reflexivity.
Qed.

(** X24. [setupErrorLens] builds the instance that [createErrorLens]
    (the plain constructor) builds from the same options: the four
    settings it puts in front of the caller's options are the default
    values, and the caller's options override them. *)
Theorem setupErrorLens_is_createErrorLens (host : Host) (options : ErrorLensOptions)
    (w : World) :
  setupErrorLens host options w = createErrorLens host options w.
Proof.
  unfold setupErrorLens, createErrorLens, construct.
  now rewrite mergeOptions_setupPresets.
Qed.

(** ** The cursor line *)

Lemma filterMarkers_on_cursor_line (config : ErrorLensConfig) (p : Position)
    (markers : list MonacoMarkerData) (m : MonacoMarkerData) :
  followCursor config = ActiveLine -> lineNumber p <> 0 ->
  In m (filterMarkers config (Some p) markers) -> startLineNumber m = lineNumber p.
Proof.
  intros Hmode Hline Hin. unfold filterMarkers in Hin.
  apply limitMarkersPerLine_incl in Hin. unfold applyCursorFilter in Hin.
  rewrite Hmode in Hin. simpl in Hin. unfold Js.truthy in Hin.
  destruct (Z.eqb_spec (lineNumber p) 0); [contradiction|]. simpl in Hin.
  apply filter_In in Hin. destruct Hin as [_ Hon]. now apply Z.eqb_eq in Hon.
Qed.

(** X25. In [activeLine] mode, with the cursor on a line (a line number
    other than zero), the batch built from the result of the filtering
    pass holds one decoration at most, and that decoration is on the
    cursor line. *)
Theorem activeLine_single_decoration (hasRange : bool) (config : ErrorLensConfig)
    (p : Position) (markers : list MonacoMarkerData) :
  followCursor config = ActiveLine -> lineNumber p <> 0 ->
  let batch :=
    DecorationManager.createDecorations hasRange config
      (filterMarkers config (Some p) markers) in
  (List.length batch <= 1)%nat /\
  Forall (fun d => range d = mkRange (lineNumber p) 1 (lineNumber p) 1) batch.
Proof.
  intros Hmode Hline batch. unfold batch. destruct hasRange;
    [|rewrite createDecorations_no_Range; split; [simpl; lia | constructor]].
  set (kept := filterMarkers config (Some p) markers).
  assert (Hlines : forall k, In k (linesOf kept) -> k = lineNumber p).
  { intros k Hk. apply linesOf_In in Hk. destruct Hk as [m [Hm <-]].
    now apply (filterMarkers_on_cursor_line config p markers). }
  split.
  - rewrite <- (length_map (fun d => range_startLineNumber (range d))).
    fold (decoratedLines (DecorationManager.createDecorations true config kept)).
    rewrite createDecorations_lines.
    pose proof (linesOf_NoDup kept) as Hnd.
    destruct (linesOf kept) as [|a [|b keys]]; simpl; try lia.
    exfalso. inversion Hnd as [|? ? Ha _]; subst. apply Ha. left.
    rewrite (Hlines a), (Hlines b); [reflexivity | right; now left | now left].
  - assert (H2 : Forall2 (fun line d => range d = mkRange line 1 line 1) (linesOf kept)
                   (DecorationManager.createDecorations true config kept)).
    { apply createDecorations_Forall2. intros line top rest d _ _ Hd.
      simpl in Hd. inversion Hd. reflexivity. }
    revert Hlines. induction H2 as [|line d keys ds Hd _ IH]; intros Hlines;
      constructor.
    + rewrite Hd, (Hlines line) by now left. reflexivity.
    + apply IH. intros k Hk. apply Hlines. now right.
Qed.

Definition minimalConfig : ErrorLensConfig :=
  mergeOptions DEFAULT_OPTIONS (spreadOptions minimalPresets noOptions).

Lemma activeLine_single_decoration_witness :
  followCursor minimalConfig = ActiveLine /\
  lineNumber (mkPosition 1 1) <> 0 /\
  (List.length
     (DecorationManager.createDecorations true minimalConfig
        (filterMarkers minimalConfig (Some (mkPosition 1 1)) sample_markers)) <= 1)%nat.
Proof.
  assert (Hline : lineNumber (mkPosition 1 1) <> 0) by discriminate.
  split; [reflexivity|]. split; [exact Hline|].
  apply (activeLine_single_decoration true minimalConfig (mkPosition 1 1) sample_markers
           eq_refl Hline).
Defined.

(** ** The constructor *)

(** Monaco is ready: what [isMonacoInitialized] tests. *)
Definition readyNow (host : Host) : bool :=
  has_getModelMarkers host && has_onDidChangeMarkers host
  && match getModel host with Ok (Some _) => true | _ => false end.

Lemma initialize_idle (host : Host) (w : World) :
  enabled (config (lens w)) && readyNow host = false ->
  disposables (lens (fst (initialize host w))) = disposables (lens w) /\
  pending (timers (fst (initialize host w))) = pending (timers w).
Proof.
  unfold readyNow, initialize, injectStyles, setupEventListeners, isMonacoInitialized.
  unfold bind, gets, ret, call, modify. cbv beta.
  destruct (enabled (config (lens w))); cbn [negb andb]; [|intros _; split; reflexivity].
  destruct (has_getModelMarkers host), (has_onDidChangeMarkers host); cbn [negb andb];
    try (destruct (getModel host) as [[uri|]|e]; try discriminate);
    destruct (has_document host); cbn [negb]; try destruct (stylesInjected w);
    cbn; intros _; split; reflexivity.
Qed.

Lemma keeps_initialize_logs (host : Host) (calls : list (list string * list MonacoDecoration))
    (events : list LensEvent) :
  keeps (fun w => submitted w = calls /\ emitted w = events) (initialize host).
Proof.
  unfold initialize, injectStyles, setupEventListeners, isMonacoInitialized,
    pushDisposable, scheduleUpdate, invoke, debouncedFn.
  solve_untouched.
Qed.

(** X26. The constructor never calls [deltaDecorations] and emits no
    event, however it ends.  And it subscribes to the editor, or leaves
    a timer pending, only when the options leave the lens enabled and
    Monaco is ready (both marker functions are there and the editor has a
    model). *)
Theorem construct_waits_for_monaco (host : Host) (options : ErrorLensOptions)
    (now : Z) (styles : bool) :
  let w := fst (construct host options (emptyWorld now styles)) in
  submitted w = [] /\
  emitted w = [] /\
  (disposables (lens w) <> [] \/ pending (timers w) <> [] ->
   enabled (config (lens w)) = true /\
   has_getModelMarkers host = true /\
   has_onDidChangeMarkers host = true /\
   exists uri, getModel host = Ok (Some uri)).
Proof.
  set (cfg := mergeOptions DEFAULT_OPTIONS options).
  set (w0 := mkWorld (mkLens cfg [] false Undefined Undefined [] 0 [])
               (mkTimers [mkDebouncer (updateDelay cfg) None] [] 1 now) styles [] []).
  change (construct host options (emptyWorld now styles)) with (initialize host w0).
  intros w.
  destruct (keeps_initialize_logs host [] [] w0 (conj eq_refl eq_refl)) as [Hcalls Hevents].
  split; [exact Hcalls|]. split; [exact Hevents|]. intros Hsome.
  pose proof (keeps_initialize_enabled (enabled cfg) host w0 eq_refl) as Henabled.
  fold w in Henabled. unfold enabledIs in Henabled.
  destruct (enabled cfg && readyNow host) eqn:Hready.
  - apply andb_true_iff in Hready. destruct Hready as [He Hready].
    unfold readyNow in Hready. apply andb_true_iff in Hready.
    destruct Hready as [Hfuns Hmodel]. apply andb_true_iff in Hfuns.
    destruct Hfuns as [Hmarkers Hchange].
    split; [congruence|]. split; [exact Hmarkers|]. split; [exact Hchange|].
    destruct (getModel host) as [[uri|]|e]; try discriminate. now exists uri.
  - destruct (initialize_idle host w0 Hready) as [Hds Hpending]. fold w in Hds, Hpending.
    destruct Hsome as [H|H]; contradiction H.
Qed.

Lemma construct_waits_for_monaco_witness :
  (disposables (lens (fst (construct sample_host noOptions (emptyWorld 0 false)))) <> []
   \/ pending (timers (fst (construct sample_host noOptions (emptyWorld 0 false)))) <> []) /\
  (enabled (config (lens (fst (construct sample_host noOptions (emptyWorld 0 false)))))
   = true /\
   has_getModelMarkers sample_host = true /\
   has_onDidChangeMarkers sample_host = true /\
   exists uri, getModel sample_host = Ok (Some uri)).
Proof.
  assert (Hsome :
            disposables (lens (fst (construct sample_host noOptions (emptyWorld 0 false))))
            <> []
            \/ pending (timers (fst (construct sample_host noOptions (emptyWorld 0 false))))
               <> []).
  { left. vm_compute. discriminate. }
  split; [exact Hsome|].
  exact (proj2 (proj2 (construct_waits_for_monaco sample_host noOptions 0 false)) Hsome).
Defined.

(** A lens created disabled subscribes to nothing and starts no
    timer. *)
Example construct_disabled :
  let w := fst (construct sample_host switchOff (emptyWorld 0 false)) in
  disposables (lens w) = [] /\ pending (timers w) = [] /\ stylesInjected w = false.
Proof. repeat split. Qed.

(** ** The counts of a [decorations-updated] event *)

Lemma markerObjects_length (markers : list (option MonacoMarkerData))
    (objects : list MonacoMarkerData) :
  markerObjects markers = Ok objects -> List.length objects = List.length markers.
Proof.
  revert objects. induction markers as [|[m|] markers IH]; intros objects Heq; simpl in Heq.
  - now inversion Heq.
  - destruct (markerObjects markers) as [ms|e]; [|discriminate].
    inversion Heq. simpl. now rewrite (IH ms).
  - discriminate.
Qed.

Definition countsAgree (event : LensEvent) : Prop :=
  match event with
  | DecorationsUpdated decorationCount markerCount _ => (decorationCount <= markerCount)%nat
  | _ => True
  end.

(** X27. A recomputation emits one event at most, and when that is a
    [decorations-updated] event its [decorationCount] is not greater than
    its [markerCount], the number of markers the host returned: there is
    at most one decoration per line and at most one line per marker. *)
Theorem decorations_updated_counts (host : Host) (w : World) :
  exists events,
    emitted (fst (refresh host w)) = emitted w ++ events /\
    (List.length events <= 1)%nat /\
    Forall countsAgree events.
Proof.
  destruct (getModel host) as [model|e] eqn:Hmodel.
  - destruct (refresh_reports host w (ex_intro _ model Hmodel)) as [_ Hevents].
    eexists. split; [exact Hevents|].
    unfold recomputeOutcome. rewrite Hmodel.
    destruct (isDisposed (lens w) || negb (enabled (config (lens w))));
      [split; [simpl; lia | constructor]|].
    destruct model as [uri|]; [|split; [simpl; lia | constructor]].
    destruct (has_getModelMarkers host && has_onDidChangeMarkers host);
      [|split; [simpl; lia | constructor]].
    destruct (getModelMarkers host uri) as [markers|e];
      [|split; [simpl; lia | repeat constructor]].
    cbv zeta.
    destruct (markerObjects (match markers with Some ms => ms | None => [] end))
      as [objects|e] eqn:Hobjects; [|split; [simpl; lia | repeat constructor]].
    apply markerObjects_length in Hobjects.
    destruct (match followCursor (config (lens w)) with
              | ActiveLine => getPosition host
              | AllLines => Ok None
              end) as [position|e]; [|split; [simpl; lia | repeat constructor]].
    destruct (deltaDecorations host _ _); (split; [simpl; lia|]); repeat constructor.
    simpl. rewrite <- Hobjects.
    eapply Nat.le_trans; [apply createDecorations_length | apply filterMarkers_length].
  - exists []. rewrite app_nil_r. split; [|split; [simpl; lia | constructor]].
    unfold refresh, updateDecorationsInternal, bind, gets, ret, call. simpl.
    rewrite Hmodel. now destruct (isDisposed (lens w) || negb (enabled (config (lens w)))).
Qed.

(** ** Subscriptions *)

(** Monaco is ready and its subscription functions return. *)
Definition readyHost (host : Host) : Prop :=
  has_getModelMarkers host = true /\
  has_onDidChangeMarkers host = true /\
  (exists uri, getModel host = Ok (Some uri)) /\
  (forall k, subscribe host k = Ok tt).

Definition subscriptionsOf (config : ErrorLensConfig) : list ListenerKind :=
  MarkerListener
    :: match followCursor config with
       | ActiveLine => [CursorListener]
       | AllLines => []
       end
    ++ [ModelListener].

Lemma keeps_clearDecorations_disposables (ds : list ListenerKind) (host : Host) :
  keeps (fun w => disposables (lens w) = ds) (clearDecorations host).
Proof.
  unfold clearDecorations, manager_clearDecorations, editor_deltaDecorations.
  solve_untouched.
Qed.

Lemma keeps_scheduleUpdate_disposables (ds : list ListenerKind) :
  keeps (fun w => disposables (lens w) = ds) scheduleUpdate.
Proof.
  unfold scheduleUpdate, invoke, debouncedFn.
  solve_untouched.
Qed.

Lemma disable_keeps_subscriptions (host : Host) (w : World) :
  disposables (lens (fst (disable host w))) = disposables (lens w).
Proof.
  unfold disable, bind, gets, modify. cbn [fst snd].
  destruct (enabled (config (lens w))); [|reflexivity].
  now apply keeps_clearDecorations_disposables.
Qed.

Section Subscribing.
Arguments scheduleUpdate : simpl never.

Lemma enable_subscribes (host : Host) (w : World) :
  readyHost host -> enabled (config (lens w)) = false ->
  disposables (lens (fst (enable host w)))
  = disposables (lens w) ++ subscriptionsOf (config (lens w)).
Proof.
  intros [Hmarkers [Hchange [[uri Hmodel] Hsubscribe]]] Hoff.
  assert (Hfinal : forall w2,
             disposables (lens (fst (scheduleUpdate w2))) = disposables (lens w2)).
  { intros w2. now apply keeps_scheduleUpdate_disposables. }
  unfold enable, initialize, injectStyles, setupEventListeners, isMonacoInitialized,
    pushDisposable, subscriptionsOf.
  unfold bind, gets, ret, call, modify. simpl.
  rewrite Hoff, Hmarkers, Hchange, Hmodel, !Hsubscribe. simpl.
  destruct (has_document host); simpl; [destruct (stylesInjected w); simpl|];
    destruct (followCursor (config (lens w))); simpl;
    rewrite Hfinal; simpl; rewrite <- ?app_assoc; reflexivity.
Qed.
End Subscribing.

(** X28. [disable] leaves the subscriptions to the editor in place, and
    [enable], on a page where Monaco is ready, subscribes anew: after
    [enable] on a disabled instance the list of subscriptions is the one
    from before followed by a new marker listener, a new cursor listener in
    [activeLine] mode, and a new model listener. *)
Theorem enable_subscribes_anew (host : Host) (w : World) :
  disposables (lens (fst (disable host w))) = disposables (lens w) /\
  (readyHost host -> enabled (config (lens w)) = false ->
   disposables (lens (fst (enable host w)))
   = disposables (lens w) ++ subscriptionsOf (config (lens w))).
Proof.
  split; [apply disable_keeps_subscriptions | apply enable_subscribes].
Qed.

Lemma sample_host_ready : readyHost sample_host.
Proof.
  split; [reflexivity|]. split; [reflexivity|].
  split; [eexists; reflexivity | intros k; reflexivity].
Qed.

(** The sample instance switched off and on again on the page with a
    model: it holds a marker listener and a model listener. *)
Definition subscribed_world : World :=
  fst (enable sample_host (fst (disable sample_host sample_world))).

Lemma enable_subscribes_anew_witness :
  readyHost sample_host /\
  disposables (lens subscribed_world) = [MarkerListener; ModelListener] /\
  enabled (config (lens (fst (disable sample_host subscribed_world)))) = false /\
  disposables (lens (fst (enable sample_host (fst (disable sample_host subscribed_world)))))
  = [MarkerListener; ModelListener; MarkerListener; ModelListener].
Proof.
  assert (Hoff : enabled (config (lens (fst (disable sample_host subscribed_world))))
                 = false)
    by reflexivity.
  split; [exact sample_host_ready|]. split; [reflexivity|]. split; [exact Hoff|].
  exact (proj2 (enable_subscribes_anew sample_host
                  (fst (disable sample_host subscribed_world)))
           sample_host_ready Hoff).
Defined.

Local Close Scope lens_scope.
